(** * Workflow compiler and submission queue of the Comfy front end

    A shallow embedding of the parts of [web-src/src/scripts/app.ts] that
    load a graph document, compile the editor graph into a prompt
    ([graphToPrompt]), drain the submission queue ([queuePrompt]) and
    register extensions ([registerExtension]), with the properties of the
    specification stated and settled against them; then of further parts of
    the same file (the callbacks of the extensions, the patches made to a
    configured graph, the dialog of the missing node types, the handlers of
    the updates from the backend) and of the menu of
    [web/src/context/uiContext.tsx], with properties read off the code. *)

From Stdlib Require Import ZArith Ascii String List Bool Lia.
From stdpp Require Import base option list strings gmap fin_maps pretty.

Local Open Scope string_scope.
Local Open Scope list_scope.
Local Open Scope Z_scope.

(** ** Completions

    A JavaScript call either returns a value or throws. *)

Inductive Completion (A : Type) : Type :=
| Returns (a : A)
| Throws (message : string).
Arguments Returns {A} a.
Arguments Throws {A} message.

(** * Extensions *)

Module Extensions.

(** Of a [ComfyExtension] only the [name] is read by [registerExtension];
    at run time the property may be absent. *)
Record ComfyExtension := {
  name : option string;
  tag : nat  (* stands for the rest of the object (its callbacks) *)
}.

(** [!extension.name]: an absent name and the empty string are both falsy. *)
Definition name_falsy (n : option string) : bool :=
  match n with
  | None => true
  | Some s => String.eqb s ""
  end.

(** [ext.name === extension.name] *)
Definition same_name (a b : ComfyExtension) : bool :=
  bool_decide (name a = name b).

(** [this.extensions.find(ext => ext.name === extension.name)] *)
Definition find_named (extension : ComfyExtension) (extensions : list ComfyExtension)
  : option ComfyExtension :=
  List.find (fun ext => same_name ext extension) extensions.

Definition name_text (n : option string) : string :=
  match n with Some s => s | None => "undefined" end.

(** [registerExtension(extension)], on the list [this.extensions]: the
    completion of the call and the list afterwards. *)
Definition registerExtension (extension : ComfyExtension) (extensions : list ComfyExtension)
  : Completion unit * list ComfyExtension :=
  if name_falsy (name extension) then
    (Throws "Extensions must have a 'name' property.", extensions)
  else
    match find_named extension extensions with
    | Some _ =>
        (Throws ("Extension named '" +:+ name_text (name extension) +:+ "' already registered."),
         extensions)
    | None => (Returns tt, extensions ++ [extension])
    end.

Definition throws {A} (c : Completion A) : Prop :=
  match c with Throws _ => True | Returns _ => False end.

Definition registered (n : option string) (extensions : list ComfyExtension) : Prop :=
  ∃ ext, ext ∈ extensions ∧ name ext = n.

End Extensions.

(** * Loading a graph document *)

Module Load.

(** The character codes removed by [sanitizeNodeName]: ampersand, less-than,
    greater-than, double quote, single quote, backquote and equals sign. *)
Definition stripped_codes : list nat := [38; 60; 62; 34; 39; 96; 61]%nat.

Definition is_stripped (c : ascii) : bool :=
  existsb (Nat.eqb (nat_of_ascii c)) stripped_codes.

(** [String(string).replace(/[...]/g, fromEntityMap)]: every entity of the
    map is replaced by the empty string. *)
Fixpoint sanitizeNodeName (s : string) : string :=
  match s with
  | EmptyString => EmptyString
  | String c rest =>
      if is_stripped c then sanitizeNodeName rest
      else String c (sanitizeNodeName rest)
  end.

(** A node of the serialized document. *)
Record SerializedNode := {
  sn_id : Z;
  type : string
}.

Record GraphData := {
  nodes : list SerializedNode
}.

Definition set_type (n : SerializedNode) (t : string) : SerializedNode :=
  {| sn_id := sn_id n; type := t |}.

(** The three patches at the head of the loop body, in source order. *)
Definition patch_type (n : SerializedNode) : SerializedNode :=
  let n := if String.eqb (type n) "T2IAdapterLoader" then set_type n "ControlNetLoader" else n in
  let n := if String.eqb (type n) "ConditioningAverage " then set_type n "ConditioningAverage" else n in
  let n := if String.eqb (type n) "SDV_img2vid_Conditioning"
           then set_type n "SVD_img2vid_Conditioning" else n in
  n.

Section WithRegistry.

(** [n.type in LiteGraph.registered_node_types] *)
Variable registered_node_types : string → bool.

(** One iteration of [for (let n of graphData.nodes)]: the node afterwards
    and what is pushed on [missingNodeTypes]. *)
Definition load_node (n : SerializedNode) : SerializedNode * list string :=
  let n := patch_type n in
  if registered_node_types (type n) then (n, [])
  else (set_type n (sanitizeNodeName (type n)), [type n]).

Fixpoint load_nodes (ns : list SerializedNode) (missingNodeTypes : list string)
  : list SerializedNode * list string :=
  match ns with
  | [] => ([], missingNodeTypes)
  | n :: rest =>
      let '(n', pushed) := load_node n in
      let '(rest', missing) := load_nodes rest (missingNodeTypes ++ pushed) in
      (n' :: rest', missing)
  end.

(** The document after the loop (the nodes are patched in place). *)
Definition normalize (graphData : GraphData) : GraphData * list string :=
  let '(ns, missing) := load_nodes (nodes graphData) [] in
  ({| nodes := ns |}, missing).

(** [this.graph.configure(graphData)] belongs to the graph library; it
    returns the configured graph or throws. *)
Variable Graph : Type.
Variable configure : GraphData → Completion Graph.

(** [loadGraphData(graphData)] up to the [configure] call: the document is
    normalized, then handed to [configure]; a throw aborts the load. *)
Definition loadGraphData (graphData : GraphData) : option Graph * list string :=
  let '(graphData, missingNodeTypes) := normalize graphData in
  match configure graphData with
  | Returns g => (Some g, missingNodeTypes)
  | Throws _ => (None, missingNodeTypes)
  end.

End WithRegistry.

End Load.

(** * The editor graph and its compilation *)

Module Compiler.

(** A widget value is a string, a number or a boolean. Numbers are kept to
    the integers: the compiler only copies widget values. *)
Inductive WidgetValue :=
| WString (s : string)
| WNumber (z : Z)
| WBool (b : bool).

(** Callbacks are closures in the source; a widget or node carries the
    identifier of its callback, and the closures' effects are given by the
    interpretations of section [WithCallbacks] below. *)
Definition HookId := nat.

Record Widget := {
  w_name : string;
  value : WidgetValue;
  (** [false] exactly when [widget.options.serialize === false] *)
  serialize : bool;
  serializeValue : option HookId;
  beforeQueued : option HookId;
  afterQueued : option HookId
}.

Record LLink := {
  link_id : Z;
  origin_id : Z;
  origin_slot : nat;
  target_id : Z;
  target_slot : nat
}.

Record InputSlot := {
  slot_name : string;
  slot_type : string;
  (** the id of the incoming link, [null] when unconnected *)
  link : option Z
}.

(** A node. Absent [inputs] or [widgets] arrays behave like empty ones at
    every use made of them here. The declared type of [id] is [number]. *)
Record NodeData := {
  id : Z;
  mode : Z;
  isVirtualNode : bool;
  inputs : list InputSlot;
  widgets : list Widget;
  comfyClass : string;
  title : string;
  applyToGraph : option HookId;
  updateLink : option HookId
}.

(** An outer node: a node that may expand to inner nodes (a group). *)
Record Node := {
  self :> NodeData;
  getInnerNodes : option (list NodeData)
}.

(** The graph: the shared store read and written by every callback. *)
Record Graph := {
  nodes : list Node;
  links : gmap Z LLink
}.

(** Modelled from the spec: [graph.getNodeById] of the graph library is not
    among the sources; node ids are unique within a graph and the lookup
    yields the node of that id, if any. *)
Definition getNodeById (g : Graph) (i : Z) : option Node :=
  List.find (fun n : Node => Z.eqb (id n) i) (nodes g).

(** Modelled from the spec: [node.getInputLink(slot)] (node class not among
    the sources) fetches the direct link stored on the input slot: nothing
    when the slot is out of range, unconnected, or its link is unknown to
    the graph. *)
Definition getInputLink (g : Graph) (n : NodeData) (slot : nat) : option LLink :=
  s ← inputs n !! slot; k ← link s; links g !! k.

(** Modelled from the spec: [node.getInputNode(slot)] (node class not among
    the sources) yields the node at the origin of that link. *)
Definition getInputNode (g : Graph) (n : NodeData) (slot : nat) : option Node :=
  l ← getInputLink g n slot; getNodeById g (origin_id l).

(** An entry of a step's [inputs]: a literal widget value or the pair
    [[String(origin_id), parseInt(origin_slot)]]. Only the pair is an
    array. *)
Inductive InputValue :=
| Literal (v : WidgetValue)
| Reference (originId : string) (originSlot : Z).

Record WorkflowStep := {
  class_type : string;
  step_inputs : gmap string InputValue;
  _meta : option string
}.

(** [String(id)] of a number: its decimal numeral. *)
Definition String_ (z : Z) : string := pretty z.

(** What [graphToPrompt] returns: the serialized graph (taken after the
    callbacks of the first pass) and the compiled steps. *)
Record Prompt := {
  workflow : Graph;
  output : gmap string WorkflowStep
}.

(** The result of running code that may throw a [TypeError] or loop for
    ever; [OutOfFuel] stands for a loop cut off by the iteration budget. *)
Inductive Outcome (A : Type) : Type :=
| Done (a : A)
| TypeError
| OutOfFuel.
Arguments Done {A} a.
Arguments TypeError {A}.
Arguments OutOfFuel {A}.

Definition bind {A B} (m : Outcome A) (k : A → Outcome B) : Outcome B :=
  match m with
  | Done a => k a
  | TypeError => TypeError
  | OutOfFuel => OutOfFuel
  end.

Notation "'do' x <- m ; k" := (bind m (fun x => k))
  (at level 10, x name, m at level 100, k at level 200).

(** [parent.mode === 4 || parent.isVirtualNode] *)
Definition bypassed (parent : NodeData) : bool :=
  Z.eqb (mode parent) 4 || isVirtualNode parent.

(** [[link.origin_slot].concat(Object.keys(parent.inputs))] *)
Definition all_inputs (parent : NodeData) (l : LLink) : list nat :=
  origin_slot l :: seq 0 (length (inputs parent)).

(** [parent.inputs[parent_input]?.type === node.inputs[i].type] *)
Definition type_matches (parent : NodeData) (ty : string) (parent_input : nat) : bool :=
  match inputs parent !! parent_input with
  | Some s => String.eqb (slot_type s) ty
  | None => false
  end.

(** The body of the [while] loop of the link pass, for the slot type [ty]
    of the input being resolved, entered with the producer [parent] and
    the [link] found so far: the flag [found] and the variables [parent]
    and [link] at the end of the body. *)
Definition loop_body (g : Graph) (ty : string) (parent : NodeData) (link : option LLink)
  : Outcome (bool * option NodeData * option LLink) :=
  if isVirtualNode parent then
    match link with
    | None => TypeError                            (* [link.origin_slot] of undefined *)
    | Some l =>
        match getInputLink g parent (origin_slot l) with
        | None => Done (false, Some parent, None)
        | Some l' =>
            match getInputNode g parent (target_slot l') with
            | None => Done (false, None, Some l')
            | Some p' => Done (true, Some (self p'), Some l')
            end
        end
    end
  else
    match link with
    | None => Done (false, Some parent, None)
    | Some l =>
        if Z.eqb (mode parent) 4 then
          match List.find (type_matches parent ty) (all_inputs parent l) with
          | None => Done (false, Some parent, Some l)
          | Some parent_input =>
              match getInputLink g parent parent_input with
              | None => Done (true, Some parent, None)
              | Some l' =>
                  Done (true, self <$> getInputNode g parent parent_input, Some l')
              end
          end
        else Done (false, Some parent, Some l)
    end.

(** The loop itself: [while (parent.mode === 4 || parent.isVirtualNode) {
    ...; if (!found) break; }]. Reading [parent.mode] of a missing node
    throws. The result is the pair [(parent, link)] the loop leaves behind;
    each recursive call is one more iteration. *)
Fixpoint bypass_loop (fuel : nat) (g : Graph) (ty : string)
    (parent : option NodeData) (link : option LLink)
  : Outcome (option NodeData * option LLink) :=
  match fuel with
  | O => OutOfFuel
  | S fuel =>
      match parent with
      | None => TypeError
      | Some p =>
          if bypassed p then
            do r <- loop_body g ty p link;
            let '(found, parent', link') := r in
            if found then bypass_loop fuel g ty parent' link'
            else Done (parent', link')
          else Done (parent, link)
      end
  end.

(** A ranking of the node ids along which every input of a virtual or
    bypassed node comes from a node of smaller rank: the chains the loop
    follows do not come back to a node. *)
Definition ranked_inputs (g : Graph) (rank : Z → nat) (n : Node) : bool :=
  forallb (fun j => match getInputNode g n j with
                    | Some p' => Nat.ltb (rank (id p')) (rank (id n))
                    | None => true
                    end) (seq 0 (length (inputs n))).

Definition bypass_acyclic (g : Graph) (rank : Z → nat) : bool :=
  forallb (fun n : Node => if bypassed n then ranked_inputs g rank n else true) (nodes g).

Section WithCallbacks.

(** The effect of a [beforeQueued], [afterQueued] or [applyToGraph] closure
    on the graph. *)
Variable run_hook : HookId → Graph → Graph.

(** [widget.serializeValue(node, i)]: the value a serialization hook yields
    for the widget at index [i] of [node]. *)
Variable serialize_hook : HookId → Graph → NodeData → nat → WidgetValue.

(** [parent.updateLink(link)]: the link a group node substitutes. *)
Variable updateLink_hook : HookId → LLink → option LLink.

(** [graph.computeExecutionOrder(false, false)] belongs to the graph
    library: the ids of the outer nodes in execution order. The nodes
    themselves are shared objects and are read from the store at use. *)
Variable computeExecutionOrder : Graph → list Z.

(** [this.ui.settings.getSettingValue('Comfy.DevMode')] *)
Variable devMode : bool.

(** [hook?.()] *)
Definition call (h : option HookId) (g : Graph) : Graph :=
  match h with
  | Some k => run_hook k g
  | None => g
  end.

(** ** First pass: callbacks before the prompt is built *)

(** [for (const widget of outerNode.widgets) widget.beforeQueued?.()] *)
Definition run_beforeQueued (ws : list Widget) (g : Graph) : Graph :=
  foldl (fun g w => call (beforeQueued w) g) g ws.

(** [outerNode.getInnerNodes ? outerNode.getInnerNodes() : [outerNode]] *)
Definition innerNodes_of (outerNode : Node) : list NodeData :=
  match getInnerNodes outerNode with
  | Some ns => ns
  | None => [self outerNode]
  end.

(** [if (node.isVirtualNode) { if (node.applyToGraph) node.applyToGraph() }] *)
Definition run_applyToGraph (ns : list NodeData) (g : Graph) : Graph :=
  foldl (fun g (node : NodeData) =>
           if isVirtualNode node then call (applyToGraph node) g else g) g ns.

Definition before_node (g : Graph) (i : Z) : Graph :=
  match getNodeById g i with
  | Some outerNode =>
      run_applyToGraph (innerNodes_of outerNode) (run_beforeQueued (widgets outerNode) g)
  | None => g
  end.

Definition first_pass (g : Graph) : Graph :=
  foldl before_node g (computeExecutionOrder g).

(** ** Second pass: one step per surviving inner node *)

(** The value stored for a widget. *)
Definition widget_input (g : Graph) (node : NodeData) (i : nat) (w : Widget) : WidgetValue :=
  match serializeValue w with
  | Some h => serialize_hook h g node i
  | None => value w
  end.

(** [for (const i in widgets)]: store all widget values, from index [i]. *)
Fixpoint store_widgets (g : Graph) (node : NodeData) (i : nat) (ws : list Widget)
    (inputs : gmap string InputValue) : gmap string InputValue :=
  match ws with
  | [] => inputs
  | w :: rest =>
      store_widgets g node (S i) rest
        (if serialize w then <[w_name w := Literal (widget_input g node i w)]> inputs
         else inputs)
  end.

(** After the loop: [if (link) { if (parent?.updateLink) link =
    parent.updateLink(link); if (link) inputs[name] = [...] }]. *)
Definition final_link (parent : option NodeData) (link : option LLink) : option LLink :=
  match link with
  | None => None
  | Some l =>
      match parent ≫= updateLink with
      | Some h => updateLink_hook h l
      | None => Some l
      end
  end.

Definition reference_of (l : LLink) : InputValue :=
  Reference (String_ (origin_id l)) (Z.of_nat (origin_slot l)).

(** The body of [for (let i in node.inputs)] for the slot [s] at index [i]:
    the link recorded for the input, if any. *)
Definition resolve_input (fuel : nat) (g : Graph) (node : NodeData) (i : nat) (s : InputSlot)
  : Outcome (option LLink) :=
  match getInputNode g node i with
  | None => Done None
  | Some parent =>
      do r <- bypass_loop fuel g (slot_type s) (Some (self parent)) (getInputLink g node i);
      Done (final_link (fst r) (snd r))
  end.

(** [for (let i in node.inputs)]: store all node links, from index [i]. *)
Fixpoint store_links (fuel : nat) (g : Graph) (node : NodeData) (i : nat) (ss : list InputSlot)
    (inputs : gmap string InputValue) : Outcome (gmap string InputValue) :=
  match ss with
  | [] => Done inputs
  | s :: rest =>
      do r <- resolve_input fuel g node i s;
      store_links fuel g node (S i) rest
        (match r with
         | Some l => <[slot_name s := reference_of l]> inputs
         | None => inputs
         end)
  end.

(** [node.mode === 2 || node.mode === 4] *)
Definition muted (node : NodeData) : bool :=
  Z.eqb (mode node) 2 || Z.eqb (mode node) 4.

Definition node_data (fuel : nat) (g : Graph) (node : NodeData) : Outcome WorkflowStep :=
  do inputs <- store_links fuel g node 0%nat (inputs node)
                 (store_widgets g node 0%nat (widgets node) ∅);
  Done {| class_type := comfyClass node;
          step_inputs := inputs;
          _meta := if devMode then Some (title node) else None |}.

(** [for (const node of innerNodes)] of the second pass. *)
Fixpoint compile_inner (fuel : nat) (g : Graph) (ns : list NodeData)
    (output : gmap string WorkflowStep) : Outcome (gmap string WorkflowStep) :=
  match ns with
  | [] => Done output
  | node :: rest =>
      if isVirtualNode node then compile_inner fuel g rest output
      else if muted node then compile_inner fuel g rest output
      else
        do step <- node_data fuel g node;
        compile_inner fuel g rest (<[String_ (id node) := step]> output)
  end.

(** [!skipNode && outerNode.getInnerNodes ? outerNode.getInnerNodes() :
    [outerNode]] *)
Definition innerNodes_unless_skipped (outerNode : Node) : list NodeData :=
  match getInnerNodes outerNode with
  | Some ns => if muted outerNode then [self outerNode] else ns
  | None => [self outerNode]
  end.

Fixpoint compile_outer (fuel : nat) (g : Graph) (order : list Z)
    (output : gmap string WorkflowStep) : Outcome (gmap string WorkflowStep) :=
  match order with
  | [] => Done output
  | i :: rest =>
      match getNodeById g i with
      | Some outerNode =>
          do output <- compile_inner fuel g (innerNodes_unless_skipped outerNode) output;
          compile_outer fuel g rest output
      | None => compile_outer fuel g rest output
      end
  end.

(** ** Cleanup: remove inputs connected to removed nodes *)

(** [Array.isArray(v) && v.length === 2 && !output[v[0]]]. The object
    [output] is used as a map from keys to steps, and every step is an
    object: [output[k]] is truthy exactly when [k] is one of its keys. *)
Definition dangling (output : gmap string WorkflowStep) (v : InputValue) : bool :=
  match v with
  | Reference k _ => bool_decide (output !! k = None)
  | Literal _ => false
  end.

(** [for (const i in output[o].inputs) if (...) delete output[o].inputs[i]]
    over the keys [ks]. *)
Definition prune_inputs (output : gmap string WorkflowStep) (ks : list string)
    (inputs : gmap string InputValue) : gmap string InputValue :=
  foldl (fun inputs i =>
           match inputs !! i with
           | Some v => if dangling output v then delete i inputs else inputs
           | None => inputs
           end) inputs ks.

Definition keys {A} (m : gmap string A) : list string := (map_to_list m).*1.

Definition prune_step (output : gmap string WorkflowStep) (step : WorkflowStep) : WorkflowStep :=
  {| class_type := class_type step;
     step_inputs := prune_inputs output (keys (step_inputs step)) (step_inputs step);
     _meta := _meta step |}.

(** [for (const o in output)]: the steps are pruned in place; the keys of
    [output] do not change. *)
Definition cleanup (output : gmap string WorkflowStep) : gmap string WorkflowStep :=
  foldl (fun out o => alter (prune_step out) o out) output (keys output).

(** ** [graphToPrompt] *)

(** The graph after the call (the callbacks of the first pass have run)
    and what the call returns. *)
Definition graphToPrompt (fuel : nat) (g : Graph) : Graph * Outcome Prompt :=
  let g1 := first_pass g in
  (g1,
   do output <- compile_outer fuel g1 (computeExecutionOrder g1) ∅;
   Done {| workflow := g1; output := cleanup output |}).

End WithCallbacks.

(** ** Graphs without callbacks in the first pass *)

(** No widget of a node declares [beforeQueued] and no virtual inner node
    declares [applyToGraph]. *)
Definition quiet_node (n : Node) : bool :=
  forallb (fun w => bool_decide (beforeQueued w = None)) (widgets n)
  && forallb (fun m : NodeData => negb (isVirtualNode m) || bool_decide (applyToGraph m = None))
       (innerNodes_of n).

Definition quiet (g : Graph) : bool := forallb quiet_node (nodes g).

(** ** Invariants of the cleanup loops *)

(** What the inner loop maintains: entries are only deleted, and the
    entries visited so far hold no dangling pair. *)
Definition pruned_on (output : gmap string WorkflowStep) (ks : list string)
    (inputs0 inputs : gmap string InputValue) : Prop :=
  (∀ i v, inputs !! i = Some v → inputs0 !! i = Some v) ∧
  (∀ i v, inputs0 !! i = Some v → dangling output v = false → inputs !! i = Some v) ∧
  (∀ i k s, i ∈ ks → inputs !! i = Some (Reference k s) → is_Some (output !! k)).

(** What the outer loop maintains: the keys of [output] stay the same, the
    steps visited so far are self-contained, and every step keeps its class
    and the entries that do not dangle. *)
Definition cleaned_on (output0 : gmap string WorkflowStep) (ks : list string)
    (output : gmap string WorkflowStep) : Prop :=
  dom output = dom output0 ∧
  (∀ o step i k s, o ∈ ks → output !! o = Some step →
     step_inputs step !! i = Some (Reference k s) → is_Some (output0 !! k)) ∧
  (∀ o step, output0 !! o = Some step →
     ∃ step', output !! o = Some step' ∧
              class_type step' = class_type step ∧ _meta step' = _meta step ∧
              ∀ i v, step_inputs step !! i = Some v → dangling output0 v = false →
                     step_inputs step' !! i = Some v).

End Compiler.

(** * The link resolver as the specification words it

    These definitions follow the specification's description of bypass
    resolution, not the source; the loop of the source is compared with
    them below. *)

Module Resolver.
Import Compiler.

(** The declared type of input [j] of [parent] is [ty]. *)
Definition has_type (parent : NodeData) (ty : string) (j : nat) : Prop :=
  slot_type <$> inputs parent !! j = Some ty.

Global Instance has_type_dec parent ty j : Decision (has_type parent ty j).
Proof. unfold has_type. apply _. Defined.

(** The first input of [parent], in declaration order, of type [ty]. *)
Definition first_type_match (parent : NodeData) (ty : string) : option nat :=
  fst <$> list_find (fun s : InputSlot => slot_type s = ty) (inputs parent).

(** The input through which a producer reached by the link [l] is
    skipped: a virtual node pairs the output the link leaves from with the
    input of the same index; a bypassed node passes through an input of the
    type being resolved, the one at the index of the bypassed link if it
    has that type, else the first of that type. *)
Definition skipped_through (parent : NodeData) (ty : string) (l : LLink) : option nat :=
  if isVirtualNode parent then Some (origin_slot l)
  else if decide (has_type parent ty (origin_slot l)) then Some (origin_slot l)
  else first_type_match parent ty.

(** [resolves g ty parent l r]: resolving, for a slot of type [ty], the
    link [l] from the producer [parent] ends with the producer and link
    [r]. A producer that is neither virtual nor bypassed is the effective
    producer. A virtual or bypassed one is skipped through its input when
    that input is linked to a node of the graph. When a bypassed node has
    no input of the type, resolution stops at it and keeps the link to it.
    When the input to skip through is not linked, resolution stops
    without a link. *)
Inductive resolves (g : Graph) (ty : string)
  : NodeData → LLink → option NodeData * option LLink → Prop :=
| resolves_here parent l :
    bypassed parent = false →
    resolves g ty parent l (Some parent, Some l)
| resolves_skip parent l j l' (parent' : Node) r :
    bypassed parent = true →
    skipped_through parent ty l = Some j →
    getInputLink g parent j = Some l' →
    getNodeById g (origin_id l') = Some parent' →
    resolves g ty parent' l' r →
    resolves g ty parent l r
| resolves_no_match parent l :
    bypassed parent = true →
    skipped_through parent ty l = None →
    resolves g ty parent l (Some parent, Some l)
| resolves_unlinked parent l j :
    bypassed parent = true →
    skipped_through parent ty l = Some j →
    getInputLink g parent j = None →
    resolves g ty parent l (Some parent, None).

(** Every link found on an input of a node of the graph names that input
    as its target slot. *)
Definition links_on_slots (g : Graph) : bool :=
  forallb (fun n : Node =>
    forallb (fun j => match getInputLink g n j with
                      | Some l => Nat.eqb (target_slot l) j
                      | None => true
                      end) (seq 0 (length (inputs n)))) (nodes g).

End Resolver.

(** * The submission queue *)

Module Queue.
Import Compiler.

Record QueueItem := {
  number : Z;
  batchCount : Z
}.

(** An entry of [nodeError.errors]. *)
Record ErrorReason := {
  reason_message : string;
  reason_details : string
}.

(** [ComfyNodeError]: the class of the node and the reasons of its
    rejection. The array [errors] may be absent. *)
Record NodeError := {
  node_class_type : string;
  node_reasons : option (list ErrorReason)       (* [nodeError.errors] *)
}.

(** [Record<string, ComfyNodeError>]: per-node error detail, by node id, in
    the order of [Object.entries]. *)
Definition NodeErrors := list (string * NodeError).

(** [response.error]: its [message], and its [details] when it has any. *)
Record ErrorInfo := {
  message : string;
  details : option string
}.

(** The payload of a rejected submission, [err.response]. Its members
    [error] and [node_errors] may be absent. *)
Record ErrorResponse := {
  error : option ErrorInfo;
  node_errors : option NodeErrors
}.

(** An object caught by [catch (error)]: whether [error.stack &&
    error.message] is truthy, what [error.toString()] returns, and
    [error.response], when it has one. A number or a boolean that is thrown
    behaves like an object with none of these members. *)
Record ErrorObject := {
  stack_and_message : bool;
  toString : string;
  response : option ErrorResponse
}.

(** What [catch (error)] receives. *)
Inductive Thrown :=
| ThrownNull                          (* [null] or [undefined] *)
| ThrownString (s : string)
| ThrownObject (e : ErrorObject).

(** What [api.queuePrompt(number, p)] does: it resolves with a result
    carrying [node_errors], or it throws. *)
Inductive Response :=
| Accepted (res_node_errors : option NodeErrors)
| Rejected (error : Thrown).

(** The line feed. *)
Definition LF : string := String (ascii_of_nat 10) EmptyString.

(** [t.details] is truthy. *)
Definition has_details (d : option string) : bool :=
  match d with
  | Some d => negb (String.eqb d "")
  | None => false
  end.

(** [for (const errorReason of nodeError.errors) message += ...] *)
Definition format_reasons (message : string) (reasons : list ErrorReason) : string :=
  foldl (fun message errorReason =>
           message +:+ LF +:+ "    - " +:+ reason_message errorReason +:+ ": "
                   +:+ reason_details errorReason)
        message reasons.

(** [for (const [_, nodeError] of Object.entries(error.response.node_errors))]:
    iterating over an [errors] that is absent throws. *)
Fixpoint format_node_errors (message : string) (entries : NodeErrors) : Completion string :=
  match entries with
  | [] => Returns message
  | (_, nodeError) :: entries =>
      let message := message +:+ LF +:+ node_class_type nodeError +:+ ":" in
      match node_reasons nodeError with
      | Some reasons => format_node_errors (format_reasons message reasons) entries
      | None => Throws "TypeError: nodeError.errors is not iterable"
      end
  end.

(** [#formatPromptError(err)]: the text for the dialog, or a throw, when
    the response has no [error] to read the message of, or no [node_errors]
    to list the entries of, or a node error without [errors]. *)
Definition formatPromptError (err : Thrown) : Completion string :=
  match err with
  | ThrownNull => Returns "(unknown error)"
  | ThrownString s => Returns s
  | ThrownObject e =>
      if stack_and_message e then Returns (toString e)
      else
        match response e with
        | Some r =>
            match error r with
            | None => Throws "TypeError: Cannot read properties of undefined (reading 'message')"
            | Some info =>
                let message := message info in
                let message :=
                  if has_details (details info)
                  then message +:+ ": " +:+ default "" (details info)
                  else message in
                match node_errors r with
                | None => Throws "TypeError: Cannot convert undefined or null to object"
                | Some entries => format_node_errors message entries
                end
            end
        | None => Returns "(unknown error)"
        end
  end.

(** What an observer sees of a drain, in order. *)
Inductive Action :=
| Compile (returned : bool)
| Submit (number : Z) (accepted : bool)
| AfterQueued (hook : HookId)
| Dialog
| PromptQueued (number batchCount : Z).

(** An activation of [queuePrompt] that found the flag down and is suspended at
    an [await] inside batch unit [i] of the request [item] it popped (the
    current values of its locals [number] and [batchCount]). A hung
    activation, whose compilation does not return, is never resumed. *)
Record Activation := {
  item : QueueItem;
  i : Z;
  hung : bool
}.

Record App := {
  graph : Graph;
  queueItems : list QueueItem;       (* [#queueItems]; [push] appends *)
  processingQueue : bool;            (* [#processingQueue] *)
  lastNodeErrors : option NodeErrors;
  dialog : option string;            (* the text [ui.dialog] shows, once shown *)
  running : list Activation;
  log : list Action
}.

Definition set_graph (g : Graph) (st : App) : App :=
  {| graph := g; queueItems := queueItems st; processingQueue := processingQueue st;
     lastNodeErrors := lastNodeErrors st; dialog := dialog st;
     running := running st; log := log st |}.
Definition set_queueItems (q : list QueueItem) (st : App) : App :=
  {| graph := graph st; queueItems := q; processingQueue := processingQueue st;
     lastNodeErrors := lastNodeErrors st; dialog := dialog st;
     running := running st; log := log st |}.
Definition set_processingQueue (b : bool) (st : App) : App :=
  {| graph := graph st; queueItems := queueItems st; processingQueue := b;
     lastNodeErrors := lastNodeErrors st; dialog := dialog st;
     running := running st; log := log st |}.
Definition set_lastNodeErrors (e : option NodeErrors) (st : App) : App :=
  {| graph := graph st; queueItems := queueItems st; processingQueue := processingQueue st;
     lastNodeErrors := e; dialog := dialog st;
     running := running st; log := log st |}.
Definition set_running (r : list Activation) (st : App) : App :=
  {| graph := graph st; queueItems := queueItems st; processingQueue := processingQueue st;
     lastNodeErrors := lastNodeErrors st; dialog := dialog st;
     running := r; log := log st |}.
Definition emit (a : list Action) (st : App) : App :=
  {| graph := graph st; queueItems := queueItems st; processingQueue := processingQueue st;
     lastNodeErrors := lastNodeErrors st; dialog := dialog st;
     running := running st; log := log st ++ a |}.

(** [this.ui.dialog.show(text)] *)
Definition show (text : string) (st : App) : App :=
  {| graph := graph st; queueItems := queueItems st; processingQueue := processingQueue st;
     lastNodeErrors := lastNodeErrors st; dialog := Some text;
     running := running st; log := log st ++ [Dialog] |}.

(** The numbers of the submissions attempted, in order. *)
Fixpoint submitted (l : list Action) : list Z :=
  match l with
  | [] => []
  | Submit n _ :: l => n :: submitted l
  | _ :: l => submitted l
  end.

(** [while (this.#queueItems.length) { queueItem = this.#queueItems.pop();
    ... for (let i = 0; i < batchCount; i++)]: from the top of the stack of
    pending items (the end of the array), the first request that has a
    unit to run, the items left under it, and the request popped last
    (the final value of the locals [number] and [batchCount]). *)
Fixpoint next_request (stack : list QueueItem) (locals : QueueItem)
  : option QueueItem * list QueueItem * QueueItem :=
  match stack with
  | [] => (None, [], locals)
  | q :: rest =>
      if 0 <? batchCount q then (Some q, rest, q)
      else next_request rest q
  end.

Definition place (k : nat) (a : Activation) (r : list Activation) : list Activation :=
  take k r ++ a :: drop k r.

(** The activation at position [k] is at the head of the [while] loop: it
    runs, without suspending, either to the first [await] of the next
    request's first unit, or out of the loop, through [finally], to the
    [promptQueued] event. *)
Definition while_loop (k : nat) (locals : QueueItem) (st : App) : App :=
  match next_request (rev (queueItems st)) locals with
  | (Some q, rest, _) =>
      set_running (place k {| item := q; i := 0; hung := false |} (running st))
        (set_queueItems (rev rest) st)
  | (None, _, locals) =>
      emit [PromptQueued (number locals) (batchCount locals)]
        (set_processingQueue false (set_queueItems [] st))
  end.

Section WithBackend.

Variable run_hook : HookId → Graph → Graph.
Variable serialize_hook : HookId → Graph → NodeData → nat → WidgetValue.
Variable updateLink_hook : HookId → LLink → option LLink.
Variable computeExecutionOrder : Graph → list Z.
Variable devMode : bool.

(** The iteration budget given to every bypass loop. *)
Variable fuel : nat.

(** The backend: its answer to the submission of [p] with priority
    [number], given how many submissions it has received before. *)
Variable api_queuePrompt : Z → Prompt → nat → Response.

Definition compile (g : Graph) : Graph * Outcome Prompt :=
  graphToPrompt run_hook serialize_hook updateLink_hook computeExecutionOrder devMode fuel g.

(** [for (const widget of node.widgets) if (widget.afterQueued)
    widget.afterQueued()]: the callbacks to run, in order. *)
Definition afterQueued_hooks (ws : list Widget) : list HookId :=
  omap afterQueued ws.

(** The [afterQueued] callbacks of the node of id [i], and those of the
    whole graph, node after node. *)
Definition node_callbacks (g : Graph) (i : Z) : option (list HookId) :=
  (fun n : Node => afterQueued_hooks (widgets n)) <$> getNodeById g i.

Definition callbacks_of (g : Graph) : list HookId :=
  concat ((fun n : Node => afterQueued_hooks (widgets n)) <$> nodes g).

(** Running callbacks one after the other, keeping track of which ran. *)
Definition run_hooks (hs : list HookId) (s : Graph * list HookId) : Graph * list HookId :=
  foldl (fun s h => (run_hook h s.1, s.2 ++ [h])) s hs.

(** [for (const n of p.workflow.nodes) { const node =
    this.graph?.getNodeById(n.id); ... }]: the graph afterwards and the
    callbacks that ran. *)
Definition after_node (s : Graph * list HookId) (n : Node) : Graph * list HookId :=
  match getNodeById s.1 (id n) with
  | Some node => run_hooks (afterQueued_hooks (widgets node)) s
  | None => s
  end.

Definition run_afterQueued (p : Prompt) (g : Graph) : Graph * list HookId :=
  foldl after_node (g, []) (nodes (workflow p)).

(** How a batch unit ends: it goes on to the next unit, it breaks out of
    the [for] loop, it throws (from the compilation or from inside the
    [catch] block), or it does not return. *)
Inductive UnitEnd := Next | Break | Escapes | Hangs.

(** One batch unit, for the request [q]: the body of the [for] loop. The
    [afterQueued] callbacks, [canvas.draw] and [ui.queue.update] are taken
    to return. *)
Definition batch_unit (q : QueueItem) (st : App) : App * UnitEnd :=
  let '(g1, r) := compile (graph st) in
  let st := set_graph g1 st in
  match r with
  | OutOfFuel => (st, Hangs)
  | TypeError => (emit [Compile false] st, Escapes)
  | Done p =>
      let st := emit [Compile true] st in
      match api_queuePrompt (number q) p (length (submitted (log st))) with
      | Accepted res =>
          let st := set_lastNodeErrors res (emit [Submit (number q) true] st) in
          let '(g2, hs) := run_afterQueued p (graph st) in
          (emit (AfterQueued <$> hs) (set_graph g2 st), Next)
      | Rejected err =>
          (* [catch (error)]: a throw in here leaves the loops, through
             [finally] *)
          let st := emit [Submit (number q) false] st in
          match formatPromptError err with
          | Throws _ => (st, Escapes)
          | Returns formattedError =>
              let st := show formattedError st in
              match err with
              | ThrownNull => (st, Escapes)         (* [err.response] of [null] *)
              | ThrownString _ => (st, Break)
              | ThrownObject e =>
                  (match response e with
                   | Some r => set_lastNodeErrors (node_errors r) st
                   | None => st
                   end, Break)
              end
          end
      end
  end.

(** The [catch] block runs to its [break]: the text of the dialog is built
    and [err.response] can be read. *)
Definition handled (err : Thrown) : bool :=
  match formatPromptError err, err with
  | Returns _, (ThrownString _ | ThrownObject _) => true
  | _, _ => false
  end.


(** The unit the request [q] runs in [st] ends with its [catch] block
    throwing: the compilation returns, the submission is rejected, and the
    error is one the block does not handle. *)
Definition catch_throws (q : QueueItem) (st : App) : Prop :=
  ∃ p err, (compile (graph st)).2 = Done p ∧
           api_queuePrompt (number q) p (length (submitted (log st))) = Rejected err ∧
           handled err = false.

(** The activation at position [k] is resumed and runs to its next
    suspension, or to its end. While it was suspended only calls could
    happen, and a call made with the flag up touches nothing but the
    pending list; so the unit it was suspended in is run here as a whole. *)
Definition resume (k : nat) (st : App) : App :=
  match running st !! k with
  | None => st
  | Some a =>
      if hung a then st
      else
        let '(st, e) := batch_unit (item a) (set_running (delete k (running st)) st) in
        match e with
        | Hangs =>
            set_running (place k {| item := item a; i := i a; hung := true |} (running st)) st
        | Escapes => set_processingQueue false st      (* [finally], then the throw *)
        | Break => while_loop k (item a) st
        | Next =>
            if i a + 1 <? batchCount (item a)
            then set_running (place k {| item := item a; i := i a + 1; hung := false |}
                                (running st)) st
            else while_loop k (item a) st
        end
  end.

(** A call [queuePrompt(number, batchCount)], up to its first suspension. *)
Definition queuePrompt (number batchCount : Z) (st : App) : App :=
  let q := {| number := number; batchCount := batchCount |} in
  let st := set_queueItems (queueItems st ++ [q]) st in
  if processingQueue st then st
  else
    while_loop (length (running st)) q
      (set_lastNodeErrors None (set_processingQueue true st)).

(** What happens to the application: a call of [queuePrompt] from the user
    interface, or the resumption of a suspended activation. *)
Inductive Event :=
| Call (number batchCount : Z)
| Resume (k : nat).

Definition step (st : App) (e : Event) : App :=
  match e with
  | Call n b => queuePrompt n b st
  | Resume k => resume k st
  end.

Definition run (es : list Event) (st : App) : App := foldl step st es.

Definition start (g : Graph) : App :=
  {| graph := g; queueItems := []; processingQueue := false; lastNodeErrors := None;
     dialog := None; running := []; log := [] |}.

End WithBackend.

(** ** Bookkeeping for the statements about the queue *)

(** The submissions a request asks for: [batchCount] times its [number]. *)
Definition units (q : QueueItem) : list Z :=
  repeat (number q) (Z.to_nat (batchCount q)).

(** The submissions an activation still has to make. *)
Definition remaining (a : Activation) : list Z :=
  repeat (number (item a)) (Z.to_nat (batchCount (item a) - i a)).

(** The submissions asked for and not yet made. *)
Definition pending_units (st : App) : list Z :=
  (queueItems st ≫= units) ++ (running st ≫= remaining).

(** The submissions asked for by the calls among the events. *)
Definition asked (e : Event) : list Z :=
  match e with
  | Call n b => units {| number := n; batchCount := b |}
  | Resume _ => []
  end.

Definition called (es : list Event) : list Z := es ≫= asked.

(** At most one activation is inside the drain loop, and the flag is up
    exactly while one is. *)
Definition single_flight (st : App) : Prop :=
  (length (running st) ≤ 1)%nat ∧ (processingQueue st = true ↔ running st ≠ []).

(** The activation [a] is the one draining, with [pending] behind it. *)
Definition draining (st : App) (a : Activation) (pending : list QueueItem) : Prop :=
  running st = [a] ∧ hung a = false ∧ processingQueue st = true ∧ queueItems st = pending.

(** Nothing drains and nothing is pending. *)
Definition idle (st : App) : Prop :=
  running st = [] ∧ processingQueue st = false ∧ queueItems st = [].

(** What every state reached by the events [es] satisfies when nothing
    fails, [I] holding of the graphs met: what was asked for is what has
    been submitted and what is pending, and the state is idle or has one
    activation inside its batch. *)
Definition accounted (I : Graph → Prop) (es : list Event) (st : App) : Prop :=
  I (graph st) ∧
  called es ≡ₚ submitted (log st) ++ pending_units st ∧
  (idle st ∨ ∃ a pending, draining st a pending ∧ 0 ≤ i a < batchCount (item a)).

End Queue.

(** * Sample graphs and callbacks

    Concrete inputs on which the definitions are evaluated. *)

Module Samples.
Import Compiler.

(** A document with the three legacy spellings, loaded where no node type
    is registered. *)
Definition legacy_node : Load.SerializedNode :=
  {| Load.sn_id := 1; Load.type := "ConditioningAverage " |}.

Definition legacy_document : Load.GraphData :=
  {| Load.nodes := [ legacy_node;
                     {| Load.sn_id := 2; Load.type := "T2IAdapterLoader" |};
                     {| Load.sn_id := 3; Load.type := "SDV_img2vid_Conditioning" |} ] |}.

(** The store order stands for the execution order. *)
Definition store_order (g : Graph) : list Z := (fun n : Node => id n) <$> nodes g.

Definition plain (n : NodeData) : Node := {| self := n; getInnerNodes := None |}.

Definition slot (name ty : string) (l : option Z) : InputSlot :=
  {| slot_name := name; slot_type := ty; link := l |}.

Definition edge (k from : Z) (from_slot : nat) (to : Z) (to_slot : nat) : LLink :=
  {| link_id := k; origin_id := from; origin_slot := from_slot;
     target_id := to; target_slot := to_slot |}.

Definition node (i m : Z) (virtual : bool) (cls : string) (ins : list InputSlot)
    (ws : list Widget) : Node :=
  plain {| id := i; mode := m; isVirtualNode := virtual; inputs := ins; widgets := ws;
           comfyClass := cls; title := cls; applyToGraph := None; updateLink := None |}.

Definition widget (name : string) (v : WidgetValue) (before after : option HookId) : Widget :=
  {| w_name := name; value := v; serialize := true; serializeValue := None;
     beforeQueued := before; afterQueued := after |}.

Definition no_serialize (_ : HookId) (_ : Graph) (_ : NodeData) (_ : nat) : WidgetValue :=
  WBool false.
Definition no_updateLink (_ : HookId) (l : LLink) : option LLink := Some l.

(** The callback of a seed widget: it advances the numeric value of the
    widgets named [seed]. *)
Definition advance (w : Widget) : Widget :=
  match value w with
  | WNumber z =>
      if String.eqb (w_name w) "seed"
      then {| w_name := w_name w; value := WNumber (z + 1); serialize := serialize w;
              serializeValue := serializeValue w; beforeQueued := beforeQueued w;
              afterQueued := afterQueued w |}
      else w
  | _ => w
  end.

Definition advance_node (n : Node) : Node :=
  {| self := {| id := id n; mode := mode n; isVirtualNode := isVirtualNode n;
                inputs := inputs n; widgets := advance <$> widgets n;
                comfyClass := comfyClass n; title := title n;
                applyToGraph := applyToGraph n; updateLink := updateLink n |};
     getInnerNodes := getInnerNodes n |}.

Definition advance_seed (_ : HookId) (g : Graph) : Graph :=
  {| nodes := advance_node <$> nodes g; links := links g |}.

Definition idle_hook (_ : HookId) (g : Graph) : Graph := g.

(** Node 3 reads node 1 and node 2; node 2 is never executed (mode 2). *)
Definition pruned_graph : Graph :=
  {| nodes := [ node 1 0 false "LoadImage" [] [];
                node 2 2 false "LoadImage" [] [];
                node 3 0 false "KSampler"
                  [slot "a" "IMAGE" (Some 10); slot "b" "IMAGE" (Some 11)]
                  [widget "seed" (WNumber 7) None None] ];
     links := {[ 10 := edge 10 1 0 3 0; 11 := edge 11 2 0 3 1 ]} |}.

(** Node 1 feeds the bypassed node 2 (mode 4), which feeds the virtual
    node 3, which feeds node 4. *)
Definition loader : Node := node 1 0 false "LoadImage" [] [].
Definition scaler : Node :=
  node 2 4 false "ImageScale" [slot "mask" "MASK" None; slot "image" "IMAGE" (Some 20)] [].
Definition reroute : Node := node 3 0 true "Reroute" [slot "" "*" (Some 21)] [].
Definition saver : Node := node 4 0 false "SaveImage" [slot "images" "IMAGE" (Some 22)] [].
Definition bypass_graph : Graph :=
  {| nodes := [ loader; scaler; reroute; saver ];
     links := {[ 20 := edge 20 1 0 2 1; 21 := edge 21 2 0 3 0; 22 := edge 22 3 0 4 0 ]} |}.

(** Node 4 reads a virtual node whose own input is not connected. *)
Definition reroute_open : Node := node 3 0 true "Reroute" [slot "" "*" None] [].
Definition dead_end_graph : Graph :=
  {| nodes := [ reroute_open; saver ]; links := {[ 22 := edge 22 3 0 4 0 ]} |}.

(** Two virtual nodes feeding each other, and node 3 reading one of them. *)
Definition reroute1 : Node := node 1 0 true "Reroute" [slot "" "*" (Some 31)] [].
Definition reroute2 : Node := node 2 0 true "Reroute" [slot "" "*" (Some 30)] [].
Definition cyclic_reader : Node :=
  node 3 0 false "SaveImage" [slot "images" "IMAGE" (Some 32)] [].
Definition cyclic_graph : Graph :=
  {| nodes := [ reroute1; reroute2; cyclic_reader ];
     links := {[ 30 := edge 30 1 0 2 0; 31 := edge 31 2 0 1 0; 32 := edge 32 1 0 3 0 ]} |}.

(** A loader feeding a sampler whose seed widget declares the callback
    [before] before and [after] after each submission. *)
Definition seeded_graph (before after : option HookId) : Graph :=
  {| nodes := [ node 1 0 false "LoadImage" [] [];
                node 2 0 false "KSampler" [slot "image" "IMAGE" (Some 40)]
                  [widget "seed" (WNumber 7) before after] ];
     links := {[ 40 := edge 40 1 0 2 0 ]} |}.

Definition sample_compile (hook : HookId → Graph → Graph) (fuel : nat) (g : Graph)
  : Graph * Outcome Prompt :=
  graphToPrompt hook no_serialize no_updateLink store_order false fuel g.

Definition prompt_of (r : Graph * Outcome Prompt) : Prompt :=
  match r.2 with
  | Done p => p
  | _ => {| workflow := r.1; output := ∅ |}
  end.

Definition step_of (p : Prompt) (o : string) : WorkflowStep :=
  match output p !! o with
  | Some step => step
  | None => {| class_type := ""; step_inputs := ∅; _meta := None |}
  end.

Definition inputs_of (p : Prompt) (o : string) : list (string * InputValue) :=
  map_to_list (step_inputs (step_of p o)).

(** The inputs built for a node, before the cleanup pass. *)
Definition built_inputs (fuel : nat) (g : Graph) (n : NodeData)
  : option (list (string * InputValue)) :=
  match node_data no_serialize no_updateLink false fuel g n with
  | Done step => Some (map_to_list (step_inputs step))
  | _ => None
  end.

Definition pruned_prompt : Prompt := prompt_of (sample_compile idle_hook 5 pruned_graph).

(** A bypassed node whose image input is linked to a node that is not in
    the graph: compiling the reader of that node throws. *)
Definition broken_graph : Graph :=
  {| nodes := [ node 2 4 false "ImageScale" [slot "image" "IMAGE" (Some 20)] [];
                node 4 0 false "SaveImage" [slot "images" "IMAGE" (Some 21)] [] ];
     links := {[ 20 := edge 20 1 0 2 0; 21 := edge 21 2 0 4 0 ]} |}.

(** Backends. *)
Definition accept_all (_ : Z) (_ : Prompt) (_ : nat) : Queue.Response :=
  Queue.Accepted None.

(** The payload of a rejection by the validation of the backend. *)
Definition rejection : Queue.ErrorResponse :=
  {| Queue.error := Some {| Queue.message := "Prompt outputs failed validation";
                            Queue.details := None |};
     Queue.node_errors :=
       Some [("2", {| Queue.node_class_type := "KSampler";
                      Queue.node_reasons :=
                        Some [{| Queue.reason_message := "Value not in list";
                                 Queue.reason_details := "sampler_name" |}] |})] |}.

Definition thrown (r : Queue.ErrorResponse) : Queue.Thrown :=
  Queue.ThrownObject {| Queue.stack_and_message := false;
                        Queue.toString := "[object Object]";
                        Queue.response := Some r |}.

Definition reject_first (_ : Z) (_ : Prompt) (k : nat) : Queue.Response :=
  match k with
  | O => Queue.Rejected (thrown rejection)
  | S _ => Queue.Accepted None
  end.



Definition sample_run (hook : HookId → Graph → Graph)
    (api : Z → Prompt → nat → Queue.Response) (es : list Queue.Event) (g : Graph) : Queue.App :=
  Queue.run hook no_serialize no_updateLink store_order false 5 api es (Queue.start g).

(** The value of the seed widget of node 2. *)
Definition seed_of (g : Graph) : option WidgetValue :=
  match getNodeById g 2 with
  | Some n => value <$> widgets n !! 0%nat
  | None => None
  end.


(** Request 0, a batch of two, is draining; the backend accepts. *)
Definition accepted_state : Queue.App :=
  sample_run advance_seed accept_all [Queue.Call 0 2] (seeded_graph None (Some 0%nat)).

(** The graph every unit of a run without callbacks compiles. *)
Definition plain_graph : Graph := seeded_graph None None.

End Samples.

(** * Further parts of the front end

    The rest of the loading of a document, what the compiled output is
    made of, the bookkeeping of the queue for every backend, the callbacks
    of the extensions, the dialog of the missing node types, the updates
    from the backend, and the dragging of the menu of [uiContext.tsx]. *)

(** ** Names of node types *)

Module Names.
Import Load.

(** No character of [s] is among those [sanitizeNodeName] removes. *)
Definition plain_name (s : string) : bool :=
  forallb (fun c => negb (is_stripped c)) (list_ascii_of_string s).

(** The spellings the loop of [loadGraphData] rewrites. *)
Definition legacy_types : list string :=
  ["T2IAdapterLoader"; "ConditioningAverage "; "SDV_img2vid_Conditioning"].

(** A node the loop has nothing to do for: its type is registered and is
    not a legacy spelling. *)
Definition settled (registered_node_types : string → bool) (n : SerializedNode) : bool :=
  negb (existsb (String.eqb (type n)) legacy_types) && registered_node_types (type n).

(** The type a node has after the three patches. *)
Definition patched_type (n : SerializedNode) : string := type (patch_type n).

End Names.

(** ** What the compiled output is made of *)

Module Compiled.
Import Compiler.

(** The entries the cleanup pass leaves of [inputs]: the literals and the
    pairs whose origin is a key of [output]. *)
Definition live_inputs (output : gmap string WorkflowStep) (inputs : gmap string InputValue)
  : gmap string InputValue :=
  filter (fun kv => dangling output kv.2 = false) inputs.

Definition live_step (output : gmap string WorkflowStep) (step : WorkflowStep) : WorkflowStep :=
  {| class_type := class_type step;
     step_inputs := live_inputs output (step_inputs step);
     _meta := _meta step |}.

(** The inner nodes the second pass goes through, in order. *)
Definition visited (g : Graph) (order : list Z) : list NodeData :=
  i ← order;
  match getNodeById g i with
  | Some outerNode => innerNodes_unless_skipped outerNode
  | None => []
  end.

(** The nodes that get a step: neither virtual nor muted or bypassed. *)
Definition compiled (node : NodeData) : bool :=
  negb (isVirtualNode node) && negb (muted node).

(** Every link of the graph starts at a node of the graph. *)
Definition links_closed (g : Graph) : bool :=
  forallb (fun kl => bool_decide (is_Some (getNodeById g (origin_id kl.2))))
    (map_to_list (links g)).

Section WithCallbacks.

Variable serialize_hook : HookId → Graph → NodeData → nat → WidgetValue.
Variable updateLink_hook : HookId → LLink → option LLink.
Variable fuel : nat.
Variable g : Graph.

(** Where an entry [v] stored under [j] in the step of [node] comes from:
    a serialized widget of that name, or the link resolved for an input
    slot of that name. *)
Definition entry_of (node : NodeData) (j : string) (v : InputValue) : Prop :=
  (∃ n w, widgets node !! n = Some w ∧ w_name w = j ∧ serialize w = true ∧
          v = Literal (widget_input serialize_hook g node n w))
  ∨ (∃ n s l, inputs node !! n = Some s ∧ slot_name s = j ∧
              resolve_input updateLink_hook fuel g node n s = Done (Some l) ∧
              v = reference_of l).

End WithCallbacks.

End Compiled.

(** ** The queue, whatever the compiler and the backend answer *)

Module Drain.
Import Compiler Queue.

(** An activation is inside its batch. *)
Definition in_batch (a : Activation) : Prop := 0 ≤ i a < batchCount (item a).

(** What every reachable state satisfies: the submissions made and those
    pending were all asked for by a call. *)
Definition within (es : list Event) (st : App) : Prop :=
  submitted (log st) ++ pending_units st ⊆+ called es ∧
  single_flight st ∧
  Forall in_batch (running st).

(** Where an observer of the actions stands: outside a batch unit, after
    the compilation of a unit, after an accepted submission (the callbacks
    may follow), after a rejected one (the dialog may follow; when the
    [catch] block throws before showing it, the drain is left and what
    follows is what follows a unit). *)
Inductive Phase := Outside | Compiled | Queued | Refused.

Definition next_phase (ph : Phase) (a : Action) : option Phase :=
  match a, ph with
  | Compile false, (Outside | Queued | Refused) => Some Outside
  | Compile true, (Outside | Queued | Refused) => Some Compiled
  | Submit _ true, Compiled => Some Queued
  | Submit _ false, Compiled => Some Refused
  | AfterQueued _, Queued => Some Queued
  | Dialog, Refused => Some Outside
  | PromptQueued _ _, (Outside | Queued | Refused) => Some Outside
  | _, _ => None
  end.

Fixpoint phase_after (ph : Phase) (l : list Action) : option Phase :=
  match l with
  | [] => Some ph
  | a :: l =>
      match next_phase ph a with
      | Some ph' => phase_after ph' l
      | None => None
      end
  end.

(** No unit is half way: the last compilation, if it returned, has been
    followed by its submission. *)
Definition between_units (ph : option Phase) : bool :=
  match ph with
  | Some (Outside | Queued | Refused) => true
  | _ => false
  end.

(** Actions that take an observer standing between two units to a place
    between two units. *)
Definition closed_chunk (l : list Action) : Prop :=
  ∀ ph, between_units (Some ph) = true → between_units (phase_after ph l) = true.

(** The actions seen so far follow the protocol, and no unit is half
    way. *)
Definition protocol (l : list Action) : bool := between_units (phase_after Outside l).

(** The dialogs shown, and the submissions rejected, among the actions. *)
Fixpoint dialogs (l : list Action) : nat :=
  match l with
  | [] => 0
  | Dialog :: l => S (dialogs l)
  | _ :: l => dialogs l
  end.

Fixpoint rejections (l : list Action) : nat :=
  match l with
  | [] => 0
  | Submit _ false :: l => S (rejections l)
  | _ :: l => rejections l
  end.

End Drain.

(** ** Invoking the callbacks of the extensions *)

Module Invoke.
Import Extensions.

Section WithMethods.

(** What a callback can reach besides the list of extensions, the
    arguments it is passed and what it returns. *)
Variables World Args Result : Type.

(** The application as the callbacks see it. [registerExtension] pushes on
    the array [this.extensions] in place and nothing assigns the field, so
    the array being iterated is the field. *)
Record App := {
  extensions : list ComfyExtension;
  world : World
}.

(** [method in ext] *)
Variable has_method : ComfyExtension → string → bool.

(** [ext[method](...args, this)]: what the call completes with and the
    application it leaves behind. *)
Variable call_method : ComfyExtension → string → Args → App → Completion Result * App.

(** What [#invokeExtensions] has built so far: [results], and the names
    of the extensions reported by [console.error]. *)
Record Progress := {
  results : list Result;
  errors : list (option string);
  app : App
}.

(** The body of [for (const ext of this.extensions)]. *)
Definition invoke_one (method : string) (args : Args) (p : Progress) (ext : ComfyExtension)
  : Progress :=
  if has_method ext method then
    match call_method ext method args (app p) with
    | (Returns r, app') =>
        {| results := results p ++ [r]; errors := errors p; app := app' |}
    | (Throws _, app') =>
        {| results := results p; errors := errors p ++ [name ext]; app := app' |}
    end
  else p.

(** The loop, from index [k] of the array: the iterator reads the array as
    it is at each step, so an extension registered by a callback is visited
    in the same round. [None] stands for a round that does not end within
    the budget. *)
Fixpoint invoke_from (fuel : nat) (method : string) (args : Args) (k : nat) (p : Progress)
  : option Progress :=
  match fuel with
  | O => None
  | S fuel =>
      match extensions (app p) !! k with
      | None => Some p
      | Some ext => invoke_from fuel method args (S k) (invoke_one method args p ext)
      end
  end.

(** [#invokeExtensions(method, ...args)] *)
Definition invokeExtensions (fuel : nat) (method : string) (args : Args) (a : App)
  : option Progress :=
  invoke_from fuel method args 0 {| results := []; errors := []; app := a |}.

(** The round over a fixed list of extensions. *)
Definition invoke_all (method : string) (args : Args) (exts : list ComfyExtension)
    (p : Progress) : Progress :=
  foldl (invoke_one method args) p exts.

(** No callback registers or removes an extension. *)
Definition keeps_extensions : Prop :=
  ∀ ext method args a, extensions (call_method ext method args a).2 = extensions a.

(** [registerExtension(extension)] on the application. *)
Definition register (extension : ComfyExtension) (a : App) : Completion unit * App :=
  let '(c, exts) := registerExtension extension (extensions a) in
  (c, {| extensions := exts; world := world a |}).

End WithMethods.

Arguments extensions {World} _.
Arguments world {World} _.
Arguments results {World Result} _.
Arguments errors {World Result} _.
Arguments app {World Result} _.

End Invoke.

(** ** Patching the nodes of a configured graph *)

Module Configured.
Import Compiler.

Global Instance WidgetValue_eq_dec : EqDecision WidgetValue.
Proof. solve_decision. Defined.

(** A widget of a configured node, with its [options] object; [value] may
    be [undefined], and so may [options.values], which for the combo
    widgets of this application is an array. *)
Record Widget := {
  name : string;
  type : string;
  value : option WidgetValue;
  options_values : option (list WidgetValue)
}.

(** A configured node; [computeSize] is what the method of the graph
    library returns for it. Sizes are kept to the integers. *)
Record Node := {
  node_type : string;
  size : Z * Z;
  computeSize : Z * Z;
  widgets : option (list Widget)
}.

Definition set_value (w : Widget) (v : option WidgetValue) : Widget :=
  {| name := name w; type := type w; value := v; options_values := options_values w |}.

(** [s.slice(n)] for [n] within the string. *)
Fixpoint slice (n : nat) (s : string) : string :=
  match n, s with
  | O, _ => s
  | S n, String _ rest => slice n rest
  | S _, EmptyString => EmptyString
  end.

(** [node.type == 'KSampler' || node.type == 'KSamplerAdvanced'] *)
Definition is_sampler (node_type : string) : bool :=
  String.eqb node_type "KSampler" || String.eqb node_type "KSamplerAdvanced".

(** [... || node.type == 'PrimitiveNode'] *)
Definition is_controlled (node_type : string) : bool :=
  is_sampler node_type || String.eqb node_type "PrimitiveNode".

(** The first patch: [widget.value.startsWith] exists on strings only. *)
Definition patch_sampler_name (node_type : string) (w : Widget) : Completion Widget :=
  if is_sampler node_type && String.eqb (name w) "sampler_name" then
    match value w with
    | Some (WString s) =>
        Returns (if String.prefix "sample_" s
                 then set_value w (Some (WString (slice 7 s))) else w)
    | _ => Throws "TypeError"
    end
  else Returns w.

(** The second patch. *)
Definition patch_control (node_type : string) (w : Widget) : Widget :=
  if is_controlled node_type && String.eqb (name w) "control_after_generate" then
    match value w with
    | Some (WBool true) => set_value w (Some (WString "randomize"))
    | Some (WBool false) => set_value w (Some (WString "fixed"))
    | _ => w
    end
  else w.

(** [values.includes(v)] *)
Definition includes (values : list WidgetValue) (v : option WidgetValue) : bool :=
  match v with
  | Some x => bool_decide (x ∈ values)
  | None => false
  end.

(** The third patch, made when the default graph is loaded. *)
Definition reset_invalid (reset_invalid_values : bool) (w : Widget) : Completion Widget :=
  if reset_invalid_values && String.eqb (type w) "combo" then
    match options_values w with
    | None => Throws "TypeError"
    | Some values =>
        Returns (if negb (includes values (value w)) && Nat.ltb 0 (length values)
                 then set_value w (head values) else w)
    end
  else Returns w.

(** The body of [for (let widget of node.widgets)]: the widget afterwards
    and how the body completes. *)
Definition patch_widget (node_type : string) (reset_invalid_values : bool) (w : Widget)
  : Widget * Completion unit :=
  match patch_sampler_name node_type w with
  | Throws m => (w, Throws m)
  | Returns w =>
      let w := patch_control node_type w in
      match reset_invalid reset_invalid_values w with
      | Throws m => (w, Throws m)
      | Returns w => (w, Returns tt)
      end
  end.

(** The loop over the widgets; a throw leaves the later widgets alone. *)
Fixpoint patch_widgets (node_type : string) (reset_invalid_values : bool) (ws : list Widget)
  : list Widget * Completion unit :=
  match ws with
  | [] => ([], Returns tt)
  | w :: rest =>
      match patch_widget node_type reset_invalid_values w with
      | (w, Throws m) => (w :: rest, Throws m)
      | (w, Returns _) =>
          let '(rest, c) := patch_widgets node_type reset_invalid_values rest in
          (w :: rest, c)
      end
  end.

(** The body of [for (const node of this.graph.nodes)] up to the call of
    the extensions. *)
Definition patch_node (reset_invalid_values : bool) (n : Node) : Node * Completion unit :=
  let size := (Z.max (size n).1 (computeSize n).1, Z.max (size n).2 (computeSize n).2) in
  match widgets n with
  | None =>
      ({| node_type := node_type n; size := size; computeSize := computeSize n;
          widgets := None |}, Returns tt)
  | Some ws =>
      let '(ws, c) := patch_widgets (node_type n) reset_invalid_values ws in
      ({| node_type := node_type n; size := size; computeSize := computeSize n;
          widgets := Some ws |}, c)
  end.

(** The value of a combo widget is one of its choices, when it has any. *)
Definition valid_combo (w : Widget) : bool :=
  negb (String.eqb (type w) "combo")
  || match options_values w with
     | Some [] => true
     | Some values => includes values (value w)
     | None => false
     end.

Definition is_boolean (v : option WidgetValue) : bool :=
  match v with Some (WBool _) => true | _ => false end.

Definition is_string (v : option WidgetValue) : bool :=
  match v with Some (WString _) => true | _ => false end.

(** The widgets on which a patch throws. *)
Definition breaks (node_type : string) (reset_invalid_values : bool) (w : Widget) : bool :=
  is_sampler node_type && String.eqb (name w) "sampler_name" && negb (is_string (value w))
  || reset_invalid_values && String.eqb (type w) "combo"
     && bool_decide (options_values w = None).

(** The patches change the value of a widget only. *)
Definition same_widget (w w' : Widget) : Prop :=
  name w' = name w ∧ type w' = type w ∧ options_values w' = options_values w.

(** The widgets of a node, none when the node has no [widgets] array. *)
Definition widgets_of (n : Node) : list Widget := default [] (widgets n).

(** A widget named [control_after_generate] does not hold a boolean. *)
Definition control_named (w : Widget) : bool :=
  negb (String.eqb (name w) "control_after_generate") || negb (is_boolean (value w)).

End Configured.

(** ** The dialog listing the missing node types *)

Module Missing.

(** [t.action]: the text and the callback of a button. *)
Record NodeAction := {
  text : string;
  callback : nat
}.

(** An entry of [missingNodeTypes]: the name of a type, or an object
    describing one. An object has an identity, [ref]: two entries of the
    same [ref] are the same object. *)
Inductive MissingType :=
| TypeName (t : string)
| Described (ref : nat) (type : string) (hint : option string) (action : option NodeAction).

Definition type_of (t : MissingType) : string :=
  match t with
  | TypeName s => s
  | Described _ s _ _ => s
  end.

(** Equality as [Set] sees it: strings by their characters, objects by
    their identity. *)
Definition same_value (a b : MissingType) : bool :=
  match a, b with
  | TypeName s, TypeName t => String.eqb s t
  | Described r _ _ _, Described r' _ _ _ => Nat.eqb r r'
  | _, _ => false
  end.

(** [Array.from(new Set(l))]: the first occurrence of every value, in
    order; [seen] holds the values already in the set. *)
Fixpoint from_set (l seen : list MissingType) : list MissingType :=
  match l with
  | [] => []
  | t :: l =>
      if existsb (same_value t) seen then from_set l seen
      else t :: from_set l (seen ++ [t])
  end.

(** The children of a list item. *)
Inductive Child :=
| Span (textContent : string)
| Button (textContent : string) (onclick : nat).

(** [t.hint] is truthy. *)
Definition truthy (s : option string) : bool :=
  match s with
  | Some s => negb (String.eqb s "")
  | None => false
  end.

Definition children (t : MissingType) : list Child :=
  match t with
  | TypeName s => [Span s]
  | Described _ ty hint action =>
      [Span ty]
      ++ (if truthy hint then [Span (default "" hint)] else [])
      ++ match action with
         | Some a => [Button (text a) (callback a)]
         | None => []
         end
  end.

(** [.map(t => ...).filter(Boolean)]: an entry whose type has been seen
    yields [null], which the filter drops; [seenTypes] grows along. *)
Fixpoint list_items (l : list MissingType) (seenTypes : list string) : list (list Child) :=
  match l with
  | [] => []
  | t :: l =>
      if bool_decide (type_of t ∈ seenTypes) then list_items l seenTypes
      else children t :: list_items l (seenTypes ++ [type_of t])
  end.

(** What [showMissingNodesError] hands to the dialog: the items of the
    list, and whether the closing remark is shown. *)
Record Dialog := {
  items : list (list Child);
  remark : bool
}.

Definition showMissingNodesError (missingNodeTypes : list MissingType) (hasAddedNodes : bool)
  : Dialog :=
  {| items := list_items (from_set missingNodeTypes []) [];
     remark := hasAddedNodes |}.

(** The type an item of the list shows: the text of its first child. *)
Definition shown (item : list Child) : string :=
  match item with
  | Span s :: _ => s
  | Button s _ :: _ => s
  | [] => EmptyString
  end.

Definition listed (d : Dialog) : list string := shown <$> items d.

(** Entries of the same identity are the same object. *)
Definition coherent (l : list MissingType) : Prop :=
  ∀ a b, a ∈ l → b ∈ l → same_value a b = true → a = b.

Section WithLoader.

Variable registered_node_types : string → bool.
Variable Graph : Type.
Variable configure : Load.GraphData → Completion Graph.

(** [await this.invokeExtensionsAsync('beforeConfigureGraph', graphData,
    missingNodeTypes)]: every extension is handed the document and the
    array, still empty, and a throw of a callback is caught and logged. What
    the call leaves behind: the document, which the callbacks can rewrite in
    place, and the array with the entries they pushed, names or objects.
    The array is local to [loadGraphData]; the extensions see it again only
    after the dialog, in [afterConfigureGraph]. *)
Variable beforeConfigureGraph : Load.GraphData → Load.GraphData * list MissingType.

(** The loop of [loadGraphData] over the nodes of the configured graph,
    with the callbacks of the extensions: it returns or throws. *)
Variable after_configure : Graph → Completion unit.

(** [for (let n of graphData.nodes)] on the array the extensions have been
    handed: the body is [Load.load_node], and what it pushes goes after
    the entries of the extensions. *)
Fixpoint load_nodes (ns : list Load.SerializedNode) (missingNodeTypes : list MissingType)
  : list Load.SerializedNode * list MissingType :=
  match ns with
  | [] => ([], missingNodeTypes)
  | n :: rest =>
      let '(n', pushed) := Load.load_node registered_node_types n in
      let '(rest', missing) := load_nodes rest (missingNodeTypes ++ (TypeName <$> pushed)) in
      (n' :: rest', missing)
  end.

(** The dialog of the missing node types [loadGraphData] ends with, if any.
    When [configure] throws the load is given up, and a throw in the loop
    over the configured nodes leaves the function; otherwise [if
    (missingNodeTypes.length) this.showMissingNodesError(missingNodeTypes)]
    is reached with the array the extensions and the loop over the nodes of
    the document have filled. *)
Definition load_dialog (graphData : Load.GraphData) : option Dialog :=
  let '(graphData, missingNodeTypes) := beforeConfigureGraph graphData in
  let '(ns, missingNodeTypes) := load_nodes (Load.nodes graphData) missingNodeTypes in
  match configure {| Load.nodes := ns |} with
  | Returns g =>
      match after_configure g with
      | Returns _ =>
          match missingNodeTypes with
          | [] => None
          | _ => Some (showMissingNodesError missingNodeTypes true)
          end
      | Throws _ => None
      end
  | Throws _ => None
  end.

(** [loadApiJson(apiData)] up to its first [return]: [apiData] is given by
    its entries in the order of [Object.values], each a step as the
    compiler writes them. When a class is not registered the dialog is
    shown, without the closing remark, and nothing is loaded. *)
Definition loadApiJson_refusal (apiData : list (string * Compiler.WorkflowStep))
  : option Dialog :=
  match filter (fun n => registered_node_types (Compiler.class_type n) = false) apiData.*2 with
  | [] => None
  | missingNodeTypes =>
      Some (showMissingNodesError
              ((fun t => TypeName (Compiler.class_type t)) <$> missingNodeTypes) false)
  end.

End WithLoader.

End Missing.

(** ** Updates from the backend *)

Module Updates.
Import Compiler.

(** A value of a node's output: an array of items or anything else; the
    items themselves are not looked into. *)
Inductive OutputValue :=
| Items (items : list string)
| Other (v : string).

Abbreviation Output := (gmap string OutputValue).

(** [v.concat(x)]: an array argument is spread, anything else is appended
    as one item. *)
Definition concat (v : list string) (x : OutputValue) : list string :=
  match x with
  | Items items => v ++ items
  | Other s => v ++ [s]
  end.

(** The [detail] of an [executed] event. *)
Record Executed := {
  node : string;
  output : option Output;
  merge : bool
}.

(** The part of the application the handlers of [executing], [executed],
    [execution_start] and [b_preview] work on; [progress] and
    [lastExecutionError], which they only reset, are left out. An entry of
    [nodeOutputs] may hold [undefined]. *)
Record App := {
  nodeOutputs : gmap string (option Output);
  nodePreviewImages : gmap string (list string);
  runningNodeId : option Z
}.

(** The body of [for (const k in detail.output ?? {})]. *)
Definition merge_key (detail_output : Output) (out : Output) (k : string) : Output :=
  match detail_output !! k with
  | Some x =>
      match out !! k with
      | Some (Items v) => <[k := Items (concat v x)]> out
      | _ => <[k := x]> out
      end
  | None => out
  end.

Definition merge_output (detail_output : Output) (out : Output) : Output :=
  foldl (merge_key detail_output) out (keys detail_output).

(** The handler of [executed], up to the call of [node.onExecuted]. *)
Definition executed (detail : Executed) (a : App) : App :=
  let stored :=
    match nodeOutputs a !! node detail with
    | Some (Some out) =>
        if merge detail
        then Some (merge_output (default ∅ (output detail)) out)
        else output detail
    | _ => output detail
    end in
  {| nodeOutputs := <[node detail := stored]> (nodeOutputs a);
     nodePreviewImages := nodePreviewImages a;
     runningNodeId := runningNodeId a |}.

(** What a key holds after a merge. *)
Definition merged (detail_output out : Output) (k : string) : option OutputValue :=
  match detail_output !! k with
  | Some x =>
      Some match out !! k with
           | Some (Items v) => Items (concat v x)
           | _ => x
           end
  | None => out !! k
  end.

Definition set_previews (p : gmap string (list string)) (a : App) : App :=
  {| nodeOutputs := nodeOutputs a; nodePreviewImages := p; runningNodeId := runningNodeId a |}.

(** The handler of [executing]; [detail] is the id of the node, or
    [null]. In [if (this.runningNodeId)] both [null] and [0] are falsy. *)
Definition executing (detail : option Z) (a : App) : App :=
  {| nodeOutputs := nodeOutputs a;
     nodePreviewImages :=
       match detail with
       | Some i => if Z.eqb i 0 then nodePreviewImages a
                   else delete (String_ i) (nodePreviewImages a)
       | None => nodePreviewImages a
       end;
     runningNodeId := detail |}.

(** The handler of [execution_start], up to the callbacks of the nodes. *)
Definition execution_start (a : App) : App :=
  {| nodeOutputs := nodeOutputs a; nodePreviewImages := nodePreviewImages a;
     runningNodeId := None |}.

(** The handler of [b_preview]; [blobUrl] is what [URL.createObjectURL]
    returns for the image received. *)
Definition b_preview (blobUrl : string) (a : App) : App :=
  match runningNodeId a with
  | None => a
  | Some i => set_previews (<[String_ i := [blobUrl]]> (nodePreviewImages a)) a
  end.

(** [clean()] *)
Definition clean (a : App) : App :=
  {| nodeOutputs := ∅; nodePreviewImages := ∅; runningNodeId := None |}.

(** What reaches the application. *)
Inductive Update :=
| Executing (detail : option Z)
| ExecutedNode (detail : Executed)
| ExecutionStart
| Preview (blobUrl : string)
| Clean.

Definition handle (a : App) (u : Update) : App :=
  match u with
  | Executing detail => executing detail a
  | ExecutedNode detail => executed detail a
  | ExecutionStart => execution_start a
  | Preview blobUrl => b_preview blobUrl a
  | Clean => clean a
  end.

(** The application as it is constructed. *)
Definition initial : App :=
  {| nodeOutputs := ∅; nodePreviewImages := ∅; runningNodeId := None |}.

(** The ids announced by the [executing] events among the updates. *)
Definition announced (us : list Update) : list Z :=
  us ≫= fun u => match u with Executing (Some i) => [i] | _ => [] end.

(** A preview is a single image filed under an announced node. *)
Definition single_preview (us : list Update) (k : string) (urls : list string) : Prop :=
  length urls = 1%nat ∧ ∃ i, i ∈ announced us ∧ k = String_ i.

(** What the previews satisfy at any time. *)
Definition previews_ok (us : list Update) (a : App) : Prop :=
  (∀ i, runningNodeId a = Some i → i ∈ announced us) ∧
  map_Forall (single_preview us) (nodePreviewImages a).

End Updates.

(** ** Dragging the menu ([dragElement] of [uiContext.tsx]) *)

Module Menu.

(** What the handlers read from the document: the client size of the body
    and of the menu, and the offset of the menu. Lengths are kept to the
    integers (pixels). *)
Record Geometry := {
  body_clientWidth : Z;
  body_clientHeight : Z;
  clientWidth : Z;
  clientHeight : Z;
  offsetLeft : Z;
  offsetTop : Z
}.

(** The style the handlers write; [None] stands for ['unset']. *)
Record Style := {
  left : option Z;
  right : option Z;
  top : Z
}.

(** The variables of [dragElement] the handlers share, and whether the
    menu carries the class [comfy-menu-manual-pos]. *)
Record Drag := {
  posStartX : Z;
  posStartY : Z;
  newPosX : Z;
  newPosY : Z;
  manual_pos : bool
}.

(** [positionElement()]: the menu is anchored to the right edge when its
    centre, [newPosX + clientWidth / 2], is beyond half the width of the
    body; both sides of the comparison are doubled here. The position
    saved in the local storage when [savePos] is set is left out. *)
Definition positionElement (geo : Geometry) (d : Drag) : Style :=
  if body_clientWidth geo <? 2 * newPosX d + clientWidth geo then
    {| left := None;
       right := Some (body_clientWidth geo - newPosX d - clientWidth geo);
       top := newPosY d |}
  else
    {| left := Some (newPosX d); right := None; top := newPosY d |}.

(** [elementDrag(e)]: the variables afterwards and the style written. *)
Definition elementDrag (clientX clientY : Z) (geo : Geometry) (d : Drag) : Drag * Style :=
  let posDiffX := clientX - posStartX d in
  let posDiffY := clientY - posStartY d in
  let d := {| posStartX := clientX; posStartY := clientY;
              newPosX := Z.min (body_clientWidth geo - clientWidth geo)
                           (Z.max 0 (offsetLeft geo + posDiffX));
              newPosY := Z.min (body_clientHeight geo - clientHeight geo)
                           (Z.max 0 (offsetTop geo + posDiffY));
              manual_pos := true |} in
  (d, positionElement geo d).

(** [ensureInBounds()]: nothing is written unless the menu has been moved
    by hand. *)
Definition ensureInBounds (geo : Geometry) (d : Drag) : Drag * option Style :=
  if manual_pos d then
    let d := {| posStartX := posStartX d; posStartY := posStartY d;
                newPosX := Z.min (body_clientWidth geo - clientWidth geo)
                             (Z.max 0 (offsetLeft geo));
                newPosY := Z.min (body_clientHeight geo - clientHeight geo)
                             (Z.max 0 (offsetTop geo));
                manual_pos := true |} in
    (d, Some (positionElement geo d))
  else (d, None).

(** The menu fits in the body. *)
Definition fits (geo : Geometry) : Prop :=
  0 ≤ clientWidth geo ≤ body_clientWidth geo ∧ 0 ≤ clientHeight geo ≤ body_clientHeight geo.

(** The distance of the left edge of the menu from that of the body that
    a style asks for. *)
Definition left_edge (geo : Geometry) (s : Style) : option Z :=
  match left s, right s with
  | Some x, _ => Some x
  | None, Some r => Some (body_clientWidth geo - r - clientWidth geo)
  | None, None => None
  end.

(** The style keeps the menu inside the body. *)
Definition inside (geo : Geometry) (s : Style) : Prop :=
  (∃ x, left_edge geo s = Some x ∧ 0 ≤ x ∧ x + clientWidth geo ≤ body_clientWidth geo) ∧
  0 ≤ top s ∧ top s + clientHeight geo ≤ body_clientHeight geo.

End Menu.

(** ** Pasting templates *)

Module Templates.

Record Template := {
  data : option string
}.

(** [templateData.templates]; an entry of the array may be [null]. *)
Record TemplateData := {
  templates : option (list (option Template))
}.

(** Of a selected node the loop reads [pos[1]] and [size[1]]; lengths are
    kept to the integers. *)
Record SelectedNode := {
  pos_y : Z;
  size_y : Z
}.

Record Canvas := {
  selected_nodes : list SelectedNode;
  graph_mouse_y : Z
}.

(** The item [litegrapheditor_clipboard] of the local storage, [None] when
    there is none, and the canvas of the application, if any. *)
Record Page := {
  clipboard : option string;
  canvas : option Canvas
}.

Definition set_clipboard (s : option string) (p : Page) : Page :=
  {| clipboard := s; canvas := canvas p |}.

(** [String(old)] of what [getItem] returned. *)
Definition String_of (old : option string) : string :=
  match old with
  | Some s => s
  | None => "null"
  end.

(** [template?.data] when it is truthy. *)
Definition data_of (template : option Template) : option string :=
  match template ≫= data with
  | Some s => if String.eqb s EmptyString then None else Some s
  | None => None
  end.

(** The body of [for (const i in this.canvas?.selected_nodes)]; [None]
    stands for [maxY === false]. *)
Definition lower (maxY : option Z) (node : SelectedNode) : option Z :=
  let nodeBottom := pos_y node + size_y node in
  match maxY with
  | None => Some nodeBottom
  | Some m => if m <? nodeBottom then Some nodeBottom else Some m
  end.

Section WithCanvas.

(** [canvas.pasteFromClipboard()] of the graph library: the canvas after
    the nodes held by the clipboard have been pasted and selected. *)
Variable pasteFromClipboard : string → Canvas → Canvas.

(** The body of [for (const template of templateData.templates)] for a
    template that has data. *)
Definition paste_template (data : string) (p : Page) : Page :=
  {| clipboard := Some data;
     canvas :=
       match canvas p with
       | Some c =>
           let c := pasteFromClipboard data c in
           Some match foldl lower None (selected_nodes c) with
                | Some maxY =>
                    {| selected_nodes := selected_nodes c; graph_mouse_y := maxY + 50 |}
                | None => c
                end
       | None => None
       end |}.

Definition paste_templates (ts : list (option Template)) (p : Page) : Page :=
  foldl (fun p template =>
           match data_of template with
           | Some data => paste_template data p
           | None => p
           end) p ts.

(** [loadTemplateData(templateData)] *)
Definition loadTemplateData (templateData : option TemplateData) (p : Page) : Page :=
  match templateData ≫= templates with
  | None => p
  | Some ts =>
      let old := clipboard p in
      set_clipboard (Some (String_of old)) (paste_templates ts p)
  end.

End WithCanvas.

(** The bottom of a node. *)
Definition bottom (node : SelectedNode) : Z := pos_y node + size_y node.

End Templates.


(** ** Compiling again *)

Module Twice.
Import Compiler Compiled.

(** What a compilation reads besides the graph: the answers of the
    callbacks and of the setting at the time it runs. The callbacks are
    closures: two compilations of one graph need not get the same
    answers. *)
Record Answers := {
  run_hook : HookId → Graph → Graph;
  serialize_hook : HookId → Graph → NodeData → nat → WidgetValue;
  updateLink_hook : HookId → LLink → option LLink;
  computeExecutionOrder : Graph → list Z;
  devMode : bool
}.

Definition compile (a : Answers) (fuel : nat) (g : Graph) : Graph * Outcome Prompt :=
  graphToPrompt (run_hook a) (serialize_hook a) (updateLink_hook a)
    (computeExecutionOrder a) (devMode a) fuel g.

(** The graph when [getInnerNodes] answers [inner] for its nodes: the
    nodes and links are the same, the inner nodes those of the answer. *)
Definition answering (inner : Node → option (list NodeData)) (g : Graph) : Graph :=
  {| nodes := (fun n : Node => {| self := self n; getInnerNodes := inner n |}) <$> nodes g;
     links := links g |}.

(** The calls [widget.serializeValue(node, i)] made for the widgets [ws] of
    [node], from index [i]: the callback, the node and the index. *)
Fixpoint widget_calls (node : NodeData) (i : nat) (ws : list Widget)
  : list (HookId * NodeData * nat) :=
  match ws with
  | [] => []
  | w :: rest =>
      (if serialize w
       then match serializeValue w with
            | Some h => [(h, node, i)]
            | None => []
            end
       else [])
      ++ widget_calls node (S i) rest
  end.

(** The call [parent.updateLink(link)] made for the slot [s] at index [i]
    of [node], if any: the callback and the link the loop has found. *)
Definition link_call (fuel : nat) (g : Graph) (node : NodeData) (i : nat) (s : InputSlot)
  : list (HookId * LLink) :=
  match getInputNode g node i with
  | Some parent =>
      match bypass_loop fuel g (slot_type s) (Some (self parent)) (getInputLink g node i) with
      | Done (Some p, Some l) =>
          match updateLink p with
          | Some h => [(h, l)]
          | None => []
          end
      | _ => []
      end
  | None => []
  end.

Fixpoint link_calls (fuel : nat) (g : Graph) (node : NodeData) (i : nat) (ss : list InputSlot)
  : list (HookId * LLink) :=
  match ss with
  | [] => []
  | s :: rest => link_call fuel g node i s ++ link_calls fuel g node (S i) rest
  end.

(** The nodes the second pass builds a step for, along [order]. *)
Definition built (g : Graph) (order : list Z) : list NodeData :=
  filter (fun node => compiled node = true) (visited g order).

(** The answers of the second compilation agree with those of the first on
    the calls made for [node]: those of [serializeValue] for its widgets
    and those of [updateLink] for its input slots. *)
Definition agree_on (first again : Answers) (inner : Node → option (list NodeData))
    (fuel : nat) (g : Graph) (node : NodeData) : Prop :=
  (∀ h j, (h, node, j) ∈ widget_calls node 0 (widgets node) →
     serialize_hook again h (answering inner g) node j = serialize_hook first h g node j) ∧
  (∀ h l, (h, l) ∈ link_calls fuel g node 0 (inputs node) →
     updateLink_hook again h l = updateLink_hook first h l).

(** The second compilation gets the answers of the first: the execution
    order is the same, [getInnerNodes] answers the same for the nodes of
    that order, [serializeValue] and [updateLink] answer the same on the
    calls made for the nodes a step is built for, and the setting is the
    same. *)
Definition same_answers (first again : Answers) (inner : Node → option (list NodeData))
    (fuel : nat) (g : Graph) : Prop :=
  let order := computeExecutionOrder first g in
  computeExecutionOrder again (answering inner g) = order ∧
  (∀ i n, i ∈ order → getNodeById g i = Some n → inner n = getInnerNodes n) ∧
  (∀ node, node ∈ built g order → agree_on first again inner fuel g node) ∧
  devMode again = devMode first.

(** The steps of a result. *)
Definition steps (r : Outcome Prompt) : Outcome (gmap string WorkflowStep) :=
  match r with
  | Done p => Done (output p)
  | TypeError => TypeError
  | OutOfFuel => OutOfFuel
  end.

End Twice.

(** ** More sample inputs *)

Module Cases.

(** A document of current spellings, loaded where every type is registered. *)
Definition all_registered (_ : string) : bool := true.

Definition settled_document : Load.GraphData :=
  {| Load.nodes := [ {| Load.sn_id := 1; Load.type := "KSampler" |};
                     {| Load.sn_id := 2; Load.type := "SaveImage" |} ] |}.

(** The dialog that ends the load of [Samples.legacy_document] where no
    type is registered. *)
Definition none_registered (_ : string) : bool := false.

Definition legacy_dialog : Missing.Dialog :=
  Missing.showMissingNodesError
    (Missing.TypeName <$> ["ConditioningAverage"; "ControlNetLoader";
                           "SVD_img2vid_Conditioning"]) true.

(** An extension that reports, in [beforeConfigureGraph], a group node the
    document relies on, and leaves the document as it is. *)
Definition missing_group : Missing.MissingType :=
  Missing.Described 0 "workflow/upscale" (Some "Part of a group node") None.

Definition report_group (graphData : Load.GraphData)
  : Load.GraphData * list Missing.MissingType :=
  (graphData, [missing_group]).

(** The dialog that ends the load of [settled_document], every type of
    which is registered, with that extension. *)
Definition group_dialog : Missing.Dialog :=
  Missing.showMissingNodesError [missing_group] true.

(** A loader whose widget has a [serializeValue] callback, a muted copy of
    it with a callback of its own, and a node that reads the loader. *)
Definition upload (h : Compiler.HookId) : Compiler.Widget :=
  {| Compiler.w_name := "image"; Compiler.value := Compiler.WString "a.png";
     Compiler.serialize := true; Compiler.serializeValue := Some h;
     Compiler.beforeQueued := None; Compiler.afterQueued := None |}.

Definition hooked_graph : Compiler.Graph :=
  {| Compiler.nodes :=
       [ Samples.node 1 0 false "LoadImage" [] [upload 0%nat];
         Samples.node 2 2 false "LoadImage" [] [upload 1%nat];
         Samples.node 3 0 false "SaveImage" [Samples.slot "images" "IMAGE" (Some 50)] [] ];
     Compiler.links := {[ 50 := Samples.edge 50 1 0 3 0 ]} |}.

(** The answers at a first compilation, and at a later one: the callback
    of the muted loader, which no compilation calls, answers something
    else by then, and so do [updateLink] and the callbacks of the first
    pass, which this graph has no use for. *)
Definition first_answers : Twice.Answers :=
  {| Twice.run_hook := Samples.idle_hook;
     Twice.serialize_hook := fun _ _ _ _ => Compiler.WString "uploads/a.png";
     Twice.updateLink_hook := Samples.no_updateLink;
     Twice.computeExecutionOrder := Samples.store_order;
     Twice.devMode := false |}.

Definition later_answers : Twice.Answers :=
  {| Twice.run_hook := Samples.advance_seed;
     Twice.serialize_hook :=
       fun h _ _ _ => match h with
                      | O => Compiler.WString "uploads/a.png"
                      | S _ => Compiler.WString "uploads/b.png"
                      end;
     Twice.updateLink_hook := fun _ _ => None;
     Twice.computeExecutionOrder := Samples.store_order;
     Twice.devMode := false |}.

(** No node expands to inner nodes. *)
Definition no_inner (_ : Compiler.Node) : option (list Compiler.NodeData) := None.

(** Three extensions; the third has no method, the call of the second
    throws, and every call counts itself in the world. *)
Definition extension (n : string) (t : nat) : Extensions.ComfyExtension :=
  {| Extensions.name := Some n; Extensions.tag := t |}.

Definition three_extensions : Invoke.App nat :=
  {| Invoke.extensions := [extension "a" 0; extension "b" 1; extension "c" 2];
     Invoke.world := 0%nat |}.

Definition two_of_three (ext : Extensions.ComfyExtension) (_ : string) : bool :=
  negb (Nat.eqb (Extensions.tag ext) 2).

Definition counting_call (ext : Extensions.ComfyExtension) (_ : string) (_ : unit)
    (a : Invoke.App nat) : Completion nat * Invoke.App nat :=
  (if Nat.eqb (Extensions.tag ext) 1 then Throws "failed" else Returns (Invoke.world a),
   {| Invoke.extensions := Invoke.extensions a; Invoke.world := S (Invoke.world a) |}).

(** Node 3 of [Samples.pruned_graph] and the step built for it, before
    the cleanup pass. *)
Definition sampler : Compiler.NodeData :=
  Compiler.self
    (Samples.node 3 0 false "KSampler"
       [Samples.slot "a" "IMAGE" (Some 10); Samples.slot "b" "IMAGE" (Some 11)]
       [Samples.widget "seed" (Compiler.WNumber 7) None None]).

Definition sampler_step : Compiler.WorkflowStep :=
  match Compiler.node_data Samples.no_serialize Samples.no_updateLink false 5
          Samples.pruned_graph sampler with
  | Compiler.Done step => step
  | _ => {| Compiler.class_type := EmptyString; Compiler.step_inputs := ∅;
            Compiler._meta := None |}
  end.

(** A sampler whose widgets hold values of an older backend. *)
Definition old_sampler : Configured.Node :=
  {| Configured.node_type := "KSampler";
     Configured.size := (210, 80);
     Configured.computeSize := (200, 120);
     Configured.widgets :=
       Some [ {| Configured.name := "sampler_name"; Configured.type := "combo";
                 Configured.value := Some (Compiler.WString "sample_euler");
                 Configured.options_values :=
                   Some [Compiler.WString "euler"; Compiler.WString "ddim"] |};
              {| Configured.name := "control_after_generate"; Configured.type := "combo";
                 Configured.value := Some (Compiler.WBool true);
                 Configured.options_values :=
                   Some [Compiler.WString "fixed"; Compiler.WString "randomize"] |};
              {| Configured.name := "scheduler"; Configured.type := "combo";
                 Configured.value := Some (Compiler.WString "gone");
                 Configured.options_values :=
                   Some [Compiler.WString "normal"; Compiler.WString "karras"] |} ] |}.

(** Node 9 has shown one image; the backend sends a second one to be
    merged, then a third. *)
Definition one_image : Updates.App :=
  {| Updates.nodeOutputs := {[ "9" := Some {[ "images" := Updates.Items ["a.png"] ]} ]};
     Updates.nodePreviewImages := ∅;
     Updates.runningNodeId := None |}.

Definition another_image (file : string) : Updates.Executed :=
  {| Updates.node := "9";
     Updates.output := Some {[ "images" := Updates.Items [file] ]};
     Updates.merge := true |}.

(** A menu of 200 by 400 in a body of 1000 by 800, at (900, 700). *)
Definition window : Menu.Geometry :=
  {| Menu.body_clientWidth := 1000; Menu.body_clientHeight := 800;
     Menu.clientWidth := 200; Menu.clientHeight := 400;
     Menu.offsetLeft := 900; Menu.offsetTop := 700 |}.

Definition at_rest : Menu.Drag :=
  {| Menu.posStartX := 0; Menu.posStartY := 0; Menu.newPosX := 0; Menu.newPosY := 0;
     Menu.manual_pos := false |}.

(** A page with no clipboard item and an empty canvas; a paste puts one
    node of height 100 at the pointer and selects it. *)
Definition empty_page : Templates.Page :=
  {| Templates.clipboard := None;
     Templates.canvas := Some {| Templates.selected_nodes := [];
                                 Templates.graph_mouse_y := 0 |} |}.

Definition paste_at_pointer (_ : string) (c : Templates.Canvas) : Templates.Canvas :=
  {| Templates.selected_nodes :=
       [{| Templates.pos_y := Templates.graph_mouse_y c; Templates.size_y := 100 |}];
     Templates.graph_mouse_y := Templates.graph_mouse_y c |}.

Definition template (data : string) : option Templates.Template :=
  Some {| Templates.data := Some data |}.

(** A template with data and an entry that is [null]. *)
Definition two_templates : list (option Templates.Template) := [template "A"; None].

(** The canvas after the first of them has been pasted. *)
Definition after_first : Templates.Canvas :=
  {| Templates.selected_nodes := [{| Templates.pos_y := 0; Templates.size_y := 100 |}];
     Templates.graph_mouse_y := 150 |}.

End Cases.


(** * Properties of [registerExtension] *)

Section ExtensionFacts.
Import Extensions.

Lemma find_named_None extension extensions :
  find_named extension extensions = None ↔ ¬ registered (name extension) extensions.
Proof.
  unfold find_named, registered. split.
  - intros Hnone (ext & Hin & Hname).
    apply list_elem_of_In in Hin.
    pose proof (find_none _ _ Hnone ext Hin) as Hf.
    unfold same_name in Hf. by rewrite bool_decide_eq_false in Hf.
  - intros Hno. destruct (List.find _ _) as [ext|] eqn:Hf; [|done].
    apply find_some in Hf as [Hin Hsame]. exfalso. apply Hno. exists ext.
    split; [by apply list_elem_of_In|].
    unfold same_name in Hsame. by apply bool_decide_eq_true in Hsame.
Qed.

(** C10, as the claim states it, fails: an extension whose name is the
    empty string has a name property and clashes with no registered
    extension, yet the call throws and nothing is appended. *)
Lemma registerExtension_empty_name :
  let extension := {| name := Some ""; tag := 0 |} in
  name extension ≠ None ∧
  ¬ registered (name extension) [] ∧
  registerExtension extension [] = (Throws "Extensions must have a 'name' property.", []).
Proof.
  cbv zeta. split; [done|]. split; [|reflexivity].
  intros (ext & Hin & _). by apply elem_of_nil in Hin.
Qed.

(** C10, amended: [registerExtension] throws, leaving the list of
    extensions as it was, when the extension's name is missing or empty and
    when an extension of the same name is registered; in every other case
    it returns and the extension is appended to the list. *)
Theorem registerExtension_spec extension extensions :
  ((name_falsy (name extension) = true ∨ registered (name extension) extensions) ∧
   throws (registerExtension extension extensions).1 ∧
   (registerExtension extension extensions).2 = extensions)
  ∨
  (name_falsy (name extension) = false ∧ ¬ registered (name extension) extensions ∧
   registerExtension extension extensions = (Returns tt, extensions ++ [extension])).
Proof.
  unfold registerExtension.
  destruct (name_falsy (name extension)) eqn:Hfalsy.
  - left. simpl. auto.
  - destruct (find_named extension extensions) as [ext|] eqn:Hfind.
    + left. simpl. split_and!; [|done|done]. right.
      apply find_some in Hfind as [Hin Hsame]. exists ext.
      split; [by apply list_elem_of_In|].
      unfold same_name in Hsame. by apply bool_decide_eq_true in Hsame.
    + right. apply find_named_None in Hfind. done.
Qed.

End ExtensionFacts.

(** * Properties of [loadGraphData] *)

Section LoadFacts.
Import Load.

Variable registered_node_types : string → bool.

Lemma load_nodes_lookup ns missing k :
  (load_nodes registered_node_types ns missing).1 !! k
  = (fun n => (load_node registered_node_types n).1) <$> ns !! k.
Proof.
  revert missing k. induction ns as [|n ns IH]; intros missing k; [by destruct k|].
  simpl. destruct (load_node registered_node_types n) as [n' pushed] eqn:Hn.
  specialize (IH (missing ++ pushed)).
  destruct (load_nodes registered_node_types ns (missing ++ pushed)) as [rest' m'].
  destruct k as [|k]; simpl; [by rewrite Hn|]. apply IH.
Qed.

Lemma load_node_id n : sn_id (load_node registered_node_types n).1 = sn_id n.
Proof.
  unfold load_node, patch_type.
  repeat (match goal with |- context [if ?b then _ else _] => destruct b end; simpl);
    reflexivity.
Qed.

Ltac legacy_type :=
  let ty := fresh "ty" in
  intros [? ty]; simpl; intros ->; unfold load_node;
  match goal with |- context [registered_node_types ?s] =>
    destruct (registered_node_types s)
  end; vm_compute; reflexivity.

Lemma load_node_T2IAdapterLoader n :
  type n = "T2IAdapterLoader" →
  type (load_node registered_node_types n).1 = "ControlNetLoader".
Proof. revert n. legacy_type. Qed.

Lemma load_node_ConditioningAverage n :
  type n = "ConditioningAverage " →
  type (load_node registered_node_types n).1 = "ConditioningAverage".
Proof. revert n. legacy_type. Qed.

Lemma load_node_SDV_img2vid n :
  type n = "SDV_img2vid_Conditioning" →
  type (load_node registered_node_types n).1 = "SVD_img2vid_Conditioning".
Proof. revert n. legacy_type. Qed.

Variable Graph : Type.
Variable configure : GraphData → Completion Graph.

(** C9: every node of the loaded document that carries a legacy spelling
    has the current spelling in the normalized document, at the same place
    and with the same id, and it is the normalized document that
    [loadGraphData] hands to [configure]. *)
Theorem loadGraphData_normalizes graphData k n :
  nodes graphData !! k = Some n →
  ∃ n', nodes (normalize registered_node_types graphData).1 !! k = Some n' ∧
        sn_id n' = sn_id n ∧
        (type n = "ConditioningAverage " → type n' = "ConditioningAverage") ∧
        (type n = "T2IAdapterLoader" → type n' = "ControlNetLoader") ∧
        (type n = "SDV_img2vid_Conditioning" → type n' = "SVD_img2vid_Conditioning") ∧
        (loadGraphData registered_node_types Graph configure graphData).1
        = match configure (normalize registered_node_types graphData).1 with
          | Returns g => Some g
          | Throws _ => None
          end.
Proof.
  intros Hk. exists (load_node registered_node_types n).1.
  assert (nodes (normalize registered_node_types graphData).1 !! k
          = Some (load_node registered_node_types n).1) as Hlook.
  { unfold normalize.
    pose proof (load_nodes_lookup (nodes graphData) [] k) as H.
    destruct (load_nodes registered_node_types (nodes graphData) []) as [ns m].
    simpl in *. by rewrite H, Hk. }
  split; [exact Hlook|]. split; [apply load_node_id|].
  split_and!.
  - apply load_node_ConditioningAverage.
  - apply load_node_T2IAdapterLoader.
  - apply load_node_SDV_img2vid.
  - unfold loadGraphData.
    destruct (normalize registered_node_types graphData) as [d m]. simpl.
    by destruct (configure d).
Qed.

End LoadFacts.

Lemma loadGraphData_normalizes_witness :
  ∃ n', Load.nodes (Load.normalize (fun _ => false) Samples.legacy_document).1 !! 0%nat
        = Some n' ∧
        Load.sn_id n' = Load.sn_id Samples.legacy_node ∧
        (Load.type Samples.legacy_node = "ConditioningAverage " →
         Load.type n' = "ConditioningAverage") ∧
        (Load.type Samples.legacy_node = "T2IAdapterLoader" →
         Load.type n' = "ControlNetLoader") ∧
        (Load.type Samples.legacy_node = "SDV_img2vid_Conditioning" →
         Load.type n' = "SVD_img2vid_Conditioning") ∧
        (Load.loadGraphData (fun _ => false) Load.GraphData Returns Samples.legacy_document).1
        = match Returns (Load.normalize (fun _ => false) Samples.legacy_document).1 with
          | Returns g => Some g
          | Throws _ => None
          end.
Proof.
  exact (loadGraphData_normalizes (fun _ => false) Load.GraphData Returns
           Samples.legacy_document 0%nat Samples.legacy_node eq_refl).
Defined.

(** * Properties of the cleanup pass *)

Section CleanupFacts.
Import Compiler.

Implicit Types output out : gmap string WorkflowStep.
Implicit Types inputs : gmap string InputValue.

Lemma elem_of_keys {A} (m : gmap string A) k : k ∈ keys m ↔ is_Some (m !! k).
Proof.
  unfold keys. rewrite list_elem_of_fmap. split.
  - intros ([k' v] & -> & Hin). apply elem_of_map_to_list in Hin. eauto.
  - intros [v Hv]. exists (k, v). split; [done|]. by apply elem_of_map_to_list.
Qed.

Lemma prune_inputs_inv output ks inputs0 :
  pruned_on output ks inputs0 (prune_inputs output ks inputs0).
Proof.
  unfold prune_inputs.
  induction ks as [|j ks IH] using rev_ind.
  - simpl. split_and!; [done|done|]. intros i k s Hin. by apply elem_of_nil in Hin.
  - rewrite foldl_app. simpl.
    set (inputs := foldl _ inputs0 ks) in *.
    destruct IH as (Hsub & Hkeep & Hrefs).
    destruct (inputs !! j) as [v|] eqn:Hj.
    + destruct (dangling output v) eqn:Hd.
      * split_and!.
        -- intros i w Hi. apply lookup_delete_Some in Hi as [_ Hi]. auto.
        -- intros i w Hi Hnd. destruct (decide (i = j)) as [->|Hne].
           ++ apply Hkeep in Hi; [|done]. congruence.
           ++ rewrite lookup_delete_ne; auto.
        -- intros i k s Hin Hi. apply lookup_delete_Some in Hi as [Hne Hi].
           apply elem_of_app in Hin as [Hin|Hin]; [eauto|].
           apply list_elem_of_singleton in Hin. congruence.
      * split_and!; [done|done|].
        intros i k s Hin Hi. apply elem_of_app in Hin as [Hin|Hin]; [eauto|].
        apply list_elem_of_singleton in Hin. subst i.
        rewrite Hj in Hi. injection Hi as ->. simpl in Hd.
        apply bool_decide_eq_false in Hd.
        by apply not_eq_None_Some.
    + split_and!; [done|done|].
      intros i k s Hin Hi. apply elem_of_app in Hin as [Hin|Hin]; [eauto|].
      apply list_elem_of_singleton in Hin. congruence.
Qed.

Lemma prune_step_sound output step i k s :
  step_inputs (prune_step output step) !! i = Some (Reference k s) →
  is_Some (output !! k).
Proof.
  simpl. intros Hi.
  destruct (prune_inputs_inv output (keys (step_inputs step)) (step_inputs step))
    as (Hsub & _ & Hrefs).
  eapply Hrefs; [|exact Hi]. apply elem_of_keys. apply Hsub in Hi. eauto.
Qed.

Lemma prune_step_keeps output step i v :
  step_inputs step !! i = Some v → dangling output v = false →
  step_inputs (prune_step output step) !! i = Some v.
Proof.
  simpl. intros Hi Hnd.
  destruct (prune_inputs_inv output (keys (step_inputs step)) (step_inputs step))
    as (_ & Hkeep & _). auto.
Qed.

(** Whether a pair dangles depends on the keys of the output only. *)
Lemma dangling_dom output output' v :
  dom output = dom output' → dangling output v = dangling output' v.
Proof.
  intros Hdom. destruct v as [|k s]; [done|]. simpl.
  apply bool_decide_ext. rewrite <- !not_elem_of_dom. by rewrite Hdom.
Qed.

Lemma cleanup_inv output0 ks :
  cleaned_on output0 ks
    (foldl (fun out o => alter (prune_step out) o out) output0 ks).
Proof.
  induction ks as [|j ks IH] using rev_ind.
  - split_and!; [done| |].
    + intros o step i k s Hin. by apply elem_of_nil in Hin.
    + intros o step Ho. exists step. by split_and!.
  - rewrite foldl_app. simpl. set (out := foldl _ output0 ks) in *.
    destruct IH as (Hdom & Hrefs & Hkeeps). split_and!.
    + by rewrite dom_alter_L.
    + intros o step i k s Hin Ho Hi.
      destruct (decide (o = j)) as [->|Hne].
      * rewrite lookup_alter_eq in Ho.
        destruct (out !! j) as [step0|]; [|done]. injection Ho as <-.
        apply prune_step_sound in Hi.
        apply elem_of_dom. rewrite <- Hdom. by apply elem_of_dom.
      * rewrite lookup_alter_ne in Ho by done.
        apply elem_of_app in Hin as [Hin|Hin]; [eauto|].
        apply list_elem_of_singleton in Hin. congruence.
    + intros o step Ho.
      destruct (Hkeeps o step Ho) as (step' & Ho' & Hclass & Hmeta & Hkeep).
      destruct (decide (o = j)) as [->|Hne].
      * exists (prune_step out step'). rewrite lookup_alter_eq, Ho'.
        split_and!; [done|done|done|].
        intros i v Hi Hnd. apply prune_step_keeps; [by apply Hkeep|].
        by rewrite (dangling_dom out output0).
      * exists step'. by rewrite lookup_alter_ne.
Qed.

Lemma cleanup_dom output : dom (cleanup output) = dom output.
Proof. apply cleanup_inv. Qed.

(** After the cleanup every reference pair names a key of the output. *)
Lemma cleanup_self_contained output o step i k s :
  cleanup output !! o = Some step →
  step_inputs step !! i = Some (Reference k s) →
  is_Some (cleanup output !! k).
Proof.
  intros Ho Hi.
  destruct (cleanup_inv output (keys output)) as (Hdom & Hrefs & _).
  apply elem_of_dom. unfold cleanup. rewrite Hdom. apply elem_of_dom.
  eapply Hrefs; [|exact Ho|exact Hi].
  apply elem_of_keys. apply elem_of_dom. rewrite <- Hdom. apply elem_of_dom. eauto.
Qed.

(** The cleanup deletes nothing else: a step keeps its class and every
    entry that is a literal or a pair naming a key of the output. *)
Lemma cleanup_keeps output o step i v :
  output !! o = Some step →
  step_inputs step !! i = Some v →
  dangling output v = false →
  ∃ step', cleanup output !! o = Some step' ∧
           class_type step' = class_type step ∧
           step_inputs step' !! i = Some v.
Proof.
  intros Ho Hi Hnd.
  destruct (cleanup_inv output (keys output)) as (_ & _ & Hkeeps).
  destruct (Hkeeps o step Ho) as (step' & Ho' & Hclass & _ & Hkeep).
  exists step'. split_and!; [done|done|]. by apply Hkeep.
Qed.

Section WithCallbacks.

Variable run_hook : HookId → Graph → Graph.
Variable serialize_hook : HookId → Graph → NodeData → nat → WidgetValue.
Variable updateLink_hook : HookId → LLink → option LLink.
Variable computeExecutionOrder : Graph → list Z.
Variable devMode : bool.

(** C1: in every prompt that [graphToPrompt] returns, the origin id of
    every reference pair among the inputs of a step is a key of the same
    output. *)
Theorem graphToPrompt_self_contained fuel g p o step i k s :
  (graphToPrompt run_hook serialize_hook updateLink_hook computeExecutionOrder
     devMode fuel g).2 = Done p →
  output p !! o = Some step →
  step_inputs step !! i = Some (Reference k s) →
  is_Some (output p !! k).
Proof.
  unfold graphToPrompt. simpl.
  destruct (compile_outer _ _ _ _ _ _ _) as [out| |]; simpl; [|done|done].
  intros [= <-]. simpl. apply cleanup_self_contained.
Qed.

End WithCallbacks.

End CleanupFacts.

(** The sampler of [pruned_graph] keeps its reference to node 1; the one to
    the node that is never executed is gone. *)
Example pruned_graph_inputs :
  Samples.inputs_of Samples.pruned_prompt "3"
  = [("seed", Compiler.Literal (Compiler.WNumber 7)); ("a", Compiler.Reference "1" 0)].
Proof. vm_compute. reflexivity. Qed.

Lemma graphToPrompt_self_contained_witness :
  is_Some (Compiler.output Samples.pruned_prompt !! "1").
Proof.
  apply (graphToPrompt_self_contained Samples.idle_hook Samples.no_serialize
           Samples.no_updateLink Samples.store_order false 5 Samples.pruned_graph
           Samples.pruned_prompt "3" (Samples.step_of Samples.pruned_prompt "3") "a" "1" 0);
    vm_compute; reflexivity.
Defined.

(** * Properties of the bypass loop *)

Section BypassFacts.
Import Compiler.

Lemma getNodeById_in g i (n : Node) : getNodeById g i = Some n → n ∈ nodes g.
Proof.
  unfold getNodeById. intros H. apply find_some in H as [H _].
  by apply list_elem_of_In.
Qed.

Lemma getInputNode_in g (p : NodeData) j (n : Node) :
  getInputNode g p j = Some n → n ∈ nodes g.
Proof.
  unfold getInputNode. intros H.
  destruct (getInputLink g p j) as [l|]; simpl in H; [|done].
  by eapply getNodeById_in.
Qed.

Lemma getInputNode_range g (p : NodeData) j (n : Node) :
  getInputNode g p j = Some n → (j < length (inputs p))%nat.
Proof.
  unfold getInputNode, getInputLink. intros H.
  destruct (inputs p !! j) as [sl|] eqn:Hj; simpl in H; [|done].
  by eapply lookup_lt_Some.
Qed.

Lemma bypass_acyclic_spec g rank (n p' : Node) j :
  bypass_acyclic g rank = true → n ∈ nodes g → bypassed n = true →
  getInputNode g n j = Some p' → (rank (id p') < rank (id n))%nat.
Proof.
  unfold bypass_acyclic. rewrite forallb_forall. intros Hall Hn Hb Hj.
  apply list_elem_of_In in Hn. specialize (Hall n Hn). rewrite Hb in Hall.
  unfold ranked_inputs in Hall. rewrite forallb_forall in Hall.
  specialize (Hall j). rewrite Hj in Hall. apply Nat.ltb_lt, Hall.
  apply in_seq. pose proof (getInputNode_range _ _ _ _ Hj). lia.
Qed.

(** An iteration that goes on either moved to the origin of one of the
    producer's inputs, or lost the link, or lost the producer. *)
Lemma loop_body_found g ty (p : NodeData) link parent' link' :
  loop_body g ty p link = Done (true, parent', link') →
  (∃ j (n : Node), getInputNode g p j = Some n ∧ parent' = Some (self n) ∧ is_Some link')
  ∨ (parent' = Some p ∧ link' = None ∧ is_Some link)
  ∨ (parent' = None ∧ is_Some link).
Proof.
  unfold loop_body. intros H.
  destruct (isVirtualNode p).
  - destruct link as [l|]; [|done].
    destruct (getInputLink g p (origin_slot l)) as [l'|]; [|by inversion H].
    destruct (getInputNode g p (target_slot l')) as [n|] eqn:Hn; inversion H; subst.
    left. eauto.
  - destruct link as [l|]; [|by inversion H].
    destruct (mode p =? 4); [|by inversion H].
    destruct (List.find _ _) as [j|]; [|by inversion H].
    destruct (getInputLink g p j) as [l'|]; inversion H; subst.
    + destruct (getInputNode g p j) as [n|] eqn:Hn; simpl; [left; eauto|eauto].
    + right. left. eauto.
Qed.

(** The body of the loop has no loop of its own. *)
Lemma loop_body_returns g ty (p : NodeData) link :
  loop_body g ty p link ≠ OutOfFuel.
Proof.
  unfold loop_body.
  repeat match goal with
         | |- context [match ?x with _ => _ end] => destruct x
         end; discriminate.
Qed.

Lemma bypass_loop_bounded g rank ty :
  bypass_acyclic g rank = true →
  ∀ fuel (n : Node) (link : option LLink),
    n ∈ nodes g →
    (2 * rank (id n) + match link with Some _ => 2 | None => 1 end ≤ fuel)%nat →
    bypass_loop fuel g ty (Some (self n)) link ≠ OutOfFuel.
Proof.
  intros Hacyclic fuel. induction fuel as [|fuel IH]; intros n link Hn Hfuel.
  - destruct link; lia.
  - simpl. destruct (bypassed n) eqn:Hb; [|done].
    pose proof (loop_body_returns g ty n link) as Hret.
    destruct (loop_body g ty n link) as [[[found parent'] link']| |] eqn:Hbody;
      simpl; [|done|done].
    destruct found; [|done].
    apply loop_body_found in Hbody as [(j & n' & Hj & -> & Hl)|[(-> & -> & Hl)|(-> & Hl)]].
    + apply IH; [by eapply getInputNode_in|].
      pose proof (bypass_acyclic_spec _ _ _ _ _ Hacyclic Hn Hb Hj).
      destruct link, link'; lia.
    + apply IH; [done|]. destruct Hl as [l ->]. lia.
    + destruct Hl as [l ->]. destruct fuel; [lia|done].
Qed.

(** C7, amended: on a graph whose virtual and bypassed nodes are fed only
    from nodes of smaller rank (no bypass chain comes back to a node), the
    loop ends within twice the rank of the first producer plus two
    iterations. *)
Theorem bypass_loop_terminates g rank ty (n : Node) link fuel :
  bypass_acyclic g rank = true →
  n ∈ nodes g →
  (2 * rank (id n) + 2 ≤ fuel)%nat →
  bypass_loop fuel g ty (Some (self n)) link ≠ OutOfFuel.
Proof.
  intros Hacyclic Hn Hfuel. eapply bypass_loop_bounded; [done..|].
  destruct link; lia.
Qed.

(** With the loops bounded, the whole compilation ends: it returns or
    throws. *)
Section Returns.

Variable run_hook : HookId → Graph → Graph.
Variable serialize_hook : HookId → Graph → NodeData → nat → WidgetValue.
Variable updateLink_hook : HookId → LLink → option LLink.
Variable computeExecutionOrder : Graph → list Z.
Variable devMode : bool.

Variable g : Graph.
Variable rank : Z → nat.
Variable fuel : nat.
Hypothesis acyclic : bypass_acyclic g rank = true.
Hypothesis enough : ∀ n : Node, n ∈ nodes g → (2 * rank (id n) + 2 ≤ fuel)%nat.

Lemma bind_returns {A B} (m : Outcome A) (k : A → Outcome B) :
  m ≠ OutOfFuel → (∀ a, k a ≠ OutOfFuel) → bind m k ≠ OutOfFuel.
Proof. destruct m; simpl; auto. Qed.

Lemma resolve_input_returns node i s :
  resolve_input updateLink_hook fuel g node i s ≠ OutOfFuel.
Proof.
  unfold resolve_input.
  destruct (getInputNode g node i) as [parent|] eqn:Hparent; [|done].
  apply bind_returns; [|done].
  apply getInputNode_in in Hparent.
  apply (bypass_loop_bounded g rank); [done|done|].
  specialize (enough parent Hparent). destruct (getInputLink g node i); lia.
Qed.

Lemma store_links_returns node ss : ∀ i inputs,
  store_links updateLink_hook fuel g node i ss inputs ≠ OutOfFuel.
Proof.
  induction ss as [|s ss IH]; intros i inputs; [done|].
  simpl. apply bind_returns; [apply resolve_input_returns|]. intros r. apply IH.
Qed.

Lemma compile_inner_returns ns : ∀ output,
  compile_inner serialize_hook updateLink_hook devMode fuel g ns output ≠ OutOfFuel.
Proof.
  induction ns as [|node ns IH]; intros output; [done|].
  simpl. destruct (isVirtualNode node); [apply IH|].
  destruct (muted node); [apply IH|].
  apply bind_returns; [|intros step; apply IH].
  unfold node_data. apply bind_returns; [apply store_links_returns|done].
Qed.

Lemma compile_outer_returns order : ∀ output,
  compile_outer serialize_hook updateLink_hook devMode fuel g order output ≠ OutOfFuel.
Proof.
  induction order as [|i order IH]; intros output; [done|].
  simpl. destruct (getNodeById g i); [|apply IH].
  apply bind_returns; [apply compile_inner_returns|]. intros out. apply IH.
Qed.

End Returns.

Lemma graphToPrompt_returns run_hook serialize_hook updateLink_hook computeExecutionOrder
    devMode g rank fuel :
  bypass_acyclic (first_pass run_hook computeExecutionOrder g) rank = true →
  (∀ n : Node, n ∈ nodes (first_pass run_hook computeExecutionOrder g) →
               (2 * rank (id n) + 2 ≤ fuel)%nat) →
  (graphToPrompt run_hook serialize_hook updateLink_hook computeExecutionOrder
     devMode fuel g).2 ≠ OutOfFuel.
Proof.
  intros Hacyclic Henough. unfold graphToPrompt. cbn [snd].
  apply bind_returns; [|done]. by eapply compile_outer_returns.
Qed.

Lemma cyclic_step1 ty l :
  origin_slot l = 0%nat →
  loop_body Samples.cyclic_graph ty Samples.reroute1 (Some l)
  = Done (true, Some (self Samples.reroute2), Some (Samples.edge 31 2 0 1 0)).
Proof. unfold loop_body. intros ->. vm_compute. reflexivity. Qed.

Lemma cyclic_step2 ty l :
  origin_slot l = 0%nat →
  loop_body Samples.cyclic_graph ty Samples.reroute2 (Some l)
  = Done (true, Some (self Samples.reroute1), Some (Samples.edge 30 1 0 2 0)).
Proof. unfold loop_body. intros ->. vm_compute. reflexivity. Qed.

Lemma cyclic_loop ty fuel :
  ∀ l, origin_slot l = 0%nat →
    bypass_loop fuel Samples.cyclic_graph ty (Some (self Samples.reroute1)) (Some l)
    = OutOfFuel ∧
    bypass_loop fuel Samples.cyclic_graph ty (Some (self Samples.reroute2)) (Some l)
    = OutOfFuel.
Proof.
  induction fuel as [|fuel IH]; intros l Hl; [done|].
  split.
  - change (bypass_loop (S fuel) Samples.cyclic_graph ty (Some (self Samples.reroute1)) (Some l))
      with (do r <- loop_body Samples.cyclic_graph ty Samples.reroute1 (Some l);
            let '(found, parent', link') := r in
            if found then bypass_loop fuel Samples.cyclic_graph ty parent' link'
            else Done (parent', link')).
    rewrite cyclic_step1 by done. simpl. by apply IH.
  - change (bypass_loop (S fuel) Samples.cyclic_graph ty (Some (self Samples.reroute2)) (Some l))
      with (do r <- loop_body Samples.cyclic_graph ty Samples.reroute2 (Some l);
            let '(found, parent', link') := r in
            if found then bypass_loop fuel Samples.cyclic_graph ty parent' link'
            else Done (parent', link')).
    rewrite cyclic_step2 by done. simpl. by apply IH.
Qed.

(** C7, as the claim states it, fails: on two virtual nodes that feed each
    other the loop started from the input of node 3 never ends, whatever
    the number of iterations allowed. *)
Lemma bypass_loop_cycle_diverges :
  getInputNode Samples.cyclic_graph Samples.cyclic_reader 0 = Some Samples.reroute1 ∧
  getInputLink Samples.cyclic_graph Samples.cyclic_reader 0
  = Some (Samples.edge 32 1 0 3 0) ∧
  ∀ fuel,
    bypass_loop fuel Samples.cyclic_graph "IMAGE" (Some (self Samples.reroute1))
      (Some (Samples.edge 32 1 0 3 0)) = OutOfFuel.
Proof.
  split; [vm_compute; reflexivity|]. split; [vm_compute; reflexivity|].
  intros fuel. by apply cyclic_loop.
Qed.

End BypassFacts.

Lemma bypass_loop_terminates_witness :
  Compiler.bypass_loop 8 Samples.bypass_graph "IMAGE"
    (Some (Compiler.self Samples.reroute)) (Some (Samples.edge 22 3 0 4 0))
  ≠ Compiler.OutOfFuel.
Proof.
  apply (bypass_loop_terminates Samples.bypass_graph Z.to_nat "IMAGE" Samples.reroute
           (Some (Samples.edge 22 3 0 4 0)) 8).
  - vm_compute. reflexivity.
  - unfold Samples.bypass_graph. simpl. set_solver.
  - simpl. lia.
Defined.

Example bypass_graph_resolves :
  Compiler.bypass_loop 8 Samples.bypass_graph "IMAGE"
    (Some (Compiler.self Samples.reroute)) (Some (Samples.edge 22 3 0 4 0))
  = Compiler.Done (Some (Compiler.self Samples.loader), Some (Samples.edge 20 1 0 2 1)).
Proof. vm_compute. reflexivity. Qed.

(** * The loop of the source against the specification's resolver *)

Section ResolverFacts.
Import Compiler Resolver.

Lemma type_matches_has_type parent ty j :
  type_matches parent ty j = true ↔ has_type parent ty j.
Proof.
  unfold type_matches, has_type.
  destruct (inputs parent !! j) as [sl|]; simpl; [|done].
  rewrite String.eqb_eq. split; congruence.
Qed.

(** Scanning the indices in order finds the first input of the type. *)
Lemma find_indices ty (all ss : list InputSlot) k :
  drop k all = ss →
  List.find (fun j => match all !! j with
                      | Some sl => String.eqb (slot_type sl) ty
                      | None => false
                      end) (seq k (length ss))
  = (fun x => (k + x.1)%nat) <$> list_find (fun sl : InputSlot => slot_type sl = ty) ss.
Proof.
  revert k. induction ss as [|sl ss IH]; intros k Hdrop; [done|].
  assert (all !! k = Some sl) as Hk.
  { rewrite <- (Nat.add_0_r k), <- lookup_drop, Hdrop. done. }
  assert (drop (S k) all = ss) as Hdrop'.
  { replace (S k) with (k + 1)%nat by lia. rewrite <- drop_drop, Hdrop. done. }
  cbn [length seq List.find]. rewrite Hk.
  change (list_find (fun sl0 : InputSlot => slot_type sl0 = ty) (sl :: ss))
    with (if decide (slot_type sl = ty) then Some (0%nat, sl)
          else prod_map S Datatypes.id
                 <$> list_find (fun sl0 : InputSlot => slot_type sl0 = ty) ss).
  destruct (decide (slot_type sl = ty)) as [Heq|Hne].
  - apply String.eqb_eq in Heq. rewrite Heq. simpl. f_equal. lia.
  - apply String.eqb_neq in Hne. rewrite Hne. rewrite (IH (S k) Hdrop').
    destruct (list_find _ ss) as [[m x]|]; simpl; [|done]. f_equal. lia.
Qed.

Lemma find_all_inputs parent ty l :
  List.find (type_matches parent ty) (all_inputs parent l)
  = if decide (has_type parent ty (origin_slot l)) then Some (origin_slot l)
    else first_type_match parent ty.
Proof.
  unfold all_inputs. cbn [List.find].
  destruct (decide (has_type parent ty (origin_slot l))) as [Hty|Hty].
  - apply type_matches_has_type in Hty. by rewrite Hty.
  - destruct (type_matches parent ty (origin_slot l)) eqn:Hm.
    + by apply type_matches_has_type in Hm.
    + unfold type_matches at 1, first_type_match.
      rewrite (find_indices ty (inputs parent) (inputs parent) 0) by done.
      by destruct (list_find _ _) as [[m x]|].
Qed.

Lemma links_on_slots_spec g (n : Node) j l :
  links_on_slots g = true → n ∈ nodes g →
  getInputLink g n j = Some l → target_slot l = j.
Proof.
  unfold links_on_slots. rewrite forallb_forall. intros Hall Hn Hl.
  apply list_elem_of_In in Hn. specialize (Hall n Hn).
  rewrite forallb_forall in Hall. specialize (Hall j). rewrite Hl in Hall.
  apply Nat.eqb_eq, Hall, in_seq.
  unfold getInputLink in Hl.
  destruct (inputs n !! j) as [sl|] eqn:Hj; simpl in Hl; [|done].
  apply lookup_lt_Some in Hj. lia.
Qed.

Lemma bypassed_muted (parent : NodeData) :
  bypassed parent = true → isVirtualNode parent = false → (mode parent =? 4) = true.
Proof. unfold bypassed. intros H Hv. by rewrite Hv, orb_false_r in H. Qed.

(** One iteration of the source, where the specification skips a producer. *)
Lemma loop_body_skip g ty (n : Node) l j l' (parent' : Node) :
  links_on_slots g = true → n ∈ nodes g →
  bypassed n = true →
  skipped_through n ty l = Some j →
  getInputLink g n j = Some l' →
  getNodeById g (origin_id l') = Some parent' →
  loop_body g ty n (Some l) = Done (true, Some (self parent'), Some l').
Proof.
  intros Hslots Hn Hb Hskip Hl' Hp'.
  assert (getInputNode g n j = Some parent') as Hnode.
  { unfold getInputNode. rewrite Hl'. exact Hp'. }
  unfold loop_body, skipped_through in *.
  destruct (isVirtualNode n) eqn:Hv.
  - injection Hskip as <-. rewrite Hl'.
    rewrite (links_on_slots_spec _ _ _ _ Hslots Hn Hl'). by rewrite Hnode.
  - rewrite (bypassed_muted _ Hb Hv), find_all_inputs, Hskip, Hl', Hnode. done.
Qed.

Lemma bypass_loop_resolves g ty (parent : NodeData) l r :
  links_on_slots g = true →
  resolves g ty parent l r →
  (∃ n : Node, n ∈ nodes g ∧ self n = parent) →
  ∃ fuel0, ∀ fuel, (fuel0 ≤ fuel)%nat →
    bypass_loop fuel g ty (Some parent) (Some l) = Done r.
Proof.
  intros Hslots Hres.
  induction Hres as [parent l Hb|parent l j l' parent' r Hb Hskip Hl' Hp' Hres IH
                    |parent l Hb Hskip|parent l j Hb Hskip Hl'];
    intros (n & Hn & <-).
  - exists 1%nat. intros [|fuel] Hfuel; [lia|]. simpl. by rewrite Hb.
  - destruct IH as [fuel0 IH]; [by eauto using getNodeById_in|].
    exists (S fuel0). intros [|fuel] Hfuel; [lia|].
    cbn [bypass_loop]. rewrite Hb.
    rewrite (loop_body_skip _ _ _ _ _ _ _ Hslots Hn Hb Hskip Hl' Hp').
    simpl. apply IH. lia.
  - exists 1%nat. intros [|fuel] Hfuel; [lia|]. cbn [bypass_loop]. rewrite Hb.
    unfold loop_body, skipped_through in *.
    destruct (isVirtualNode n) eqn:Hv; [done|].
    by rewrite (bypassed_muted _ Hb Hv), find_all_inputs, Hskip.
  - unfold skipped_through in Hskip.
    destruct (isVirtualNode n) eqn:Hv.
    + injection Hskip as <-.
      exists 1%nat. intros [|fuel] Hfuel; [lia|]. cbn [bypass_loop]. rewrite Hb.
      unfold loop_body. by rewrite Hv, Hl'.
    + exists 2%nat. intros [|[|fuel]] Hfuel; [lia|lia|]. cbn [bypass_loop]. rewrite Hb.
      unfold loop_body at 1.
      rewrite Hv, (bypassed_muted _ Hb Hv), find_all_inputs, Hskip, Hl'.
      simpl. rewrite Hb. unfold loop_body. by rewrite Hv.
Qed.

Variable updateLink_hook : HookId → LLink → option LLink.

(** C5, amended: when the specification's resolver takes the direct link
    of an input, through the virtual and bypassed producers, to a
    producer and link [r], the loop of the source, given enough
    iterations, leaves that producer and link behind, and the pair
    recorded for the input is the one of that link (a missing link
    records nothing). *)
Theorem resolve_input_resolves g (node : NodeData) i s (parent : Node) l r :
  links_on_slots g = true →
  getInputNode g node i = Some parent →
  getInputLink g node i = Some l →
  resolves g (slot_type s) parent l r →
  ∃ fuel0, ∀ fuel, (fuel0 ≤ fuel)%nat →
    resolve_input updateLink_hook fuel g node i s
    = Done (final_link updateLink_hook r.1 r.2).
Proof.
  intros Hslots Hparent Hl Hres.
  destruct (bypass_loop_resolves g (slot_type s) parent l r Hslots Hres) as [fuel0 Hloop].
  { exists parent. split; [by eapply getInputNode_in|done]. }
  exists fuel0. intros fuel Hfuel. unfold resolve_input.
  rewrite Hparent, Hl, (Hloop fuel Hfuel). done.
Qed.

End ResolverFacts.

(** In [bypass_graph] the specification resolves the input of node 4,
    through the virtual node 3 and the bypassed node 2, to node 1. *)
Lemma bypass_graph_resolves_spec :
  Resolver.resolves Samples.bypass_graph "IMAGE" (Compiler.self Samples.reroute)
    (Samples.edge 22 3 0 4 0)
    (Some (Compiler.self Samples.loader), Some (Samples.edge 20 1 0 2 1)).
Proof.
  eapply (Resolver.resolves_skip _ _ _ _ 0%nat (Samples.edge 21 2 0 3 0) Samples.scaler);
    [reflexivity|reflexivity|vm_compute; reflexivity|vm_compute; reflexivity|].
  eapply (Resolver.resolves_skip _ _ _ _ 1%nat (Samples.edge 20 1 0 2 1) Samples.loader);
    [reflexivity|vm_compute; reflexivity|vm_compute; reflexivity|vm_compute; reflexivity|].
  apply (Resolver.resolves_here Samples.bypass_graph "IMAGE" (Compiler.self Samples.loader)).
  reflexivity.
Defined.

Lemma resolve_input_resolves_witness :
  ∃ fuel0, ∀ fuel, (fuel0 ≤ fuel)%nat →
    Compiler.resolve_input Samples.no_updateLink fuel Samples.bypass_graph
      (Compiler.self Samples.saver) 0 (Samples.slot "images" "IMAGE" (Some 22))
    = Compiler.Done (Some (Samples.edge 20 1 0 2 1)).
Proof.
  apply (resolve_input_resolves Samples.no_updateLink Samples.bypass_graph
           (Compiler.self Samples.saver) 0%nat (Samples.slot "images" "IMAGE" (Some 22)) Samples.reroute
           (Samples.edge 22 3 0 4 0)
           (Some (Compiler.self Samples.loader), Some (Samples.edge 20 1 0 2 1))).
  - vm_compute. reflexivity.
  - vm_compute. reflexivity.
  - vm_compute. reflexivity.
  - exact bypass_graph_resolves_spec.
Defined.

(** C5, as the claim states it, fails: the producer found for the input of
    node 4 in [dead_end_graph] is a virtual node whose mapped input is not
    connected, so no next hop is freed; the loop keeps the producer but
    drops the link, and no pair is recorded for the input. *)
Lemma dead_end_records_nothing :
  Compiler.getInputNode Samples.dead_end_graph (Compiler.self Samples.saver) 0
  = Some Samples.reroute_open ∧
  Compiler.getInputLink Samples.dead_end_graph (Compiler.self Samples.saver) 0
  = Some (Samples.edge 22 3 0 4 0) ∧
  Compiler.bypass_loop 5 Samples.dead_end_graph "IMAGE"
    (Some (Compiler.self Samples.reroute_open)) (Some (Samples.edge 22 3 0 4 0))
  = Compiler.Done (Some (Compiler.self Samples.reroute_open), None) ∧
  Compiler.resolve_input Samples.no_updateLink 5 Samples.dead_end_graph
    (Compiler.self Samples.saver) 0 (Samples.slot "images" "IMAGE" (Some 22)) = Compiler.Done None ∧
  Samples.built_inputs 5 Samples.dead_end_graph (Compiler.self Samples.saver) = Some [].
Proof. vm_compute. repeat split; reflexivity. Qed.

(** * Properties of the submission queue *)

Section QueueFacts.
Import Compiler Queue.

Variable run_hook : HookId → Graph → Graph.
Variable serialize_hook : HookId → Graph → NodeData → nat → WidgetValue.
Variable updateLink_hook : HookId → LLink → option LLink.
Variable computeExecutionOrder : Graph → list Z.
Variable devMode : bool.
Variable fuel : nat.
Variable api_queuePrompt : Z → Prompt → nat → Response.

Local Abbreviation compile :=
  (compile run_hook serialize_hook updateLink_hook computeExecutionOrder devMode fuel).
Local Abbreviation batch_unit :=
  (batch_unit run_hook serialize_hook updateLink_hook computeExecutionOrder devMode fuel
     api_queuePrompt).
Local Abbreviation catch_throws :=
  (catch_throws run_hook serialize_hook updateLink_hook computeExecutionOrder devMode fuel
     api_queuePrompt).
Local Abbreviation resume :=
  (resume run_hook serialize_hook updateLink_hook computeExecutionOrder devMode fuel
     api_queuePrompt).
Local Abbreviation step :=
  (step run_hook serialize_hook updateLink_hook computeExecutionOrder devMode fuel
     api_queuePrompt).
Local Abbreviation run :=
  (run run_hook serialize_hook updateLink_hook computeExecutionOrder devMode fuel
     api_queuePrompt).

(** ** What a batch unit touches *)

Lemma submitted_app l1 l2 : submitted (l1 ++ l2) = submitted l1 ++ submitted l2.
Proof.
  induction l1 as [|a l1 IH]; [done|]. destruct a; simpl; by rewrite ?IH.
Qed.

(** A batch unit leaves the pending list, the flag and the activations
    alone; it ends by throwing exactly when the compilation throws or the
    [catch] block of a rejected submission does, and by hanging exactly
    when the compilation does not return. *)
Lemma batch_unit_frame q st :
  queueItems (batch_unit q st).1 = queueItems st ∧
  processingQueue (batch_unit q st).1 = processingQueue st ∧
  running (batch_unit q st).1 = running st ∧
  ((batch_unit q st).2 = Escapes ↔
   (compile (graph st)).2 = TypeError ∨ catch_throws q st) ∧
  ((batch_unit q st).2 = Hangs ↔ (compile (graph st)).2 = OutOfFuel).
Proof.
  unfold Queue.batch_unit, Queue.catch_throws.
  destruct (compile (graph st)) as [g1 [p| |]]; cbn [fst snd log emit set_graph].
  - rewrite submitted_app, app_nil_r.
    destruct (api_queuePrompt _ _ _) as [res|err] eqn:Hapi.
    + cbn [graph set_lastNodeErrors emit set_graph].
      destruct (run_afterQueued _ _ _) as [g2 hs]. simpl. split_and!; try done.
      split; [done|]. intros [?|(p' & err & [= <-] & ? & _)]; congruence.
    + destruct (formatPromptError err) as [text|msg] eqn:Hf; [destruct err as [|s|e]|]; simpl.
      * split_and!; try done. split; [|done]. intros _. right. by exists p, ThrownNull.
      * split_and!; try done.
        split; [done|]. intros [?|(p' & err & [= <-] & Hr & Hh)]; [done|].
        rewrite Hapi in Hr. injection Hr as <-. done.
      * assert (∀ st0 : App,
                  queueItems (match response e with
                              | Some r => set_lastNodeErrors (node_errors r) st0
                              | None => st0 end) = queueItems st0 ∧
                  processingQueue (match response e with
                              | Some r => set_lastNodeErrors (node_errors r) st0
                              | None => st0 end) = processingQueue st0 ∧
                  running (match response e with
                              | Some r => set_lastNodeErrors (node_errors r) st0
                              | None => st0 end) = running st0) as Hset
          by (intros st0; by destruct (response e)).
        rewrite !(proj1 (Hset _)), !(proj1 (proj2 (Hset _))), !(proj2 (proj2 (Hset _))).
        simpl. split_and!; try done.
        split; [done|]. intros [?|(p' & err & [= <-] & Hr & Hh)]; [done|].
        rewrite Hapi in Hr. injection Hr as <-. unfold handled in Hh. by rewrite Hf in Hh.
      * split_and!; try done. split; [|done]. intros _. right.
        exists p, err. split_and!; [done|done|]. unfold handled. by rewrite Hf.
  - split_and!; try done. split; [by left|done].
  - split_and!; try done.
    split; [done|]. intros [?|(p' & err & ? & _)]; done.
Qed.

(** ** Single flight *)

(** Leaving the [while] loop head with no other activation around. *)
Lemma while_loop_alone k locals st :
  running st = [] →
  (∃ a, running (while_loop k locals st) = [a] ∧ hung a = false ∧ i a = 0 ∧
        processingQueue (while_loop k locals st) = processingQueue st)
  ∨ (running (while_loop k locals st) = [] ∧
     processingQueue (while_loop k locals st) = false ∧
     queueItems (while_loop k locals st) = []).
Proof.
  intros Hrun. unfold while_loop.
  destruct (next_request _ _) as [[[q|] rest] locals']; simpl.
  - left. eexists. rewrite Hrun. unfold place. rewrite take_nil, drop_nil. simpl. eauto.
  - right. auto.
Qed.

Lemma queuePrompt_keeps_single_flight n b st :
  single_flight st →
  single_flight (Queue.queuePrompt n b st).
Proof.
  intros [Hlen Hflag]. unfold Queue.queuePrompt. simpl.
  destruct (processingQueue st) eqn:Hp; [split; simpl; [done|by rewrite Hp]|].
  assert (running st = []) as Hrun.
  { destruct (running st); [done|]. exfalso.
    assert (false = true) by (apply Hflag; done). done. }
  match goal with |- single_flight (while_loop ?k ?l ?s) =>
    destruct (while_loop_alone k l s) as [(a & Hr & _ & _ & Hf)|(Hr & Hf & _)]; [done| |]
  end; split; rewrite ?Hr, ?Hf; simpl; try lia; split; done.
Qed.

Lemma resume_keeps_single_flight k st :
  single_flight st →
  single_flight (resume k st).
Proof.
  intros [Hlen Hflag]. unfold Queue.resume.
  destruct (running st !! k) as [a|] eqn:Hk; [|done].
  destruct (hung a); [done|].
  assert (running st = [a] ∧ k = 0%nat) as [Hrun ->].
  { destruct (running st) as [|a' [|]]; simpl in *; [done| |lia].
    destruct k; simpl in Hk; [by injection Hk as ->|done]. }
  assert (processingQueue st = true) as Hp by (apply Hflag; by rewrite Hrun).
  rewrite Hrun. simpl.
  pose proof (batch_unit_frame (item a) (set_running [] st)) as (_ & Hf & Hr & _).
  destruct (batch_unit (item a) (set_running [] st)) as [st' e]. simpl in *.
  destruct e.
  - destruct (i a + 1 <? batchCount (item a)).
    + split; simpl; rewrite ?Hr; unfold place; simpl; [lia|]. by rewrite Hf, Hp.
    + destruct (while_loop_alone 0 (item a) st' Hr) as [(a' & Hr' & _ & _ & Hf')|(Hr' & Hf' & _)];
        split; rewrite ?Hr', ?Hf', ?Hf, ?Hp; simpl; try lia; done.
  - destruct (while_loop_alone 0 (item a) st' Hr) as [(a' & Hr' & _ & _ & Hf')|(Hr' & Hf' & _)];
      split; rewrite ?Hr', ?Hf', ?Hf, ?Hp; simpl; try lia; done.
  - split; simpl; rewrite Hr; simpl; [lia|done].
  - split; simpl; rewrite ?Hr; unfold place; simpl; [lia|]. by rewrite Hf, Hp.
Qed.

Lemma run_app es1 es2 st : run (es1 ++ es2) st = run es2 (run es1 st).
Proof. apply foldl_app. Qed.

Lemma run_single_flight es st :
  single_flight st → single_flight (run es st).
Proof.
  revert st. induction es as [|e es IH]; intros st Hst; [done|].
  simpl. apply IH. destruct e; [by apply queuePrompt_keeps_single_flight|
                                 by apply resume_keeps_single_flight].
Qed.

Lemma start_single_flight g : single_flight (start g).
Proof. split; simpl; [lia|done]. Qed.

(** C3, amended: in every state the application reaches, at most one
    activation is inside the drain loop and the flag is up exactly while
    one is; a call made while the flag is up only appends its request to
    the pending list; when an activation lowers the flag, either the
    pending list is empty, or the compilation threw, or the [catch] block
    of a rejected submission threw; and whenever the compilation or that
    block throws, the flag is lowered, the activation is gone and the
    pending list is left as it was. *)
Theorem queuePrompt_single_flight es g :
  let st := run es (start g) in
  single_flight st ∧
  (∀ n b, processingQueue st = true →
     Queue.queuePrompt n b st
     = set_queueItems (queueItems st ++ [{| number := n; batchCount := b |}]) st) ∧
  (∀ k, processingQueue st = true → processingQueue (resume k st) = false →
     queueItems (resume k st) = [] ∨ (compile (graph st)).2 = TypeError ∨
     ∃ a, running st !! k = Some a ∧ catch_throws (item a) st) ∧
  (∀ k a, running st !! k = Some a → hung a = false →
     (compile (graph st)).2 = TypeError ∨ catch_throws (item a) st →
     processingQueue (resume k st) = false ∧
     queueItems (resume k st) = queueItems st ∧
     running (resume k st) = delete k (running st)).
Proof.
  cbv zeta. set (st := run es (start g)). split_and!.
  - apply run_single_flight, start_single_flight.
  - intros n b Hp. unfold Queue.queuePrompt. simpl. by rewrite Hp.
  - intros k Hp Hp'. unfold Queue.resume in *.
    destruct (running st !! k) as [a|]; [|congruence].
    destruct (hung a); [congruence|].
    pose proof (batch_unit_frame (item a) (set_running (delete k (running st)) st))
      as (_ & Hf & _ & Hesc & _).
    destruct (batch_unit (item a) _) as [st' e]. cbn [fst snd] in *. simpl in Hf.
    assert (∀ j locals, processingQueue (while_loop j locals st') = false →
                        queueItems (while_loop j locals st') = []) as Hloop.
    { intros j locals. unfold while_loop.
      destruct (next_request _ _) as [[[q|] rest] locals']; simpl; [congruence|done]. }
    destruct e.
    + destruct (i a + 1 <? batchCount (item a)); [simpl in Hp'; congruence|].
      left. by apply Hloop.
    + left. by apply Hloop.
    + right. destruct (proj1 Hesc eq_refl) as [Hthrow|Hcatch]; [by left|].
      right. by exists a.
    + simpl in Hp'. congruence.
  - intros k a Hk Hh Hthrow. unfold Queue.resume. rewrite Hk, Hh.
    pose proof (batch_unit_frame (item a) (set_running (delete k (running st)) st))
      as (Hq & _ & Hr & Hesc & _).
    destruct (batch_unit (item a) _) as [st' e]. cbn [fst snd] in *.
    apply Hesc in Hthrow. subst e. simpl. by rewrite Hq, Hr.
Qed.

(** ** Failed submissions *)









(** Which errors the [catch] block handles: a string; an object with a
    stack and a message; an object without a response; an object whose
    response has an [error], and [node_errors] of which every entry has its
    [errors]. *)
Lemma format_node_errors_returns entries : ∀ message,
  (∃ text, format_node_errors message entries = Returns text) ↔
  Forall (fun entry => is_Some (node_reasons entry.2)) entries.
Proof.
  induction entries as [|[k nodeError] entries IH]; intros message; simpl.
  - split; [by constructor|by eauto].
  - rewrite Forall_cons. simpl. destruct (node_reasons nodeError) as [reasons|].
    + rewrite IH. split; [by split; [eauto|]|by intros [_ ?]].
    + split; [by intros [text ?]|by intros [[? ?] _]].
Qed.

Lemma handled_iff err :
  handled err = true ↔
  match err with
  | ThrownNull => False
  | ThrownString _ => True
  | ThrownObject e =>
      stack_and_message e = true ∨
      match response e with
      | None => True
      | Some r =>
          is_Some (error r) ∧
          ∃ entries, node_errors r = Some entries ∧
                     Forall (fun entry => is_Some (node_reasons entry.2)) entries
      end
  end.
Proof.
  unfold handled, formatPromptError. destruct err as [|s|e]; [done|done|].
  destruct (stack_and_message e); [by split; [left|]|].
  destruct (response e) as [r|]; [|by split; [right|]].
  destruct (error r) as [info|].
  - destruct (node_errors r) as [entries|].
    + match goal with |- context [format_node_errors ?m entries] =>
        pose proof (format_node_errors_returns entries m) as Hf;
        destruct (format_node_errors m entries) as [text|msg]
      end.
      * split; [|done]. intros _. right. split; [by eexists|].
        exists entries. split; [done|]. apply Hf. by eexists.
      * split; [done|]. intros [?|[_ (entries' & [= <-] & Hall)]]; [done|].
        apply Hf in Hall as [text ?]. done.
    + split; [done|]. by intros [?|[_ (entries & ? & _)]].
  - split; [done|]. intros [?|[[? ?] _]]; done.
Qed.




(** ** Callbacks after a submission *)

Lemma compile_workflow g g1 p :
  compile g = (g1, Done p) → workflow p = g1.
Proof.
  unfold Queue.compile, graphToPrompt. intros [= <- H].
  destruct (compile_outer _ _ _ _ _ _ _) as [out| |]; simpl in H; [|done|done].
  by injection H as <-.
Qed.

Lemma run_hooks_spec hs g acc :
  run_hooks run_hook hs (g, acc) = (foldl (fun g h => run_hook h g) g hs, acc ++ hs).
Proof.
  unfold run_hooks. revert g acc. induction hs as [|h hs IH]; intros g acc; simpl.
  - by rewrite app_nil_r.
  - rewrite IH. by rewrite <- app_assoc.
Qed.

Lemma getNodeById_unique g (n : Node) :
  NoDup ((fun n : Node => id n) <$> nodes g) → n ∈ nodes g →
  getNodeById g (id n) = Some n.
Proof.
  unfold getNodeById. induction (nodes g) as [|m ns IH]; intros Hnd Hin.
  - by apply elem_of_nil in Hin.
  - rewrite fmap_cons in Hnd. apply NoDup_cons in Hnd as [Hm Hnd]. simpl.
    apply elem_of_cons in Hin as [->|Hin]; [by rewrite Z.eqb_refl|].
    destruct (id m =? id n) eqn:Heq; [|by apply IH].
    apply Z.eqb_eq in Heq. exfalso. apply Hm. rewrite Heq.
    apply list_elem_of_fmap. eauto.
Qed.

Section StableCallbacks.

(** No callback changes which callbacks the widgets of a node declare. *)
Hypothesis callbacks_stable :
  ∀ h g i, node_callbacks (run_hook h g) i = node_callbacks g i.

Lemma foldl_hooks_stable hs g i :
  node_callbacks (foldl (fun g h => run_hook h g) g hs) i = node_callbacks g i.
Proof.
  revert g. induction hs as [|h hs IH]; intros g; [done|].
  simpl. by rewrite IH, callbacks_stable.
Qed.

Lemma foldl_after_node g1 ns g acc :
  (∀ i, node_callbacks g i = node_callbacks g1 i) →
  (∀ n : Node, n ∈ ns → node_callbacks g1 (id n) = Some (afterQueued_hooks (widgets n))) →
  foldl (after_node run_hook) (g, acc) ns
  = (foldl (fun g h => run_hook h g) g
       (concat ((fun n : Node => afterQueued_hooks (widgets n)) <$> ns)),
     acc ++ concat ((fun n : Node => afterQueued_hooks (widgets n)) <$> ns)).
Proof.
  revert g acc. induction ns as [|n ns IH]; intros g acc Hg Hns.
  - simpl. by rewrite app_nil_r.
  - simpl. unfold after_node at 2. simpl.
    assert (node_callbacks g (id n) = Some (afterQueued_hooks (widgets n))) as Hn.
    { rewrite Hg. apply Hns. by left. }
    unfold node_callbacks in Hn.
    destruct (getNodeById g (id n)) as [node|]; simpl in Hn; [|done].
    injection Hn as Hn. rewrite Hn, run_hooks_spec.
    rewrite IH.
    + by rewrite foldl_app, app_assoc.
    + intros j. by rewrite foldl_hooks_stable.
    + intros m Hm. apply Hns. by right.
Qed.

Lemma run_afterQueued_callbacks p g1 :
  workflow p = g1 →
  NoDup ((fun n : Node => id n) <$> nodes g1) →
  run_afterQueued run_hook p g1
  = (foldl (fun g h => run_hook h g) g1 (callbacks_of g1), callbacks_of g1).
Proof.
  intros Hw Hnd. unfold run_afterQueued. rewrite Hw.
  rewrite (foldl_after_node g1); [done|done|].
  intros n Hn. unfold node_callbacks. by rewrite getNodeById_unique.
Qed.

(** C6, amended: after a batch unit whose submission is accepted, every
    [afterQueued] callback of every widget of the graph has run, after the
    submission and before anything else; the graph the next unit compiles
    is the one these callbacks leave; and, when the batch has a unit left,
    the activation stands at that unit. *)
Theorem accepted_unit_runs_afterQueued st k a g1 p res :
  NoDup ((fun n : Node => id n) <$> nodes g1) →
  running st !! k = Some a →
  hung a = false →
  compile (graph st) = (g1, Done p) →
  api_queuePrompt (number (item a)) p (length (submitted (log st))) = Accepted res →
  let st' := resume k st in
  graph st' = foldl (fun g h => run_hook h g) g1 (callbacks_of g1) ∧
  (∃ tail,
     log st' = log st ++ [Compile true; Submit (number (item a)) true]
                     ++ (AfterQueued <$> callbacks_of g1) ++ tail ∧
     (tail = [] ∨ ∃ n b, tail = [PromptQueued n b])) ∧
  (i a + 1 < batchCount (item a) →
   running st' !! k = Some {| item := item a; i := i a + 1; hung := false |}).
Proof.
  intros Hnd Hk Hh Hc Hapi. cbv zeta. unfold Queue.resume. rewrite Hk, Hh.
  unfold Queue.batch_unit.
  change (graph (set_running (delete k (running st)) st)) with (graph st).
  rewrite Hc. cbn [log emit set_graph set_running].
  rewrite submitted_app, app_nil_r. cbn [number]. rewrite Hapi.
  cbn [graph set_lastNodeErrors emit set_graph].
  rewrite (run_afterQueued_callbacks p g1 (compile_workflow _ _ _ Hc) Hnd).
  destruct (i a + 1 <? batchCount (item a)) eqn:Hnext.
  - simpl. split_and!; [done| |].
    + exists []. rewrite app_nil_r, <- !app_assoc. simpl. auto.
    + intros _. unfold place.
      assert (k < length (running st))%nat as Hlt by (by eapply lookup_lt_Some).
      rewrite lookup_app_r; rewrite length_take, length_delete by eauto; [|lia].
      replace (k - (k `min` (length (running st) - 1)))%nat with 0%nat by lia. done.
  - unfold while_loop. cbn [queueItems set_graph set_running emit set_lastNodeErrors].
    destruct (next_request _ _) as [[[q|] rest] locals']; simpl.
    + split_and!; [done| |intros Hlt; apply Z.ltb_ge in Hnext; lia].
      exists []. rewrite app_nil_r, <- !app_assoc. simpl. auto.
    + split_and!; [done| |intros Hlt; apply Z.ltb_ge in Hnext; lia].
      eexists. rewrite <- !app_assoc. simpl. split; [reflexivity|]. eauto.
Qed.

End StableCallbacks.

End QueueFacts.

(** * Requests are processed *)

Section SmoothRuns.
Import Compiler Queue.

Variable run_hook : HookId → Graph → Graph.
Variable serialize_hook : HookId → Graph → NodeData → nat → WidgetValue.
Variable updateLink_hook : HookId → LLink → option LLink.
Variable computeExecutionOrder : Graph → list Z.
Variable devMode : bool.
Variable fuel : nat.
Variable api_queuePrompt : Z → Prompt → nat → Response.

Local Abbreviation compile :=
  (compile run_hook serialize_hook updateLink_hook computeExecutionOrder devMode fuel).
Local Abbreviation resume :=
  (resume run_hook serialize_hook updateLink_hook computeExecutionOrder devMode fuel
     api_queuePrompt).
Local Abbreviation step :=
  (step run_hook serialize_hook updateLink_hook computeExecutionOrder devMode fuel
     api_queuePrompt).
Local Abbreviation run :=
  (run run_hook serialize_hook updateLink_hook computeExecutionOrder devMode fuel
     api_queuePrompt).

(** The graphs the drain meets, [I], all compile, and the backend accepts
    every submission. *)
Variable I : Graph → Prop.
Hypothesis compiles :
  ∀ g, I g → ∃ g1 p, compile g = (g1, Done p) ∧ I (run_afterQueued run_hook p g1).1.
Hypothesis accepts : ∀ n p k, ∃ res, api_queuePrompt n p k = Accepted res.

Lemma submitted_AfterQueued hs : submitted (AfterQueued <$> hs) = [].
Proof. by induction hs. Qed.

Lemma next_request_units stack locals :
  match next_request stack locals with
  | (Some q, rest, _) => stack ≫= units = units q ++ (rest ≫= units) ∧ 0 < batchCount q
  | (None, _, _) => stack ≫= units = []
  end.
Proof.
  revert locals. induction stack as [|q stack IH]; intros locals; [done|].
  simpl. destruct (0 <? batchCount q) eqn:Hq.
  - split; [done|]. by apply Z.ltb_lt.
  - specialize (IH q). apply Z.ltb_ge in Hq.
    assert (units q = []) as Hu.
    { unfold units. by replace (Z.to_nat (batchCount q)) with 0%nat by lia. }
    destruct (next_request stack q) as [[[q'|] rest] l]; rewrite Hu; simpl; done.
Qed.

(** One unit of the draining activation. *)
Lemma resume_unit st a pending :
  I (graph st) → draining st a pending →
  I (graph (resume 0 st)) ∧
  submitted (log (resume 0 st)) = submitted (log st) ++ [number (item a)] ∧
  if i a + 1 <? batchCount (item a)
  then draining (resume 0 st) {| item := item a; i := i a + 1; hung := false |} pending
  else match next_request (rev pending) (item a) with
       | (Some q, rest, _) =>
           draining (resume 0 st) {| item := q; i := 0; hung := false |} (rev rest)
       | (None, _, _) => idle (resume 0 st)
       end.
Proof.
  intros HI (Hrun & Hh & Hp & Hq).
  destruct (compiles _ HI) as (g1 & p & Hc & HI').
  destruct (accepts (number (item a)) p (length (submitted (log st)))) as [res Hapi].
  unfold Queue.resume. rewrite Hrun. simpl. rewrite Hh.
  unfold Queue.batch_unit.
  change (graph (set_running [] st)) with (graph st).
  rewrite Hc. cbn [log emit set_graph set_running].
  rewrite submitted_app, app_nil_r. cbn [number]. rewrite Hapi.
  cbn [graph set_lastNodeErrors emit set_graph].
  destruct (run_afterQueued run_hook p g1) as [g2 hs]. simpl in HI'.
  destruct (i a + 1 <? batchCount (item a)).
  - simpl. rewrite !submitted_app, submitted_AfterQueued, app_nil_r. simpl.
    rewrite app_nil_r. split_and!; [done|done|].
    unfold draining. simpl. by rewrite Hp, Hq.
  - unfold while_loop. cbn [queueItems set_graph set_running emit set_lastNodeErrors].
    rewrite Hq.
    destruct (next_request (rev pending) (item a)) as [[[q|] rest] locals']; simpl;
      rewrite !submitted_app, submitted_AfterQueued, ?app_nil_r; simpl;
      rewrite ?app_nil_r; split_and!; done.
Qed.

(** [j] units in a row, while the batch has units left after them. *)
Lemma resume_units j : ∀ st q k pending,
  I (graph st) →
  draining st {| item := q; i := k; hung := false |} pending →
  k + Z.of_nat j < batchCount q →
  let st' := run (repeat (Resume 0) j) st in
  I (graph st') ∧
  submitted (log st') = submitted (log st) ++ repeat (number q) j ∧
  draining st' {| item := q; i := k + Z.of_nat j; hung := false |} pending.
Proof.
  induction j as [|j IH]; intros st q k pending HI Hd Hlt; cbv zeta.
  - simpl. rewrite app_nil_r, Z.add_0_r. done.
  - simpl. destruct (resume_unit st _ pending HI Hd) as (HI' & Hs & Hnext).
    simpl in Hnext, Hs.
    assert ((k + 1 <? batchCount q) = true) as Heq by (apply Z.ltb_lt; lia).
    rewrite Heq in Hnext.
    destruct (IH _ _ _ _ HI' Hnext) as (HI'' & Hs' & Hd'); [lia|].
    split_and!; [done| |].
    + rewrite Hs', Hs, <- app_assoc. done.
    + replace (k + Z.of_nat (S j)) with (k + 1 + Z.of_nat j) by lia. done.
Qed.

(** The whole of what is left of a batch, and the move to the next
    request. *)
Lemma resume_batch st q k pending :
  I (graph st) →
  draining st {| item := q; i := k; hung := false |} pending →
  0 ≤ k < batchCount q →
  let st' := run (repeat (Resume 0) (Z.to_nat (batchCount q - k))) st in
  I (graph st') ∧
  submitted (log st') = submitted (log st) ++ repeat (number q) (Z.to_nat (batchCount q - k)) ∧
  match next_request (rev pending) q with
  | (Some q', rest, _) => draining st' {| item := q'; i := 0; hung := false |} (rev rest)
  | (None, _, _) => idle st'
  end.
Proof.
  intros HI Hd Hk. cbv zeta.
  replace (Z.to_nat (batchCount q - k)) with (Z.to_nat (batchCount q - k - 1) + 1)%nat
    by lia.
  rewrite repeat_app, run_app, (repeat_app (number q)). simpl.
  destruct (resume_units (Z.to_nat (batchCount q - k - 1)) st q k pending HI Hd)
    as (HI' & Hs & Hd'); [lia|].
  destruct (resume_unit _ _ pending HI' Hd') as (HI'' & Hs' & Hnext).
  simpl in Hnext, Hs'.
  assert ((k + Z.of_nat (Z.to_nat (batchCount q - k - 1)) + 1 <? batchCount q) = false)
    as Heq by (apply Z.ltb_ge; lia).
  rewrite Heq in Hnext.
  split_and!; [done| |done].
  rewrite Hs', Hs, <- app_assoc. done.
Qed.

(** ** Calls *)

Lemma call_idle st n b :
  idle st →
  graph (Queue.queuePrompt n b st) = graph st ∧
  submitted (log (Queue.queuePrompt n b st)) = submitted (log st) ∧
  if 0 <? b
  then draining (Queue.queuePrompt n b st)
         {| item := {| number := n; batchCount := b |}; i := 0; hung := false |} []
  else idle (Queue.queuePrompt n b st).
Proof.
  intros (Hrun & Hp & Hq). unfold Queue.queuePrompt. simpl. rewrite Hp, Hq, Hrun.
  unfold while_loop. simpl. destruct (0 <? b); simpl.
  - split_and!; [done|done|]. unfold draining. simpl. by rewrite Hrun.
  - rewrite submitted_app, app_nil_r. split_and!; [done|done|].
    unfold idle. simpl. by rewrite Hrun.
Qed.

Lemma call_draining st a pending n b :
  draining st a pending →
  graph (Queue.queuePrompt n b st) = graph st ∧
  log (Queue.queuePrompt n b st) = log st ∧
  draining (Queue.queuePrompt n b st) a (pending ++ [{| number := n; batchCount := b |}]).
Proof.
  intros (Hrun & Hh & Hp & Hq). unfold Queue.queuePrompt. simpl. rewrite Hp.
  split_and!; [done|done|]. unfold draining. simpl. by rewrite Hq.
Qed.

(** ** Nothing asked for is lost *)

Lemma called_snoc es e : called (es ++ [e]) = called es ++ asked e.
Proof. unfold called. rewrite bind_app. simpl. by rewrite app_nil_r. Qed.

Lemma remaining_cons a :
  0 ≤ i a < batchCount (item a) →
  remaining a
  = number (item a) :: remaining {| item := item a; i := i a + 1; hung := false |}.
Proof.
  intros Hi. unfold remaining. simpl.
  replace (Z.to_nat (batchCount (item a) - i a))
    with (S (Z.to_nat (batchCount (item a) - (i a + 1)))) by lia.
  done.
Qed.

Lemma remaining_first q :
  remaining {| item := q; i := 0; hung := false |} = units q.
Proof. unfold remaining, units. simpl. by rewrite Z.sub_0_r. Qed.

Lemma units_rev (l : list QueueItem) : rev l ≫= units ≡ₚ l ≫= units.
Proof. apply bind_Permutation. symmetry. apply Permutation_rev. Qed.

Lemma step_accounted es st e :
  accounted I es st → accounted I (es ++ [e]) (step st e).
Proof.
  intros (HI & Hperm & Hshape). unfold accounted. rewrite called_snoc.
  destruct e as [n b|k]; simpl.
  - (* a call *)
    destruct Hshape as [Hidle|(a & pending & Hd & Hi)].
    + destruct (call_idle st n b Hidle) as (Hg & Hs & Hnext).
      pose proof Hidle as (Hrun & _ & Hq).
      unfold pending_units in Hperm. rewrite Hrun, Hq in Hperm. simpl in Hperm.
      rewrite app_nil_r in Hperm.
      split; [by rewrite Hg|]. rewrite Hs.
      destruct (0 <? b) eqn:Hb.
      * destruct Hnext as (Hrun' & Hh' & Hp' & Hq'). split.
        -- unfold pending_units. rewrite Hrun', Hq'. simpl.
           rewrite app_nil_r, remaining_first, Hperm. done.
        -- right. eexists _, _. split; [by split_and!|]. simpl.
           apply Z.ltb_lt in Hb. lia.
      * destruct Hnext as (Hrun' & Hp' & Hq'). split.
        -- unfold pending_units. rewrite Hrun', Hq'. simpl. rewrite app_nil_r.
           apply Z.ltb_ge in Hb. unfold units. simpl.
           replace (Z.to_nat b) with 0%nat by lia. simpl. by rewrite app_nil_r.
        -- left. by split_and!.
    + destruct (call_draining st a pending n b Hd) as (Hg & Hl & Hd').
      pose proof Hd as (Hrun & _ & _ & Hq). pose proof Hd' as (Hrun' & _ & _ & Hq').
      split; [by rewrite Hg|]. rewrite Hl. split; [|right; eauto].
      unfold pending_units in *. rewrite Hrun', Hq'. rewrite Hrun, Hq in Hperm.
      rewrite Hperm, bind_app. simpl. rewrite !app_nil_r, <- !app_assoc.
      do 2 apply Permutation_app_head. apply Permutation_app_comm.
  - (* a resumption *)
    rewrite app_nil_r.
    destruct Hshape as [Hidle|(a & pending & Hd & Hi)].
    + assert (resume k st = st) as ->; [|by split_and!; [| |left]].
      unfold Queue.resume. destruct Hidle as (-> & _). by destruct k.
    + pose proof Hd as (Hrun & Hh & Hp & Hq).
      destruct k as [|k]; [|assert (resume (S k) st = st) as ->;
                             [unfold Queue.resume; by rewrite Hrun|by split_and!; eauto]].
      destruct (resume_unit st a pending HI Hd) as (HI' & Hs & Hnext).
      split; [done|]. rewrite Hs.
      unfold pending_units in Hperm. rewrite Hrun, Hq in Hperm. simpl in Hperm.
      rewrite app_nil_r, (remaining_cons a Hi) in Hperm.
      destruct (i a + 1 <? batchCount (item a)) eqn:Hmid.
      * pose proof Hnext as (Hrun' & _ & _ & Hq'). split.
        -- unfold pending_units. rewrite Hrun', Hq'. simpl. rewrite app_nil_r, Hperm.
           rewrite <- !app_assoc. apply Permutation_app_head. simpl.
           symmetry. apply Permutation_middle.
        -- right. eexists _, _. split; [done|]. simpl. apply Z.ltb_lt in Hmid. lia.
      * apply Z.ltb_ge in Hmid.
        assert (remaining {| item := item a; i := i a + 1; hung := false |} = []) as Hlast.
        { unfold remaining. simpl.
          by replace (Z.to_nat (batchCount (item a) - (i a + 1))) with 0%nat by lia. }
        rewrite Hlast in Hperm.
        pose proof (next_request_units (rev pending) (item a)) as Hunits.
        destruct (next_request (rev pending) (item a)) as [[[q|] rest] locals'].
        -- destruct Hunits as [Hunits Hpos].
           pose proof Hnext as (Hrun' & _ & _ & Hq'). split.
           ++ unfold pending_units. rewrite Hrun', Hq'. simpl.
              rewrite app_nil_r, remaining_first, Hperm.
              rewrite <- (units_rev pending), Hunits, (units_rev rest).
              rewrite <- !app_assoc. apply Permutation_app_head.
              etrans; [apply Permutation_app_comm|].
              rewrite (app_assoc [number (item a)]).
              apply Permutation_app_tail, Permutation_app_comm.
           ++ right. eexists _, _. split; [done|]. simpl. lia.
        -- pose proof Hnext as (Hrun' & _ & Hq'). split; [|by left].
           unfold pending_units. rewrite Hrun', Hq'. simpl. rewrite app_nil_r, Hperm.
           rewrite <- (units_rev pending), Hunits. done.
Qed.

Lemma run_accounted es g : I g → accounted I es (run es (start g)).
Proof.
  intros HI. induction es as [|e es IH] using rev_ind.
  - split_and!; [done|done|]. left. by split_and!.
  - rewrite run_app. apply step_accounted, IH.
Qed.

(** ** Two calls *)

Lemma two_calls g na ba nb bb k :
  I g →
  (k < Z.to_nat ba)%nat →
  let st := run ([Call na ba] ++ repeat (Resume 0) k ++ [Call nb bb]
                 ++ repeat (Resume 0) (Z.to_nat ba - k) ++ repeat (Resume 0) (Z.to_nat bb))
              (start g) in
  submitted (log st)
  = units {| number := na; batchCount := ba |} ++ units {| number := nb; batchCount := bb |} ∧
  idle st.
Proof.
  intros HI Hk. cbv zeta. rewrite !run_app. simpl run at 4.
  (* the first call starts the drain *)
  destruct (call_idle (start g) na ba) as (Hg1 & Hs1 & Hd1); [by split_and!|].
  assert ((0 <? ba) = true) as Hba by (apply Z.ltb_lt; lia). rewrite Hba in Hd1.
  set (st1 := Queue.queuePrompt na ba (start g)) in *.
  (* [k] units of the first request *)
  destruct (resume_units k st1 _ 0 [] ltac:(by rewrite Hg1) Hd1) as (HI2 & Hs2 & Hd2);
    [simpl; lia|].
  set (st2 := run (repeat (Resume 0) k) st1) in *.
  (* the second call only appends *)
  destruct (call_draining st2 _ _ nb bb Hd2) as (Hg3 & Hl3 & Hd3).
  simpl run. set (st3 := Queue.queuePrompt nb bb st2) in *.
  (* the rest of the first request *)
  destruct (resume_batch st3 _ (0 + Z.of_nat k) _ ltac:(by rewrite Hg3) Hd3)
    as (HI4 & Hs4 & Hnext); [simpl; lia|].
  cbn [batchCount number] in HI4, Hs4, Hnext. simpl in Hnext.
  replace (Z.to_nat (ba - (0 + Z.of_nat k))) with (Z.to_nat ba - k)%nat in * by lia.
  set (st4 := run (repeat (Resume 0) (Z.to_nat ba - k)) st3) in *.
  assert (submitted (log st4) = units {| number := na; batchCount := ba |}) as Hfirst.
  { rewrite Hs4, Hl3, Hs2, Hs1. simpl. rewrite <- repeat_app. unfold units. simpl.
    f_equal. lia. }
  destruct (0 <? bb) eqn:Hbb.
  - (* the second request has units *)
    destruct (resume_batch st4 _ 0 _ HI4 Hnext) as (HI5 & Hs5 & Hend).
    { simpl. apply Z.ltb_lt in Hbb. lia. }
    simpl in Hs5, Hend. rewrite Z.sub_0_r in *.
    split; [|done]. by rewrite Hs5, Hfirst.
  - apply Z.ltb_ge in Hbb. replace (Z.to_nat bb) with 0%nat by lia. simpl.
    split; [|done]. rewrite Hfirst. unfold units. simpl.
    replace (Z.to_nat bb) with 0%nat by lia. simpl. by rewrite app_nil_r.
Qed.

(** C2, amended: while every compilation returns and every submission is
    accepted, what the calls asked for is, at every moment, what has been
    submitted together with what is pending, so that once the drain is
    over every request has been submitted in full; and two calls, the
    second made before the drain started by the first is over, have their
    requests submitted in full in the order of the calls. *)
Theorem requests_processed g :
  I g →
  (∀ es,
     let st := run es (start g) in
     called es ≡ₚ submitted (log st) ++ pending_units st ∧
     (idle st → called es ≡ₚ submitted (log st))) ∧
  (∀ na ba nb bb k,
     (k < Z.to_nat ba)%nat →
     let st := run ([Call na ba] ++ repeat (Resume 0) k ++ [Call nb bb]
                    ++ repeat (Resume 0) (Z.to_nat ba - k)
                    ++ repeat (Resume 0) (Z.to_nat bb))
                 (start g) in
     submitted (log st)
     = units {| number := na; batchCount := ba |}
       ++ units {| number := nb; batchCount := bb |} ∧
     idle st).
Proof.
  intros HI. split.
  - intros es. cbv zeta. destruct (run_accounted es g HI) as (_ & Hperm & _).
    split; [done|]. intros (Hrun & _ & Hq).
    unfold pending_units in Hperm. rewrite Hrun, Hq in Hperm. simpl in Hperm.
    by rewrite app_nil_r in Hperm.
  - intros na ba nb bb k Hk. by apply two_calls.
Qed.

End SmoothRuns.

(** C3, as the claim states it, fails: request 1 is enqueued while request
    0 drains; the compilation for request 0 throws, and the flag is lowered
    while request 1 is still pending. *)
Lemma flag_released_with_pending :
  let st := Samples.sample_run Samples.idle_hook Samples.accept_all
              [Queue.Call 0 1; Queue.Call 1 1] Samples.broken_graph in
  let st' := Samples.sample_run Samples.idle_hook Samples.accept_all
               [Queue.Call 0 1; Queue.Call 1 1; Queue.Resume 0] Samples.broken_graph in
  Queue.processingQueue st = true ∧
  Queue.queueItems st = [{| Queue.number := 1; Queue.batchCount := 1 |}] ∧
  Queue.processingQueue st' = false ∧
  Queue.queueItems st' = [{| Queue.number := 1; Queue.batchCount := 1 |}] ∧
  Queue.log st' = [Queue.Compile false].
Proof. vm_compute. repeat split; reflexivity. Qed.

(** The scenario of the specification: the first submission of a batch of
    three is rejected; the second and third are never attempted and the
    detail of the rejection is the current error state. *)
Example rejected_batch_of_three :
  let st := Samples.sample_run Samples.advance_seed Samples.reject_first
              [Queue.Call 0 3; Queue.Resume 0; Queue.Resume 0; Queue.Resume 0]
              (Samples.seeded_graph None (Some 0%nat)) in
  Queue.submitted (Queue.log st) = [0] ∧
  Queue.lastNodeErrors st = Queue.node_errors Samples.rejection ∧
  Queue.processingQueue st = false ∧
  Queue.dialog st
  = Some ("Prompt outputs failed validation" +:+ Queue.LF +:+ "KSampler:" +:+ Queue.LF
          +:+ "    - Value not in list: sampler_name").
Proof. vm_compute. repeat split; reflexivity. Qed.



(** The seed callback changes values only: the callbacks the widgets
    declare stay the same. *)
Lemma advance_afterQueued w :
  Compiler.afterQueued (Samples.advance w) = Compiler.afterQueued w.
Proof.
  unfold Samples.advance. destruct (Compiler.value w); [done| |done].
  by destruct (String.eqb _ _).
Qed.

Lemma advance_hooks ws :
  Queue.afterQueued_hooks (Samples.advance <$> ws) = Queue.afterQueued_hooks ws.
Proof.
  unfold Queue.afterQueued_hooks. induction ws as [|w ws IH]; [done|].
  rewrite fmap_cons. cbn [omap list_omap]. by rewrite advance_afterQueued, IH.
Qed.

Lemma advance_seed_stable h g i :
  Queue.node_callbacks (Samples.advance_seed h g) i = Queue.node_callbacks g i.
Proof.
  unfold Queue.node_callbacks, Compiler.getNodeById, Samples.advance_seed. simpl.
  induction (Compiler.nodes g) as [|n ns IH]; [done|].
  rewrite fmap_cons. cbn [List.find]. simpl Compiler.id.
  destruct (Compiler.id (Compiler.self n) =? i); [|exact IH].
  simpl. f_equal. apply advance_hooks.
Qed.

Lemma accepted_unit_runs_afterQueued_witness :
  let st' := Samples.sample_run Samples.advance_seed Samples.accept_all
               [Queue.Call 0 2; Queue.Resume 0] (Samples.seeded_graph None (Some 0%nat)) in
  Samples.seed_of (Queue.graph st') = Some (Compiler.WNumber 8) ∧
  Queue.log st' = [Queue.Compile true; Queue.Submit 0 true; Queue.AfterQueued 0%nat] ∧
  Queue.running st' !! 0%nat
  = Some {| Queue.item := {| Queue.number := 0; Queue.batchCount := 2 |};
            Queue.i := 1; Queue.hung := false |}.
Proof.
  destruct (accepted_unit_runs_afterQueued Samples.advance_seed Samples.no_serialize
              Samples.no_updateLink Samples.store_order false 5 Samples.accept_all
              advance_seed_stable
              Samples.accepted_state 0%nat
              {| Queue.item := {| Queue.number := 0; Queue.batchCount := 2 |};
                 Queue.i := 0; Queue.hung := false |}
              (Samples.seeded_graph None (Some 0%nat))
              (Samples.prompt_of (Samples.sample_compile Samples.advance_seed 5
                                    (Samples.seeded_graph None (Some 0%nat))))
              None)
    as (Hgraph & (tail & Hlog & Htail) & Hrun).
  - by apply (bool_decide_unpack _).
  - reflexivity.
  - reflexivity.
  - vm_compute. reflexivity.
  - reflexivity.
  - cbv zeta. split_and!.
    + change (Samples.sample_run Samples.advance_seed Samples.accept_all
                [Queue.Call 0 2; Queue.Resume 0] (Samples.seeded_graph None (Some 0%nat)))
        with (Queue.resume Samples.advance_seed Samples.no_serialize Samples.no_updateLink
                Samples.store_order false 5 Samples.accept_all 0 Samples.accepted_state).
      rewrite Hgraph. vm_compute. reflexivity.
    + vm_compute. reflexivity.
    + apply Hrun. simpl. lia.
Defined.

(** C6, as the claim states it, fails: the submission for request 0 is
    rejected; no [afterQueued] callback runs, and the next unit, the first
    of request 1, compiles the graph with the seed as it was. *)
Lemma rejected_unit_skips_afterQueued :
  let st' := Samples.sample_run Samples.advance_seed Samples.reject_first
               [Queue.Call 0 1; Queue.Call 1 1; Queue.Resume 0]
               (Samples.seeded_graph None (Some 0%nat)) in
  Queue.callbacks_of (Samples.seeded_graph None (Some 0%nat)) = [0%nat] ∧
  Queue.log st' = [Queue.Compile true; Queue.Submit 0 false; Queue.Dialog] ∧
  Samples.seed_of (Queue.graph st') = Some (Compiler.WNumber 7) ∧
  Queue.running st'
  = [{| Queue.item := {| Queue.number := 1; Queue.batchCount := 1 |};
        Queue.i := 0; Queue.hung := false |}].
Proof. vm_compute. repeat split; reflexivity. Qed.

(** * Compiling twice *)

Section TwiceFacts.
Import Compiler.

Variable run_hook : HookId → Graph → Graph.
Variable serialize_hook : HookId → Graph → NodeData → nat → WidgetValue.
Variable updateLink_hook : HookId → LLink → option LLink.
Variable computeExecutionOrder : Graph → list Z.
Variable devMode : bool.

Lemma run_beforeQueued_quiet ws g :
  forallb (fun w => bool_decide (beforeQueued w = None)) ws = true →
  run_beforeQueued run_hook ws g = g.
Proof.
  unfold run_beforeQueued. induction ws as [|w ws IH]; [done|].
  simpl. intros [Hw Hws]%andb_prop. apply bool_decide_eq_true in Hw.
  rewrite Hw. simpl. by apply IH.
Qed.

Lemma run_applyToGraph_quiet (ns : list NodeData) g :
  forallb (fun m : NodeData => negb (isVirtualNode m) || bool_decide (applyToGraph m = None))
    ns = true →
  run_applyToGraph run_hook ns g = g.
Proof.
  unfold run_applyToGraph. induction ns as [|m ns IH]; [done|].
  simpl. intros [Hm Hns]%andb_prop.
  destruct (isVirtualNode m); simpl in Hm; [|by apply IH].
  apply bool_decide_eq_true in Hm. rewrite Hm. simpl. by apply IH.
Qed.

Lemma before_node_quiet g i : quiet g = true → before_node run_hook g i = g.
Proof.
  unfold quiet, before_node. rewrite forallb_forall. intros Hq.
  destruct (getNodeById g i) as [n|] eqn:Hn; [|done].
  apply getNodeById_in, list_elem_of_In, Hq in Hn.
  apply andb_prop in Hn as [Hw Hi].
  by rewrite run_beforeQueued_quiet, run_applyToGraph_quiet.
Qed.

Lemma first_pass_quiet g :
  quiet g = true → first_pass run_hook computeExecutionOrder g = g.
Proof.
  intros Hq. unfold first_pass.
  induction (computeExecutionOrder g) as [|i order IH]; [done|].
  simpl. by rewrite before_node_quiet.
Qed.

End TwiceFacts.

Section AgainFacts.
Import Compiler Compiled Twice.

Variable inner : Node → option (list NodeData).
Variable g : Graph.

Local Abbreviation g' := (answering inner g).
Local Abbreviation asked := (fun n : Node => {| self := self n; getInnerNodes := inner n |}).

Lemma getNodeById_answering i : getNodeById g' i = asked <$> getNodeById g i.
Proof.
  unfold getNodeById, answering. simpl.
  induction (nodes g) as [|n ns IH]; [done|].
  rewrite fmap_cons. simpl. destruct (id n =? i); [done|apply IH].
Qed.

Lemma getInputLink_answering n j : getInputLink g' n j = getInputLink g n j.
Proof. done. Qed.

Lemma getInputNode_answering n j : getInputNode g' n j = asked <$> getInputNode g n j.
Proof.
  unfold getInputNode. rewrite ?getInputLink_answering.
  destruct (getInputLink g n j) as [l|]; [|done]. simpl. apply getNodeById_answering.
Qed.

Lemma loop_body_answering ty parent link :
  loop_body g' ty parent link = loop_body g ty parent link.
Proof.
  unfold loop_body.
  destruct (isVirtualNode parent).
  - destruct link as [l|]; [|done]. rewrite ?getInputLink_answering.
    destruct (getInputLink g parent (origin_slot l)) as [l'|]; [|done].
    rewrite getInputNode_answering. by destruct (getInputNode g parent (target_slot l')).
  - destruct link as [l|]; [|done]. destruct (mode parent =? 4); [|done].
    destruct (List.find _ _) as [j|]; [|done].
    rewrite ?getInputLink_answering. destruct (getInputLink g parent j); [|done].
    rewrite getInputNode_answering. by destruct (getInputNode g parent j).
Qed.

Lemma bypass_loop_answering fuel ty : ∀ parent link,
  bypass_loop fuel g' ty parent link = bypass_loop fuel g ty parent link.
Proof.
  induction fuel as [|fuel IH]; intros parent link; [done|].
  simpl. destruct parent as [p|]; [|done]. destruct (bypassed p); [|done].
  rewrite loop_body_answering. destruct (loop_body g ty p link) as [[[found p'] l']| |]; [|done|done].
  simpl. destruct found; [apply IH|done].
Qed.

Variables first again : Answers.
Variable fuel : nat.

Local Abbreviation agree_on := (agree_on first again inner fuel g).

Lemma resolve_input_again node i s :
  (∀ h l, (h, l) ∈ link_call fuel g node i s →
     updateLink_hook again h l = updateLink_hook first h l) →
  resolve_input (updateLink_hook again) fuel g' node i s
  = resolve_input (updateLink_hook first) fuel g node i s.
Proof.
  unfold resolve_input, link_call. rewrite getInputNode_answering.
  destruct (getInputNode g node i) as [parent|]; simpl; [|done].
  rewrite bypass_loop_answering.
  destruct (bypass_loop fuel g (slot_type s) _ _) as [[p l]| |]; simpl; [|done|done].
  intros H. f_equal. unfold final_link. destruct l as [l|]; [|done].
  destruct p as [p|]; simpl; [|done]. destruct (updateLink p) as [h|]; [|done].
  apply H. apply list_elem_of_here.
Qed.

Lemma store_links_again node : ∀ ss i inputs,
  (∀ h l, (h, l) ∈ link_calls fuel g node i ss →
     updateLink_hook again h l = updateLink_hook first h l) →
  store_links (updateLink_hook again) fuel g' node i ss inputs
  = store_links (updateLink_hook first) fuel g node i ss inputs.
Proof.
  induction ss as [|s ss IH]; intros i inputs H; [done|].
  simpl. rewrite resolve_input_again.
  - destruct (resolve_input _ fuel g node i s) as [r| |]; simpl; [|done|done].
    apply IH. intros h l Hin. apply H. simpl. apply elem_of_app. by right.
  - intros h l Hin. apply H. simpl. apply elem_of_app. by left.
Qed.

Lemma store_widgets_again node : ∀ ws i inputs,
  (∀ h j, (h, node, j) ∈ widget_calls node i ws →
     serialize_hook again h g' node j = serialize_hook first h g node j) →
  store_widgets (serialize_hook again) g' node i ws inputs
  = store_widgets (serialize_hook first) g node i ws inputs.
Proof.
  induction ws as [|w ws IH]; intros i inputs H; [done|].
  simpl. simpl in H.
  assert ((if serialize w
           then <[w_name w := Literal (widget_input (serialize_hook again) g' node i w)]> inputs
           else inputs)
          = (if serialize w
             then <[w_name w := Literal (widget_input (serialize_hook first) g node i w)]> inputs
             else inputs)) as ->.
  { unfold widget_input. destruct (serialize w); [|done].
    destruct (serializeValue w) as [h|]; [|done].
    rewrite H; [done|]. apply list_elem_of_here. }
  apply IH. intros h j Hin. apply H. apply elem_of_app. by right.
Qed.

Lemma node_data_again node :
  devMode again = devMode first →
  agree_on node →
  node_data (serialize_hook again) (updateLink_hook again) (devMode again) fuel g' node
  = node_data (serialize_hook first) (updateLink_hook first) (devMode first) fuel g node.
Proof.
  intros Hdev [Hw Hl]. unfold node_data.
  rewrite store_widgets_again, store_links_again, Hdev by done. done.
Qed.

Lemma compile_inner_again : ∀ ns output,
  devMode again = devMode first →
  (∀ node, node ∈ ns → compiled node = true → agree_on node) →
  compile_inner (serialize_hook again) (updateLink_hook again) (devMode again) fuel g' ns output
  = compile_inner (serialize_hook first) (updateLink_hook first) (devMode first) fuel g ns
      output.
Proof.
  induction ns as [|node ns IH]; intros output Hdev H; [done|].
  assert (∀ out, compile_inner (serialize_hook again) (updateLink_hook again) (devMode again)
                   fuel g' ns out
                 = compile_inner (serialize_hook first) (updateLink_hook first)
                     (devMode first) fuel g ns out) as Hrest.
  { intros out. apply IH; [done|]. intros n Hn. apply H. by right. }
  simpl. destruct (isVirtualNode node) eqn:Hv; [apply Hrest|].
  destruct (muted node) eqn:Hm; [apply Hrest|].
  rewrite node_data_again; [|done|].
  - destruct (node_data _ _ _ fuel g node); simpl; [apply Hrest|done|done].
  - apply H; [by left|]. unfold compiled. by rewrite Hv, Hm.
Qed.

Lemma compile_outer_again : ∀ order output,
  devMode again = devMode first →
  (∀ i n, i ∈ order → getNodeById g i = Some n → inner n = getInnerNodes n) →
  (∀ node, node ∈ built g order → agree_on node) →
  compile_outer (serialize_hook again) (updateLink_hook again) (devMode again) fuel g' order
    output
  = compile_outer (serialize_hook first) (updateLink_hook first) (devMode first) fuel g order
      output.
Proof.
  induction order as [|i order IH]; intros output Hdev Hinner Hagree; [done|].
  assert (∀ out, compile_outer (serialize_hook again) (updateLink_hook again) (devMode again)
                   fuel g' order out
                 = compile_outer (serialize_hook first) (updateLink_hook first)
                     (devMode first) fuel g order out) as Hrest.
  { intros out. apply IH; [done| |].
    - intros j n Hj. apply Hinner. by right.
    - intros node Hnode. apply Hagree. unfold built, visited in *.
      apply list_elem_of_filter in Hnode as [Hc Hnode]. apply list_elem_of_filter.
      split; [done|]. simpl. apply elem_of_app. by right. }
  simpl. rewrite getNodeById_answering.
  destruct (getNodeById g i) as [n|] eqn:Hn; simpl; [|apply Hrest].
  assert (innerNodes_unless_skipped (asked n) = innerNodes_unless_skipped n) as ->.
  { unfold innerNodes_unless_skipped. simpl. rewrite (Hinner i n); [done|by left|done]. }
  rewrite compile_inner_again; [|done|].
  - destruct (compile_inner _ _ _ fuel g _ output); simpl; [apply Hrest|done|done].
  - intros node Hnode Hc. apply Hagree. unfold built, visited.
    apply list_elem_of_filter. split; [done|]. simpl. rewrite Hn.
    apply elem_of_app. by left.
Qed.

Lemma first_pass_again order :
  quiet g = true →
  (∀ i n, i ∈ order → getNodeById g i = Some n → inner n = getInnerNodes n) →
  foldl (before_node (run_hook again)) g' order = g'.
Proof.
  intros Hq. induction order as [|i order IH]; intros Hinner; [done|].
  simpl. assert (before_node (run_hook again) g' i = g') as ->.
  { unfold before_node. rewrite getNodeById_answering.
    destruct (getNodeById g i) as [n|] eqn:Hn; [|done]. simpl.
    unfold quiet in Hq. rewrite forallb_forall in Hq.
    pose proof Hn as Hin. apply getNodeById_in, list_elem_of_In, Hq in Hin.
    apply andb_prop in Hin as [Hw Hi].
    rewrite run_beforeQueued_quiet by done.
    apply run_applyToGraph_quiet. unfold innerNodes_of in *. simpl.
    rewrite (Hinner i n); [done|by left|done]. }
  apply IH. intros j n Hj. apply Hinner. by right.
Qed.

End AgainFacts.

Section TwiceAgain.
Import Compiler Compiled Twice.

(** C8, amended: on a graph where no widget declares a [beforeQueued]
    callback and no virtual node an [applyToGraph] one, compiling leaves
    the graph as it is; and when, at a second compilation, the execution
    order, [getInnerNodes], [serializeValue], [updateLink] and the setting
    answer as they did at the first on the calls the compilation makes, the
    second compilation leaves the graph as it is too and ends as the first
    did: with the same steps under the same keys, holding the same values
    and the same reference pairs, or with the same failure. *)
Theorem graphToPrompt_twice first again inner fuel g :
  quiet g = true →
  same_answers first again inner fuel g →
  let r1 := compile first fuel g in
  let r2 := compile again fuel (answering inner r1.1) in
  r1.1 = g ∧ r2.1 = answering inner g ∧ steps r2.2 = steps r1.2.
Proof.
  intros Hq (Horder & Hinner & Hagree & Hdev). cbv zeta.
  unfold compile, graphToPrompt. cbn [fst snd].
  rewrite (first_pass_quiet _ _ g Hq).
  assert (first_pass (run_hook again) (computeExecutionOrder again) (answering inner g)
          = answering inner g) as ->.
  { unfold first_pass. rewrite Horder. by apply first_pass_again. }
  split; [done|]. split; [done|]. rewrite Horder.
  rewrite (compile_outer_again inner g first again fuel) by done.
  by destruct (compile_outer _ _ _ fuel g _ ∅).
Qed.

End TwiceAgain.

Lemma graphToPrompt_twice_witness :
  let r1 := Twice.compile Cases.first_answers 5 Cases.hooked_graph in
  let r2 := Twice.compile Cases.later_answers 5 (Twice.answering Cases.no_inner r1.1) in
  r1.1 = Cases.hooked_graph ∧
  r2.1 = Twice.answering Cases.no_inner Cases.hooked_graph ∧
  Twice.steps r2.2 = Twice.steps r1.2.
Proof.
  apply graphToPrompt_twice; [reflexivity|].
  split_and!.
  - reflexivity.
  - intros i n _ Hn. apply getNodeById_in in Hn.
    repeat (apply elem_of_cons in Hn as [->|Hn]; [reflexivity|]).
    by apply elem_of_nil in Hn.
  - intros node Hnode.
    assert (Twice.built Cases.hooked_graph
              (Twice.computeExecutionOrder Cases.first_answers Cases.hooked_graph)
            = [Compiler.self (Samples.node 1 0 false "LoadImage" [] [Cases.upload 0%nat]);
               Compiler.self (Samples.node 3 0 false "SaveImage"
                                [Samples.slot "images" "IMAGE" (Some 50)] [])]) as Hbuilt
      by (vm_compute; reflexivity).
    rewrite Hbuilt in Hnode.
    apply elem_of_cons in Hnode as [->|Hnode];
      [|apply list_elem_of_singleton in Hnode as ->]; split; intros h j Hin.
    + apply list_elem_of_singleton in Hin. by injection Hin as -> _.
    + by apply elem_of_nil in Hin.
    + by apply elem_of_nil in Hin.
    + vm_compute in Hin. by apply elem_of_nil in Hin.
  - reflexivity.
Defined.

(** C8, as the claim states it, fails: the seed widget of the sampler
    declares a [beforeQueued] callback that advances it; nobody edits the
    graph, and the second compilation returns another seed. *)
Lemma graphToPrompt_twice_differs :
  let r1 := Samples.sample_compile Samples.advance_seed 5
              (Samples.seeded_graph (Some 0%nat) None) in
  let r2 := Samples.sample_compile Samples.advance_seed 5 r1.1 in
  Samples.inputs_of (Samples.prompt_of r1) "2"
  = [("seed", Compiler.Literal (Compiler.WNumber 8)); ("image", Compiler.Reference "1" 0)] ∧
  Samples.inputs_of (Samples.prompt_of r2) "2"
  = [("seed", Compiler.Literal (Compiler.WNumber 9)); ("image", Compiler.Reference "1" 0)].
Proof. vm_compute. split; reflexivity. Qed.

(** C2, as the claim states it, fails: of three requests enqueued before
    the first unit ends, the last enqueued is submitted before the second;
    and a request whose first submission is rejected is not submitted in
    full. *)
Lemma requests_out_of_order :
  let st := Samples.sample_run Samples.idle_hook Samples.accept_all
              [Queue.Call 0 1; Queue.Call 1 1; Queue.Call 2 1;
               Queue.Resume 0; Queue.Resume 0; Queue.Resume 0] Samples.plain_graph in
  let st' := Samples.sample_run Samples.idle_hook Samples.reject_first
               [Queue.Call 0 2; Queue.Resume 0; Queue.Resume 0] Samples.plain_graph in
  Queue.submitted (Queue.log st) = [0; 2; 1] ∧
  Queue.processingQueue st = false ∧
  Queue.submitted (Queue.log st') = [0] ∧
  Queue.processingQueue st' = false.
Proof. vm_compute. repeat split; reflexivity. Qed.

Lemma requests_processed_witness :
  (∀ es,
     let st := Samples.sample_run Samples.idle_hook Samples.accept_all es Samples.plain_graph in
     Queue.called es ≡ₚ Queue.submitted (Queue.log st) ++ Queue.pending_units st ∧
     (Queue.idle st → Queue.called es ≡ₚ Queue.submitted (Queue.log st))) ∧
  (∀ na ba nb bb k,
     (k < Z.to_nat ba)%nat →
     let st := Samples.sample_run Samples.idle_hook Samples.accept_all
                 ([Queue.Call na ba] ++ repeat (Queue.Resume 0) k ++ [Queue.Call nb bb]
                  ++ repeat (Queue.Resume 0) (Z.to_nat ba - k)
                  ++ repeat (Queue.Resume 0) (Z.to_nat bb))
                 Samples.plain_graph in
     Queue.submitted (Queue.log st)
     = Queue.units {| Queue.number := na; Queue.batchCount := ba |}
       ++ Queue.units {| Queue.number := nb; Queue.batchCount := bb |} ∧
     Queue.idle st).
Proof.
  apply (requests_processed Samples.idle_hook Samples.no_serialize Samples.no_updateLink
           Samples.store_order false 5 Samples.accept_all
           (fun g => g = Samples.plain_graph)).
  - intros g ->. eexists _, _. split; vm_compute; reflexivity.
  - intros n p k. by eexists.
  - reflexivity.
Defined.

(** * The loop over the nodes of a loaded document *)

Section NamesFacts.
Import Load Names.

Variable registered_node_types : string → bool.

Lemma sanitized_plain s : plain_name (sanitizeNodeName s) = true.
Proof.
  unfold plain_name. induction s as [|c s IH]; simpl; [done|].
  destruct (is_stripped c) eqn:Hc; simpl; [done|]. by rewrite Hc.
Qed.

(** X1: [sanitizeNodeName] leaves none of the seven characters it
    removes. *)
Theorem sanitizeNodeName_plain s : plain_name (sanitizeNodeName s) = true.
Proof. apply sanitized_plain. Qed.

(** X2: [sanitizeNodeName] returns its argument unchanged exactly when
    the argument holds none of those characters. *)
Theorem sanitizeNodeName_unchanged_iff s :
  sanitizeNodeName s = s ↔ plain_name s = true.
Proof.
  split.
  - intros H. rewrite <- H. apply sanitized_plain.
  - unfold plain_name. induction s as [|c s IH]; simpl; [done|].
    intros [Hc Hs]%andb_true_iff. apply negb_true_iff in Hc. rewrite Hc.
    by rewrite IH.
Qed.

Lemma load_nodes_missing ns : ∀ missingNodeTypes,
  (load_nodes registered_node_types ns missingNodeTypes).2
  = missingNodeTypes
    ++ filter (fun t => registered_node_types t = false) (patched_type <$> ns).
Proof.
  induction ns as [|n ns IH]; intros m; simpl; [by rewrite app_nil_r|].
  unfold load_node at 1. unfold patched_type at 1.
  destruct (registered_node_types (type (patch_type n))) eqn:Hr.
  - specialize (IH (m ++ [])).
    destruct (load_nodes registered_node_types ns (m ++ [])) as [rest' m'].
    simpl in *. rewrite IH, app_nil_r.
    rewrite filter_cons_False; [done|]. by rewrite Hr.
  - specialize (IH (m ++ [type (patch_type n)])).
    destruct (load_nodes registered_node_types ns _) as [rest' m'].
    simpl in *. rewrite IH, <- app_assoc. simpl.
    by rewrite filter_cons_True.
Qed.

(** X3: the list of missing node types the loop builds holds, in the
    order of the document and with repetitions, the types of the nodes
    that are not registered, as they are spelled after the three patches
    and before [sanitizeNodeName]. *)
Theorem normalize_missing graphData :
  (normalize registered_node_types graphData).2
  = filter (fun t => registered_node_types t = false) (patched_type <$> nodes graphData).
Proof.
  unfold normalize.
  pose proof (load_nodes_missing (nodes graphData) []) as H.
  destruct (load_nodes registered_node_types (nodes graphData) []) as [ns m].
  simpl in *. by rewrite H.
Qed.

Lemma load_node_type n :
  let n' := (load_node registered_node_types n).1 in
  registered_node_types (type n') || plain_name (type n') = true.
Proof.
  unfold load_node.
  destruct (registered_node_types (type (patch_type n))) eqn:Hr; simpl.
  - by rewrite Hr.
  - rewrite sanitized_plain. apply orb_true_r.
Qed.

Lemma load_nodes_types ns missingNodeTypes :
  forallb (fun n => registered_node_types (type n) || plain_name (type n))
    (load_nodes registered_node_types ns missingNodeTypes).1 = true.
Proof.
  revert missingNodeTypes.
  induction ns as [|n ns IH]; intros m; simpl; [done|].
  pose proof (load_node_type n) as Hn.
  destruct (load_node registered_node_types n) as [n' pushed].
  specialize (IH (m ++ pushed)).
  destruct (load_nodes registered_node_types ns (m ++ pushed)) as [rest' m'].
  simpl in *. by rewrite Hn, IH.
Qed.

(** X4: in the document handed to [configure] every node has a type that
    is registered or holds none of the characters [sanitizeNodeName]
    removes. *)
Theorem normalize_types graphData :
  forallb (fun n => registered_node_types (type n) || plain_name (type n))
    (nodes (normalize registered_node_types graphData).1) = true.
Proof.
  unfold normalize.
  pose proof (load_nodes_types (nodes graphData) []) as H.
  by destruct (load_nodes registered_node_types (nodes graphData) []) as [ns m].
Qed.

Lemma patch_type_settled n :
  existsb (String.eqb (type n)) legacy_types = false → patch_type n = n.
Proof.
  unfold legacy_types, patch_type. simpl. rewrite orb_false_r.
  intros [H1 [H2 H3]%orb_false_iff]%orb_false_iff. by rewrite H1, H2, H3.
Qed.

(** X5: a document whose nodes all have a registered type that is not a
    legacy spelling goes through the loop unchanged, and no type is
    reported missing. *)
Theorem normalize_settled graphData :
  forallb (settled registered_node_types) (nodes graphData) = true →
  normalize registered_node_types graphData = (graphData, []).
Proof.
  destruct graphData as [ns]. unfold normalize. simpl. intros Hall.
  assert (∀ m, load_nodes registered_node_types ns m = (ns, m)) as H.
  { induction ns as [|n ns IH]; intros m; simpl; [done|].
    simpl in Hall. apply andb_true_iff in Hall as [Hn Hall].
    apply andb_true_iff in Hn as [Hleg%negb_true_iff Hreg].
    unfold load_node. rewrite (patch_type_settled n Hleg), Hreg.
    rewrite IH by done. by rewrite app_nil_r. }
  by rewrite H.
Qed.

End NamesFacts.

Lemma normalize_settled_witness :
  Load.normalize Cases.all_registered Cases.settled_document = (Cases.settled_document, []).
Proof.
  apply (normalize_settled Cases.all_registered Cases.settled_document).
  vm_compute. reflexivity.
Defined.

(** * What the cleanup pass keeps *)

Section CompiledFacts.
Import Compiler Compiled.

Implicit Types output out : gmap string WorkflowStep.
Implicit Types inputs : gmap string InputValue.

Lemma prune_inputs_live output inputs :
  prune_inputs output (keys inputs) inputs = live_inputs output inputs.
Proof.
  destruct (prune_inputs_inv output (keys inputs) inputs) as (Hsub & Hkeep & Hrefs).
  apply map_eq. intros i. apply option_eq. intros v.
  unfold live_inputs. rewrite map_lookup_filter_Some. simpl. split.
  - intros Hi. split; [by apply Hsub|].
    destruct v as [w|k s]; [done|]. simpl.
    apply bool_decide_eq_false. apply not_eq_None_Some.
    eapply Hrefs; [|exact Hi]. apply elem_of_keys. apply Hsub in Hi. eauto.
  - intros [Hi Hnd]. by apply Hkeep.
Qed.

Lemma prune_step_live output step : prune_step output step = live_step output step.
Proof. unfold prune_step, live_step. by rewrite prune_inputs_live. Qed.

Lemma live_step_dom output output' step :
  dom output = dom output' → live_step output step = live_step output' step.
Proof.
  intros Hdom. unfold live_step, live_inputs. f_equal.
  apply map_filter_ext. intros i v _. simpl. by rewrite (dangling_dom output output').
Qed.

Lemma cleanup_fold output ks :
  NoDup ks →
  ∀ o, foldl (fun out o => alter (prune_step out) o out) output ks !! o
       = if decide (o ∈ ks) then live_step output <$> output !! o else output !! o.
Proof.
  induction ks as [|j ks IH] using rev_ind; intros Hnd o.
  - simpl. destruct (decide (o ∈ [])) as [Hin|]; [by apply elem_of_nil in Hin|done].
  - apply NoDup_app in Hnd as (Hnd & Hj & _).
    assert (j ∉ ks) as Hjks.
    { intros Hin. apply (Hj j Hin). by apply list_elem_of_singleton. }
    rewrite foldl_app. simpl.
    destruct (cleanup_inv output ks) as (Hdom & _ & _).
    set (out := foldl _ output ks) in *.
    specialize (IH Hnd).
    destruct (decide (o = j)) as [->|Hne].
    + rewrite lookup_alter_eq, IH.
      rewrite decide_False by done.
      rewrite decide_True by (apply elem_of_app; right; by apply list_elem_of_singleton).
      destruct (output !! j) as [step|]; [|done]. simpl.
      by rewrite prune_step_live, (live_step_dom out output).
    + rewrite lookup_alter_ne by done. rewrite IH.
      destruct (decide (o ∈ ks)) as [Hin|Hin].
      * rewrite decide_True by (apply elem_of_app; by left). done.
      * rewrite decide_False; [done|].
        intros [?|?%list_elem_of_singleton]%elem_of_app; done.
Qed.

Lemma cleanup_lookup output o : cleanup output !! o = live_step output <$> output !! o.
Proof.
  unfold cleanup. rewrite cleanup_fold by apply NoDup_fst_map_to_list.
  destruct (decide (o ∈ keys output)) as [Hin|Hin]; [done|].
  destruct (output !! o) as [step|] eqn:Ho; [|done].
  exfalso. apply Hin. apply elem_of_keys. eauto.
Qed.

(** X6: the cleanup pass keeps the keys, the class and the meta data of
    every step, and of its inputs exactly the literals and the pairs whose
    origin is a key of the output. *)
Theorem cleanup_live output : cleanup output = live_step output <$> output.
Proof.
  apply map_eq. intros o. by rewrite cleanup_lookup, lookup_fmap.
Qed.

End CompiledFacts.

(** * Where the steps of the output come from *)

Section StepFacts.
Import Compiler Compiled.

Variable serialize_hook : HookId → Graph → NodeData → nat → WidgetValue.
Variable updateLink_hook : HookId → LLink → option LLink.
Variable devMode : bool.
Variable fuel : nat.
Variable g : Graph.

Local Abbreviation store_widgets := (store_widgets serialize_hook g).
Local Abbreviation widget_input := (widget_input serialize_hook g).
Local Abbreviation resolve_input := (resolve_input updateLink_hook fuel g).
Local Abbreviation store_links := (store_links updateLink_hook fuel g).
Local Abbreviation node_data := (node_data serialize_hook updateLink_hook devMode fuel g).
Local Abbreviation compile_inner :=
  (compile_inner serialize_hook updateLink_hook devMode fuel g).
Local Abbreviation compile_outer :=
  (compile_outer serialize_hook updateLink_hook devMode fuel g).
Local Abbreviation entry_of := (entry_of serialize_hook updateLink_hook fuel g).

Lemma store_widgets_entries node ws : ∀ i inputs j v,
  store_widgets node i ws inputs !! j = Some v →
  inputs !! j = Some v
  ∨ ∃ n w, ws !! n = Some w ∧ w_name w = j ∧ serialize w = true ∧
           v = Literal (widget_input node (i + n) w).
Proof.
  induction ws as [|w ws IH]; intros i inputs j v H; [by left|].
  simpl in H. apply IH in H as [H|(n & w' & Hn & Hj & Hs & Hv)].
  - destruct (serialize w) eqn:Hs; [|by left].
    destruct (decide (w_name w = j)) as [Hj|Hj].
    + rewrite <- Hj, lookup_insert_eq in H. injection H as <-.
      right. exists 0%nat, w. by rewrite Nat.add_0_r.
    + rewrite lookup_insert_ne in H by done. by left.
  - right. exists (S n), w'. split_and!; [done..|].
    by replace (i + S n)%nat with (S i + n)%nat by lia.
Qed.

Lemma store_links_entries node ss : ∀ i inputs inputs' j v,
  store_links node i ss inputs = Done inputs' →
  inputs' !! j = Some v →
  inputs !! j = Some v
  ∨ ∃ n s l, ss !! n = Some s ∧ slot_name s = j ∧
             resolve_input node (i + n) s = Done (Some l) ∧ v = reference_of l.
Proof.
  induction ss as [|s ss IH]; intros i inputs inputs' j v H Hj.
  - injection H as <-. by left.
  - simpl in H. destruct (resolve_input node i s) as [r| |] eqn:Hr; simpl in H; [|done|done].
    destruct (IH _ _ _ _ _ H Hj) as [Hin|(n & s' & l & Hn & Hs & Hres & Hv)].
    + destruct r as [l|]; [|by left].
      destruct (decide (slot_name s = j)) as [Hs|Hs].
      * rewrite <- Hs, lookup_insert_eq in Hin. injection Hin as <-.
        right. exists 0%nat, s, l. by rewrite Nat.add_0_r.
      * rewrite lookup_insert_ne in Hin by done. by left.
    + right. exists (S n), s', l. split_and!; [done..| |done].
      by replace (i + S n)%nat with (S i + n)%nat by lia.
Qed.

Lemma node_data_entries node step :
  node_data node = Done step →
  class_type step = comfyClass node ∧
  _meta step = (if devMode then Some (title node) else None) ∧
  ∀ j v, step_inputs step !! j = Some v → entry_of node j v.
Proof.
  unfold Compiler.node_data. intros H.
  destruct (store_links node 0 (inputs node) _) as [ins| |] eqn:Hl; simpl in H; [|done|done].
  injection H as <-. simpl. split_and!; [done|done|].
  intros j v Hj.
  destruct (store_links_entries _ _ _ _ _ _ _ Hl Hj) as [Hw|Hs]; [|by right].
  apply store_widgets_entries in Hw as [Hw|Hw]; [by rewrite lookup_empty in Hw|by left].
Qed.

Lemma compile_inner_steps ns : ∀ out out' k step,
  compile_inner ns out = Done out' →
  out' !! k = Some step →
  out !! k = Some step
  ∨ ∃ node, node ∈ ns ∧ compiled node = true ∧ k = String_ (id node) ∧
            node_data node = Done step.
Proof.
  induction ns as [|node ns IH]; intros out out' k step H Hk.
  - injection H as <-. by left.
  - simpl in H. unfold compiled.
    destruct (isVirtualNode node) eqn:Hv.
    { destruct (IH _ _ _ _ H Hk) as [?|(n & Hn & ?)]; [by left|].
      right. exists n. split; [by apply list_elem_of_further|done]. }
    destruct (muted node) eqn:Hm.
    { destruct (IH _ _ _ _ H Hk) as [?|(n & Hn & ?)]; [by left|].
      right. exists n. split; [by apply list_elem_of_further|done]. }
    destruct (node_data node) as [st| |] eqn:Hd; simpl in H; [|done|done].
    destruct (IH _ _ _ _ H Hk) as [Hin|(n & Hn & ?)].
    + destruct (decide (String_ (id node) = k)) as [Hid|Hid].
      * rewrite <- Hid, lookup_insert_eq in Hin. injection Hin as <-.
        right. exists node. rewrite Hv, Hm. split_and!; [apply list_elem_of_here|done..].
      * rewrite lookup_insert_ne in Hin by done. by left.
    + right. exists n. split; [by apply list_elem_of_further|done].
Qed.

Lemma compile_inner_keys ns : ∀ out out',
  compile_inner ns out = Done out' →
  (∀ k, is_Some (out !! k) → is_Some (out' !! k)) ∧
  (∀ node, node ∈ ns → compiled node = true → is_Some (out' !! String_ (id node))).
Proof.
  induction ns as [|node ns IH]; intros out out' H.
  - injection H as <-. split; [done|]. intros node Hin. by apply elem_of_nil in Hin.
  - simpl in H. unfold compiled in *.
    destruct (isVirtualNode node) eqn:Hv.
    { destruct (IH _ _ H) as [Hold Hnew]. split; [done|].
      intros n [->|Hn]%elem_of_cons Hc; [by rewrite Hv in Hc|by apply Hnew]. }
    destruct (muted node) eqn:Hm.
    { destruct (IH _ _ H) as [Hold Hnew]. split; [done|].
      intros n [->|Hn]%elem_of_cons Hc; [by rewrite Hv, Hm in Hc|by apply Hnew]. }
    destruct (node_data node) as [st| |] eqn:Hd; simpl in H; [|done|done].
    destruct (IH _ _ H) as [Hold Hnew]. split.
    + intros k Hk. apply Hold.
      destruct (decide (String_ (id node) = k)) as [<-|Hne];
        [by rewrite lookup_insert_eq|by rewrite lookup_insert_ne].
    + intros n [->|Hn]%elem_of_cons Hc; [|by apply Hnew].
      apply Hold. by rewrite lookup_insert_eq.
Qed.

Lemma elem_of_visited node i order :
  node ∈ visited g (i :: order) ↔
  (∃ outerNode, getNodeById g i = Some outerNode ∧ node ∈ innerNodes_unless_skipped outerNode)
  ∨ node ∈ visited g order.
Proof.
  unfold visited. rewrite bind_cons, elem_of_app.
  destruct (getNodeById g i) as [outer|].
  - split; (intros [H|H]; [left|by right]).
    + by exists outer.
    + by destruct H as (o & [= <-] & H).
  - split; (intros [H|H]; [|by right]).
    + by apply elem_of_nil in H.
    + by destruct H as (o & [=] & _).
Qed.

Lemma compile_outer_steps order : ∀ out out' k step,
  compile_outer order out = Done out' →
  out' !! k = Some step →
  out !! k = Some step
  ∨ ∃ node, node ∈ visited g order ∧ compiled node = true ∧ k = String_ (id node) ∧
            node_data node = Done step.
Proof.
  induction order as [|i order IH]; intros out out' k step H Hk.
  - injection H as <-. by left.
  - simpl in H. destruct (getNodeById g i) as [outer|] eqn:Hi.
    + destruct (compile_inner _ out) as [out1| |] eqn:H1; simpl in H; [|done|done].
      destruct (IH _ _ _ _ H Hk) as [Hin|(n & Hn & ?)].
      * destruct (compile_inner_steps _ _ _ _ _ H1 Hin) as [?|(n & Hn & ?)]; [by left|].
        right. exists n. split; [|done]. apply elem_of_visited. left. eauto.
      * right. exists n. split; [|done]. apply elem_of_visited. by right.
    + destruct (IH _ _ _ _ H Hk) as [?|(n & Hn & ?)]; [by left|].
      right. exists n. split; [|done]. apply elem_of_visited. by right.
Qed.

Lemma compile_outer_keys order : ∀ out out',
  compile_outer order out = Done out' →
  (∀ k, is_Some (out !! k) → is_Some (out' !! k)) ∧
  (∀ node, node ∈ visited g order → compiled node = true →
           is_Some (out' !! String_ (id node))).
Proof.
  induction order as [|i order IH]; intros out out' H.
  - injection H as <-. split; [done|]. intros node Hin. by apply elem_of_nil in Hin.
  - simpl in H. destruct (getNodeById g i) as [outer|] eqn:Hi.
    + destruct (compile_inner _ out) as [out1| |] eqn:H1; simpl in H; [|done|done].
      destruct (IH _ _ H) as [Hold Hnew].
      destruct (compile_inner_keys _ _ _ H1) as [Hold1 Hnew1]. split; [by auto|].
      intros n [(o & Ho & Hn)|Hn]%elem_of_visited Hc; [|by apply Hnew].
      rewrite Hi in Ho. injection Ho as <-. by apply Hold, Hnew1.
    + destruct (IH _ _ H) as [Hold Hnew]. split; [done|].
      intros n [(o & Ho & Hn)|Hn]%elem_of_visited Hc; [by rewrite Hi in Ho|by apply Hnew].
Qed.

End StepFacts.

Section PromptFacts.
Import Compiler Compiled.

Variable run_hook : HookId → Graph → Graph.
Variable serialize_hook : HookId → Graph → NodeData → nat → WidgetValue.
Variable updateLink_hook : HookId → LLink → option LLink.
Variable computeExecutionOrder : Graph → list Z.
Variable devMode : bool.

Local Abbreviation graphToPrompt :=
  (graphToPrompt run_hook serialize_hook updateLink_hook computeExecutionOrder devMode).
Local Abbreviation first_pass := (first_pass run_hook computeExecutionOrder).

(** X7: the keys of the compiled output are the ids of the inner nodes
    gone through that are neither virtual nor muted nor bypassed. *)
Theorem graphToPrompt_keys fuel g p k :
  (graphToPrompt fuel g).2 = Done p →
  is_Some (output p !! k) ↔
  ∃ node, node ∈ visited (first_pass g) (computeExecutionOrder (first_pass g)) ∧
          compiled node = true ∧ k = String_ (id node).
Proof.
  unfold Compiler.graphToPrompt. cbn [snd].
  destruct (compile_outer _ _ _ _ _ _ ∅) as [out| |] eqn:Hc; simpl; [|done|done].
  intros [= <-]. cbn [output]. rewrite cleanup_lookup, fmap_is_Some. split.
  - intros [step Hk].
    destruct (compile_outer_steps _ _ _ _ _ _ _ _ _ _ Hc Hk) as [Hin|(n & Hn & Hcomp & Hid & _)];
      [by rewrite lookup_empty in Hin|eauto].
  - intros (n & Hn & Hcomp & ->).
    by apply (compile_outer_keys _ _ _ _ _ _ _ _ Hc).
Qed.

(** X8: every step of the compiled output is built from one of those
    nodes: it carries the class of the node, and each of its inputs is the
    value of a serialized widget of the node, under the name of the widget,
    or the pair of the link resolved for an input slot of the node, under
    the name of the slot. *)
Theorem graphToPrompt_steps fuel g p k step :
  (graphToPrompt fuel g).2 = Done p →
  output p !! k = Some step →
  ∃ node, node ∈ visited (first_pass g) (computeExecutionOrder (first_pass g)) ∧
          compiled node = true ∧ k = String_ (id node) ∧
          class_type step = comfyClass node ∧
          _meta step = (if devMode then Some (title node) else None) ∧
          ∀ j v, step_inputs step !! j = Some v →
                 entry_of serialize_hook updateLink_hook fuel (first_pass g) node j v.
Proof.
  unfold Compiler.graphToPrompt. cbn [snd].
  destruct (compile_outer _ _ _ _ _ _ ∅) as [out| |] eqn:Hc; simpl; [|done|done].
  intros [= <-]. cbn [output]. rewrite cleanup_lookup.
  destruct (out !! k) as [step0|] eqn:Hk; [|done]. simpl. intros [= <-].
  destruct (compile_outer_steps _ _ _ _ _ _ _ _ _ _ Hc Hk) as [Hin|(n & Hn & Hcomp & Hid & Hd)];
    [by rewrite lookup_empty in Hin|].
  apply node_data_entries in Hd as (Hclass & Hmeta & Hentries).
  exists n. split_and!; [done..|].
  intros j v Hj. apply Hentries.
  simpl in Hj. unfold live_inputs in Hj. by apply map_lookup_filter_Some in Hj as [Hj _].
Qed.

End PromptFacts.

Lemma graphToPrompt_keys_witness :
  is_Some (Compiler.output Samples.pruned_prompt !! "3") ↔
  ∃ node,
    node ∈ Compiled.visited
             (Compiler.first_pass Samples.idle_hook Samples.store_order Samples.pruned_graph)
             (Samples.store_order
                (Compiler.first_pass Samples.idle_hook Samples.store_order
                   Samples.pruned_graph)) ∧
    Compiled.compiled node = true ∧ "3" = Compiler.String_ (Compiler.id node).
Proof.
  apply (graphToPrompt_keys Samples.idle_hook Samples.no_serialize Samples.no_updateLink
           Samples.store_order false 5 Samples.pruned_graph Samples.pruned_prompt "3").
  vm_compute. reflexivity.
Defined.

Lemma graphToPrompt_steps_witness :
  ∃ node,
    node ∈ Compiled.visited
             (Compiler.first_pass Samples.idle_hook Samples.store_order Samples.pruned_graph)
             (Samples.store_order
                (Compiler.first_pass Samples.idle_hook Samples.store_order
                   Samples.pruned_graph)) ∧
    Compiled.compiled node = true ∧ "3" = Compiler.String_ (Compiler.id node) ∧
    Compiler.class_type (Samples.step_of Samples.pruned_prompt "3")
    = Compiler.comfyClass node ∧
    Compiler._meta (Samples.step_of Samples.pruned_prompt "3") = None ∧
    ∀ j v,
      Compiler.step_inputs (Samples.step_of Samples.pruned_prompt "3") !! j = Some v →
      Compiled.entry_of Samples.no_serialize Samples.no_updateLink 5
        (Compiler.first_pass Samples.idle_hook Samples.store_order Samples.pruned_graph)
        node j v.
Proof.
  apply (graphToPrompt_steps Samples.idle_hook Samples.no_serialize Samples.no_updateLink
           Samples.store_order false 5 Samples.pruned_graph Samples.pruned_prompt "3"
           (Samples.step_of Samples.pruned_prompt "3"));
    vm_compute; reflexivity.
Defined.

(** * The compilation returns *)

Section SucceedsFacts.
Import Compiler Compiled.

Variable g : Graph.
Hypothesis closed : links_closed g = true.

Lemma links_closed_spec k l :
  links g !! k = Some l → is_Some (getNodeById g (origin_id l)).
Proof.
  intros Hk. unfold links_closed in closed. rewrite forallb_forall in closed.
  specialize (closed (k, l)). simpl in closed.
  eapply bool_decide_eq_true_1, closed.
  apply list_elem_of_In. by apply elem_of_map_to_list.
Qed.

Lemma getInputLink_links (p : NodeData) j l :
  getInputLink g p j = Some l → ∃ k, links g !! k = Some l.
Proof.
  unfold getInputLink. intros H.
  destruct (inputs p !! j) as [s|]; simpl in H; [|done].
  destruct (link s) as [k|]; simpl in H; [|done]. eauto.
Qed.

Lemma getInputNode_closed (p : NodeData) j l :
  getInputLink g p j = Some l → is_Some (getInputNode g p j).
Proof.
  intros H. unfold getInputNode. rewrite H. simpl.
  apply getInputLink_links in H as [k Hk]. by eapply links_closed_spec.
Qed.

(** On a graph whose links all start at a node of the graph the loop never
    reads a property of a missing node or link. *)
Lemma bypass_loop_no_TypeError ty : ∀ fuel (p : NodeData) link,
  (isVirtualNode p = true → is_Some link) →
  bypass_loop fuel g ty (Some p) link ≠ TypeError.
Proof.
  induction fuel as [|fuel IH]; intros p link Hlink; [done|].
  simpl. destruct (bypassed p); [|done].
  unfold loop_body. destruct (isVirtualNode p) eqn:Hv.
  - destruct Hlink as [l ->]; [done|].
    destruct (getInputLink g p (origin_slot l)) as [l'|]; [|done].
    destruct (getInputNode g p (target_slot l')) as [p'|]; [|done].
    simpl. apply IH. eauto.
  - destruct link as [l|]; [|done].
    destruct (mode p =? 4); [|done].
    destruct (List.find _ _) as [j|]; [|done].
    destruct (getInputLink g p j) as [l'|] eqn:Hj; simpl.
    + destruct (getInputNode_closed _ _ _ Hj) as [p' ->]. simpl. apply IH. eauto.
    + apply IH. by rewrite Hv.
Qed.

Variable serialize_hook : HookId → Graph → NodeData → nat → WidgetValue.
Variable updateLink_hook : HookId → LLink → option LLink.
Variable devMode : bool.
Variable fuel : nat.

Lemma bind_no_TypeError {A B} (m : Outcome A) (k : A → Outcome B) :
  m ≠ TypeError → (∀ a, k a ≠ TypeError) → bind m k ≠ TypeError.
Proof. destruct m; simpl; auto. Qed.

Lemma resolve_input_no_TypeError node i s :
  resolve_input updateLink_hook fuel g node i s ≠ TypeError.
Proof.
  unfold resolve_input.
  destruct (getInputNode g node i) as [parent|] eqn:Hparent; [|done].
  apply bind_no_TypeError; [|done].
  apply bypass_loop_no_TypeError. intros _.
  unfold getInputNode in Hparent.
  destruct (getInputLink g node i); [eauto|done].
Qed.

Lemma store_links_no_TypeError node ss : ∀ i inputs,
  store_links updateLink_hook fuel g node i ss inputs ≠ TypeError.
Proof.
  induction ss as [|s ss IH]; intros i inputs; [done|].
  simpl. apply bind_no_TypeError; [apply resolve_input_no_TypeError|]. intros r. apply IH.
Qed.

Lemma compile_inner_no_TypeError ns : ∀ output,
  compile_inner serialize_hook updateLink_hook devMode fuel g ns output ≠ TypeError.
Proof.
  induction ns as [|node ns IH]; intros output; [done|].
  simpl. destruct (isVirtualNode node); [apply IH|].
  destruct (muted node); [apply IH|].
  apply bind_no_TypeError; [|intros step; apply IH].
  unfold node_data. apply bind_no_TypeError; [apply store_links_no_TypeError|done].
Qed.

Lemma compile_outer_no_TypeError order : ∀ output,
  compile_outer serialize_hook updateLink_hook devMode fuel g order output ≠ TypeError.
Proof.
  induction order as [|i order IH]; intros output; [done|].
  simpl. destruct (getNodeById g i); [|apply IH].
  apply bind_no_TypeError; [apply compile_inner_no_TypeError|]. intros out. apply IH.
Qed.

End SucceedsFacts.

Section Succeeds.
Import Compiler Compiled.

(** X9: on a graph that, after the callbacks of the first pass, has every
    link start at one of its nodes and no bypass chain coming back to a
    node, the compilation returns a prompt: it neither throws in the link
    pass nor runs for ever. *)
Theorem graphToPrompt_succeeds run_hook serialize_hook updateLink_hook computeExecutionOrder
    devMode g rank fuel :
  let g1 := first_pass run_hook computeExecutionOrder g in
  links_closed g1 = true →
  bypass_acyclic g1 rank = true →
  (∀ n : Node, n ∈ nodes g1 → (2 * rank (id n) + 2 ≤ fuel)%nat) →
  ∃ p, (graphToPrompt run_hook serialize_hook updateLink_hook
          computeExecutionOrder devMode fuel g).2 = Done p.
Proof.
  intros g1 Hclosed Hacyclic Henough. unfold graphToPrompt. cbn [snd].
  fold g1.
  pose proof (compile_outer_returns serialize_hook updateLink_hook devMode g1 rank fuel
                Hacyclic Henough (computeExecutionOrder g1) ∅) as Hfuel.
  pose proof (compile_outer_no_TypeError g1 Hclosed serialize_hook updateLink_hook devMode
                fuel (computeExecutionOrder g1) ∅) as Hthrow.
  destruct (compile_outer _ _ _ _ _ _ ∅) as [out| |]; [|done|done].
  simpl. eauto.
Qed.

End Succeeds.

Lemma graphToPrompt_succeeds_witness :
  ∃ p, (Compiler.graphToPrompt Samples.idle_hook Samples.no_serialize Samples.no_updateLink
          Samples.store_order false 10 Samples.bypass_graph).2 = Compiler.Done p.
Proof.
  apply (graphToPrompt_succeeds Samples.idle_hook Samples.no_serialize Samples.no_updateLink
           Samples.store_order false Samples.bypass_graph Z.to_nat 10).
  - vm_compute. reflexivity.
  - vm_compute. reflexivity.
  - intros n Hn. vm_compute in Hn.
    repeat (apply elem_of_cons in Hn as [->|Hn]; [vm_compute; lia|]).
    by apply elem_of_nil in Hn.
Defined.

(** * Widgets and links of the same name *)

Section EntryFacts.
Import Compiler Compiled.

Variable serialize_hook : HookId → Graph → NodeData → nat → WidgetValue.
Variable updateLink_hook : HookId → LLink → option LLink.
Variable devMode : bool.
Variable fuel : nat.
Variable g : Graph.

Local Abbreviation store_widgets := (store_widgets serialize_hook g).
Local Abbreviation widget_input := (widget_input serialize_hook g).
Local Abbreviation resolve_input := (resolve_input updateLink_hook fuel g).
Local Abbreviation store_links := (store_links updateLink_hook fuel g).
Local Abbreviation node_data := (node_data serialize_hook updateLink_hook devMode fuel g).

Lemma store_widgets_other node ws j : ∀ i inputs,
  (∀ w, w ∈ ws → w_name w ≠ j) →
  store_widgets node i ws inputs !! j = inputs !! j.
Proof.
  induction ws as [|w ws IH]; intros i inputs Hne; [done|].
  simpl. rewrite IH by (intros w' Hw'; apply Hne; by apply list_elem_of_further).
  destruct (serialize w); [|done].
  rewrite lookup_insert_ne; [done|]. apply Hne, list_elem_of_here.
Qed.

Lemma store_widgets_named node ws : ∀ i inputs n w,
  NoDup (w_name <$> ws) →
  ws !! n = Some w → serialize w = true →
  store_widgets node i ws inputs !! w_name w
  = Some (Literal (widget_input node (i + n) w)).
Proof.
  induction ws as [|w0 ws IH]; intros i inputs n w Hnd Hn Hs; [done|].
  rewrite fmap_cons in Hnd. apply NoDup_cons in Hnd as [Hw0 Hnd].
  destruct n as [|n]; simpl in Hn.
  - injection Hn as ->. simpl. rewrite Hs, Nat.add_0_r.
    rewrite store_widgets_other; [by rewrite lookup_insert_eq|].
    intros w' Hw' Heq. apply Hw0. rewrite <- Heq. apply list_elem_of_fmap. eauto.
  - simpl. rewrite (IH (S i) _ n w Hnd Hn Hs).
    by replace (S i + n)%nat with (i + S n)%nat by lia.
Qed.

Lemma store_links_unresolved node ss j : ∀ i inputs inputs',
  store_links node i ss inputs = Done inputs' →
  (∀ m s, ss !! m = Some s → slot_name s = j → resolve_input node (i + m) s = Done None) →
  inputs' !! j = inputs !! j.
Proof.
  induction ss as [|s ss IH]; intros i inputs inputs' H Hnone.
  - by injection H as <-.
  - simpl in H.
    destruct (resolve_input node i s) as [r| |] eqn:Hr; simpl in H; [|done|done].
    rewrite (IH _ _ _ H).
    + destruct r as [l|]; [|done].
      rewrite lookup_insert_ne; [done|]. intros Hj.
      specialize (Hnone 0%nat s eq_refl Hj). rewrite Nat.add_0_r in Hnone. congruence.
    + intros m s' Hm Hj. specialize (Hnone (S m) s' Hm Hj).
      by replace (S i + m)%nat with (i + S m)%nat by lia.
Qed.

Lemma store_links_other node ss j : ∀ i inputs inputs',
  store_links node i ss inputs = Done inputs' →
  (∀ s, s ∈ ss → slot_name s ≠ j) →
  inputs' !! j = inputs !! j.
Proof.
  induction ss as [|s ss IH]; intros i inputs inputs' H Hne.
  - by injection H as <-.
  - simpl in H.
    destruct (resolve_input node i s) as [r| |] eqn:Hr; simpl in H; [|done|done].
    rewrite (IH _ _ _ H) by (intros s' Hs'; apply Hne; by apply list_elem_of_further).
    destruct r as [l|]; [|done].
    rewrite lookup_insert_ne; [done|]. apply Hne, list_elem_of_here.
Qed.

Lemma store_links_named node ss : ∀ i inputs inputs' n s l,
  NoDup (slot_name <$> ss) →
  store_links node i ss inputs = Done inputs' →
  ss !! n = Some s → resolve_input node (i + n) s = Done (Some l) →
  inputs' !! slot_name s = Some (reference_of l).
Proof.
  induction ss as [|s0 ss IH]; intros i inputs inputs' n s l Hnd H Hn Hl; [done|].
  rewrite fmap_cons in Hnd. apply NoDup_cons in Hnd as [Hs0 Hnd].
  simpl in H.
  destruct (resolve_input node i s0) as [r| |] eqn:Hr; simpl in H; [|done|done].
  destruct n as [|n]; simpl in Hn.
  - injection Hn as ->. rewrite Nat.add_0_r, Hr in Hl. injection Hl as ->.
    rewrite (store_links_other _ _ _ _ _ _ H); [by rewrite lookup_insert_eq|].
    intros s' Hs' Heq. apply Hs0. rewrite <- Heq. apply list_elem_of_fmap. eauto.
  - eapply (IH (S i)); [done|exact H|exact Hn|].
    by replace (S i + n)%nat with (i + S n)%nat by lia.
Qed.

(** X24: a link takes precedence over a widget: when the input slots of
    a node have distinct names, the step built for the node holds, under
    the name of every slot a link is resolved for, the pair of that link,
    whatever widget of the same name the node has. *)
Theorem node_data_link node step n s l :
  node_data node = Done step →
  NoDup (slot_name <$> inputs node) →
  inputs node !! n = Some s →
  resolve_input node n s = Done (Some l) →
  step_inputs step !! slot_name s = Some (reference_of l).
Proof.
  unfold Compiler.node_data. intros H Hnd Hn Hl.
  destruct (store_links node 0 (inputs node) _) as [ins| |] eqn:Hlinks; simpl in H;
    [|done|done].
  injection H as <-. simpl. by eapply store_links_named.
Qed.

(** X25: when the widgets of a node have distinct names, the step built
    for the node holds, under the name of every serialized widget, the
    value of the widget (what its [serializeValue] yields, when it has
    one), unless a link is recorded for an input slot of the same name. *)
Theorem node_data_widget node step n w :
  node_data node = Done step →
  NoDup (w_name <$> widgets node) →
  widgets node !! n = Some w → serialize w = true →
  (∀ m s, inputs node !! m = Some s → slot_name s = w_name w →
          resolve_input node m s = Done None) →
  step_inputs step !! w_name w = Some (Literal (widget_input node n w)).
Proof.
  unfold Compiler.node_data. intros H Hnd Hn Hs Hnone.
  destruct (store_links node 0 (inputs node) _) as [ins| |] eqn:Hlinks; simpl in H;
    [|done|done].
  injection H as <-. simpl.
  rewrite (store_links_unresolved _ _ _ _ _ _ Hlinks) by done.
  by rewrite (store_widgets_named _ _ 0%nat ∅ n w).
Qed.

End EntryFacts.

Lemma node_data_link_witness :
  Compiler.step_inputs Cases.sampler_step !! "a"
  = Some (Compiler.reference_of (Samples.edge 10 1 0 3 0)).
Proof.
  apply (node_data_link Samples.no_serialize Samples.no_updateLink false 5
           Samples.pruned_graph Cases.sampler Cases.sampler_step 0
           (Samples.slot "a" "IMAGE" (Some 10)) (Samples.edge 10 1 0 3 0)).
  - vm_compute. reflexivity.
  - apply (bool_decide_unpack _). vm_compute. exact I.
  - reflexivity.
  - vm_compute. reflexivity.
Defined.

Lemma node_data_widget_witness :
  Compiler.step_inputs Cases.sampler_step !! "seed"
  = Some (Compiler.Literal (Compiler.WNumber 7)).
Proof.
  apply (node_data_widget Samples.no_serialize Samples.no_updateLink false 5
           Samples.pruned_graph Cases.sampler Cases.sampler_step 0
           (Samples.widget "seed" (Compiler.WNumber 7) None None)).
  - vm_compute. reflexivity.
  - apply (bool_decide_unpack _). vm_compute. exact I.
  - reflexivity.
  - reflexivity.
  - intros m s Hm Hs. destruct m as [|[|m]]; simpl in Hm; [| |done];
      injection Hm as <-; simpl in Hs; discriminate.
Defined.

(** * The queue, whatever the compiler and the backend answer *)

Section DrainFacts.
Import Compiler Queue Drain.

Variable run_hook : HookId → Graph → Graph.
Variable serialize_hook : HookId → Graph → NodeData → nat → WidgetValue.
Variable updateLink_hook : HookId → LLink → option LLink.
Variable computeExecutionOrder : Graph → list Z.
Variable devMode : bool.
Variable fuel : nat.
Variable api_queuePrompt : Z → Prompt → nat → Response.

Local Abbreviation batch_unit :=
  (batch_unit run_hook serialize_hook updateLink_hook computeExecutionOrder devMode fuel
     api_queuePrompt).
Local Abbreviation resume :=
  (resume run_hook serialize_hook updateLink_hook computeExecutionOrder devMode fuel
     api_queuePrompt).
Local Abbreviation step :=
  (step run_hook serialize_hook updateLink_hook computeExecutionOrder devMode fuel
     api_queuePrompt).
Local Abbreviation run :=
  (run run_hook serialize_hook updateLink_hook computeExecutionOrder devMode fuel
     api_queuePrompt).

Lemma batch_unit_log q st :
  ∃ l, log (batch_unit q st).1 = log st ++ l ∧
       match (batch_unit q st).2 with
       | Next | Break => submitted l = [number q]
       | Escapes => submitted l = [] ∨ submitted l = [number q]
       | Hangs => submitted l = []
       end ∧
       closed_chunk l.
Proof.
  unfold Queue.batch_unit.
  destruct (compile _ _ _ _ _ _ (graph st)) as [g1 [p| |]]; simpl.
  - destruct (api_queuePrompt _ _ _) as [res|err]; simpl.
    + destruct (run_afterQueued _ _ _) as [g2 hs]. simpl.
      eexists. rewrite <- !app_assoc. split; [done|]. split.
      * simpl. by rewrite submitted_AfterQueued.
      * assert (∀ hs, phase_after Queued (AfterQueued <$> hs) = Some Queued) as Hhs.
        { clear. intros hs. by induction hs. }
        intros [| | |] Hph; try done; simpl; by rewrite Hhs.
    + destruct (formatPromptError err) as [text|msg]; [destruct err as [|s|e]|]; simpl.
      * exists [Compile true; Submit (number q) false; Dialog].
        rewrite <- !app_assoc. split_and!; [done|by right|]. by intros [| | |] Hph.
      * exists [Compile true; Submit (number q) false; Dialog].
        rewrite <- !app_assoc. split_and!; [done|done|]. by intros [| | |] Hph.
      * exists [Compile true; Submit (number q) false; Dialog].
        split_and!; [by destruct (response e); simpl; rewrite <- !app_assoc|done|].
        by intros [| | |] Hph.
      * exists [Compile true; Submit (number q) false].
        rewrite <- !app_assoc. split_and!; [done|by right|]. by intros [| | |] Hph.
  - exists [Compile false]. split_and!; [done|by left|]. by intros [| | |] Hph.
  - exists []. rewrite app_nil_r. split_and!; [done|done|]. by intros [| | |] Hph.
Qed.

Lemma phase_after_app ph l1 l2 :
  phase_after ph (l1 ++ l2) = phase_after ph l1 ≫= fun ph' => phase_after ph' l2.
Proof.
  revert ph. induction l1 as [|a l1 IH]; intros ph; [done|].
  simpl. destruct (next_phase ph a); [apply IH|done].
Qed.

Lemma closed_chunk_nil : closed_chunk [].
Proof. by intros ph Hph. Qed.

Lemma closed_chunk_app l1 l2 : closed_chunk l1 → closed_chunk l2 → closed_chunk (l1 ++ l2).
Proof.
  intros H1 H2 ph Hph. rewrite phase_after_app.
  specialize (H1 ph Hph). destruct (phase_after ph l1) as [ph'|]; [|done].
  simpl. by apply H2.
Qed.

Lemma protocol_closed l1 l2 :
  protocol l1 = true → closed_chunk l2 → protocol (l1 ++ l2) = true.
Proof.
  unfold protocol. rewrite phase_after_app. intros H1 H2.
  destruct (phase_after Outside l1) as [ph|]; [|done]. simpl. by apply H2.
Qed.

Lemma while_loop_log k locals st :
  ∃ l, log (while_loop k locals st) = log st ++ l ∧ submitted l = [] ∧ closed_chunk l.
Proof.
  unfold while_loop.
  destruct (next_request _ _) as [[[q|] rest] locals']; simpl.
  - exists []. rewrite app_nil_r. split_and!; [done|done|apply closed_chunk_nil].
  - eexists. split_and!; [done|done|]. by intros [| | |] Hph.
Qed.

Lemma resume_log k st :
  ∃ l, log (resume k st) = log st ++ l ∧ closed_chunk l.
Proof.
  unfold Queue.resume.
  destruct (running st !! k) as [a|];
    [|exists []; rewrite app_nil_r; split; [done|apply closed_chunk_nil]].
  destruct (hung a);
    [exists []; rewrite app_nil_r; split; [done|apply closed_chunk_nil]|].
  destruct (batch_unit_log (item a) (set_running (delete k (running st)) st))
    as (l & Hl & _ & Hc).
  destruct (batch_unit (item a) _) as [st' e]. simpl in Hl.
  assert (∀ j, ∃ l', log (while_loop j (item a) st') = log st ++ l' ∧ closed_chunk l')
    as Hloop.
  { intros j. destruct (while_loop_log j (item a) st') as (l' & Hl' & _ & Hc').
    exists (l ++ l'). rewrite Hl', Hl, <- app_assoc. split; [done|].
    by apply closed_chunk_app. }
  destruct e; simpl; eauto.
  destruct (i a + 1 <? batchCount (item a)); simpl; eauto.
Qed.

Lemma queuePrompt_log n b st :
  ∃ l, log (Queue.queuePrompt n b st) = log st ++ l ∧ submitted l = [] ∧ closed_chunk l.
Proof.
  unfold Queue.queuePrompt. simpl.
  destruct (processingQueue st).
  - exists []. rewrite app_nil_r. split_and!; [done|done|apply closed_chunk_nil].
  - match goal with |- context [while_loop ?k ?q ?s] =>
      destruct (while_loop_log k q s) as (l & Hl & Hs & Hc) end.
    exists l. by rewrite Hl.
Qed.

Lemma run_protocol es g : protocol (log (run es (start g))) = true.
Proof.
  induction es as [|e es IH] using rev_ind; [done|].
  rewrite run_app. simpl. set (st := run es (start g)) in *.
  destruct e as [n b|k]; simpl.
  - destruct (queuePrompt_log n b st) as (l & -> & _ & Hc). by apply protocol_closed.
  - destruct (resume_log k st) as (l & -> & Hc). by apply protocol_closed.
Qed.

(** Along the protocol every dialog answers a rejection of its own. *)
Lemma dialogs_bound l : ∀ ph ph',
  phase_after ph l = Some ph' →
  (dialogs l + (if ph' is Refused then 1 else 0)
   ≤ rejections l + (if ph is Refused then 1 else 0))%nat.
Proof.
  induction l as [|a l IH]; intros ph ph' Hl.
  - injection Hl as <-. simpl. lia.
  - simpl in Hl. destruct (next_phase ph a) as [ph1|] eqn:Hph; [|done].
    specialize (IH ph1 ph' Hl).
    destruct a as [[]|n []|h| |n b]; destruct ph; simpl in Hph; try done;
      injection Hph as <-; simpl in *; lia.
Qed.

(** X11: in every state the application reaches, whatever the compiler and
    the backend answer, the actions follow the protocol of a batch unit: a
    submission comes right after the successful compilation of its unit,
    [afterQueued] callbacks only after an accepted submission, the dialog
    only right after a rejected one; and no more dialogs have been shown
    than submissions were rejected. *)
Theorem queuePrompt_protocol es g :
  let l := log (run es (start g)) in
  protocol l = true ∧ (dialogs l ≤ rejections l)%nat.
Proof.
  cbv zeta. pose proof (run_protocol es g) as Hp. split; [done|].
  unfold protocol in Hp.
  destruct (phase_after Outside (log (run es (start g)))) as [ph'|] eqn:Hph; [|done].
  pose proof (dialogs_bound _ _ _ Hph) as Hb. simpl in Hb. lia.
Qed.

Lemma place_alone k a : place k a [] = [a].
Proof. unfold place. by rewrite take_nil, drop_nil. Qed.

Lemma pending_units_alone st :
  running st = [] → pending_units st = queueItems st ≫= units.
Proof. intros Hrun. unfold pending_units. rewrite Hrun. simpl. by rewrite app_nil_r. Qed.

(** Leaving the head of the [while] loop with no other activation around
    loses no pending submission. *)
Lemma while_loop_pending k locals st :
  running st = [] →
  pending_units (while_loop k locals st) ≡ₚ queueItems st ≫= units ∧
  Forall in_batch (running (while_loop k locals st)).
Proof.
  intros Hrun. unfold while_loop.
  pose proof (next_request_units (rev (queueItems st)) locals) as Hunits.
  destruct (next_request _ _) as [[[q|] rest] locals']; simpl.
  - destruct Hunits as [Hunits Hpos]. rewrite Hrun, place_alone. split.
    + unfold pending_units. simpl.
      rewrite app_nil_r, remaining_first, <- (units_rev (queueItems st)), Hunits.
      rewrite (units_rev rest). apply Permutation_app_comm.
    + apply Forall_singleton. unfold in_batch. simpl. lia.
  - split; [|by rewrite Hrun].
    unfold pending_units. simpl.
    by rewrite Hrun, <- (units_rev (queueItems st)), Hunits.
Qed.

Lemma resume_within k st :
  single_flight st → Forall in_batch (running st) →
  submitted (log (resume k st)) ++ pending_units (resume k st)
  ⊆+ submitted (log st) ++ pending_units st ∧
  Forall in_batch (running (resume k st)).
Proof.
  intros [Hlen Hflag] Hbatch. unfold Queue.resume.
  destruct (running st !! k) as [a|] eqn:Hk; [|done].
  destruct (hung a) eqn:Hh; [done|].
  assert (running st = [a] ∧ k = 0%nat) as [Hrun ->].
  { destruct (running st) as [|a' [|]]; simpl in *; [done| |lia].
    destruct k; simpl in Hk; [by injection Hk as ->|done]. }
  rewrite Hrun, Forall_singleton in Hbatch.
  rewrite Hrun. simpl.
  pose proof (batch_unit_frame run_hook serialize_hook updateLink_hook computeExecutionOrder
                devMode fuel api_queuePrompt (item a) (set_running [] st))
    as (Hq & _ & Hr & _).
  destruct (batch_unit_log (item a) (set_running [] st)) as (l & Hl & Hs & _).
  destruct (batch_unit (item a) (set_running [] st)) as [st' e]. simpl in *.
  assert (pending_units st = (queueItems st ≫= units) ++ remaining a) as Hpend.
  { unfold pending_units. rewrite Hrun. simpl. by rewrite app_nil_r. }
  rewrite Hpend, (remaining_cons a Hbatch).
  set (a' := {| item := item a; i := i a + 1; hung := false |}).
  assert (∀ j,
    submitted (log st') = submitted (log st) ++ [number (item a)] →
    submitted (log (while_loop j (item a) st')) ++ pending_units (while_loop j (item a) st')
    ⊆+ submitted (log st) ++ (queueItems st ≫= units) ++ number (item a) :: remaining a' ∧
    Forall in_batch (running (while_loop j (item a) st'))) as Hloop.
  { intros j Hsub. destruct (while_loop_pending j (item a) st' Hr) as [Hp Hb].
    destruct (while_loop_log j (item a) st') as (l' & Hl' & Hs' & _).
    split; [|done].
    rewrite Hl', submitted_app, Hs', app_nil_r, Hsub, Hp, Hq, <- app_assoc.
    apply submseteq_app; [done|].
    trans ((queueItems st ≫= units) ++ [number (item a)]).
    { apply Permutation_submseteq, Permutation_app_comm. }
    apply submseteq_app; [done|]. apply submseteq_skip, submseteq_nil_l. }
  assert (submitted l = [number (item a)] →
          submitted (log st') = submitted (log st) ++ [number (item a)]) as Hsub.
  { intros He. by rewrite Hl, submitted_app, He. }
  destruct e.
  - destruct (i a + 1 <? batchCount (item a)) eqn:Hmid; [|apply Hloop; auto].
    rewrite Hr, place_alone. simpl. split.
    + unfold pending_units. simpl. rewrite Hq, app_nil_r, Hsub by auto.
      rewrite <- app_assoc. apply submseteq_app; [done|].
      apply Permutation_submseteq. fold a'. simpl.
      apply Permutation_middle.
    + apply Forall_singleton. unfold in_batch in *. simpl. apply Z.ltb_lt in Hmid. lia.
  - apply Hloop; auto.
  - simpl. rewrite Hr. split; [|done].
    unfold pending_units. simpl. rewrite Hr, Hq. simpl. rewrite app_nil_r.
    destruct Hs as [Hs|Hs].
    + rewrite Hl, submitted_app, Hs, app_nil_r.
      apply submseteq_app; [done|]. apply submseteq_inserts_r. done.
    + rewrite Hsub by done. rewrite <- app_assoc. apply submseteq_app; [done|].
      trans ((queueItems st ≫= units) ++ [number (item a)]).
      { apply Permutation_submseteq, Permutation_app_comm. }
      apply submseteq_app; [done|]. apply submseteq_skip, submseteq_nil_l.
  - simpl. rewrite Hr, place_alone. split.
    + unfold pending_units. simpl. rewrite Hq, Hl, submitted_app, Hs, !app_nil_r.
      subst a'. rewrite <- (remaining_cons a Hbatch). done.
    + apply Forall_singleton. done.
Qed.

Lemma queuePrompt_within n b st :
  single_flight st → Forall in_batch (running st) →
  submitted (log (Queue.queuePrompt n b st)) ++ pending_units (Queue.queuePrompt n b st)
  ⊆+ (submitted (log st) ++ pending_units st) ++ units {| number := n; batchCount := b |} ∧
  Forall in_batch (running (Queue.queuePrompt n b st)).
Proof.
  intros [Hlen Hflag] Hbatch. unfold Queue.queuePrompt. simpl.
  set (q := {| number := n; batchCount := b |}).
  destruct (processingQueue st) eqn:Hp.
  - split; [|done]. unfold pending_units. simpl.
    rewrite bind_app. simpl. rewrite app_nil_r.
    apply Permutation_submseteq. rewrite <- !app_assoc.
    do 2 apply Permutation_app_head. apply Permutation_app_comm.
  - assert (running st = []) as Hrun.
    { destruct (running st); [done|]. exfalso.
      assert (false = true) by (apply Hflag; done). done. }
    match goal with |- context [while_loop ?k ?l ?s] =>
      destruct (while_loop_pending k l s Hrun) as [Hpend Hb];
      destruct (while_loop_log k l s) as (l' & Hl' & Hs' & _)
    end.
    split; [|done]. simpl in Hpend, Hl'.
    rewrite Hl', submitted_app, Hs', app_nil_r, Hpend, bind_app. simpl.
    rewrite app_nil_r, (pending_units_alone st Hrun), <- app_assoc. done.
Qed.

Lemma step_within es st e : within es st → within (es ++ [e]) (step st e).
Proof.
  intros (Hsub & Hflight & Hbatch). unfold within. rewrite called_snoc.
  destruct e as [n b|k]; simpl.
  - destruct (queuePrompt_within n b st Hflight Hbatch) as [Hsub' Hbatch'].
    split_and!; [|by apply queuePrompt_keeps_single_flight|done].
    etrans; [exact Hsub'|]. by apply submseteq_app.
  - destruct (resume_within k st Hflight Hbatch) as [Hsub' Hbatch'].
    split_and!; [|by apply resume_keeps_single_flight|done].
    rewrite app_nil_r. by etrans.
Qed.

Lemma run_within es g : within es (run es (start g)).
Proof.
  induction es as [|e es IH] using rev_ind.
  - split_and!; [done|apply start_single_flight|done].
  - rewrite run_app. apply step_within, IH.
Qed.

(** X10: whatever the compiler and the backend answer and however calls
    and resumptions follow each other, every submission made was asked for
    by a call: the numbers submitted are, with their multiplicities, among
    those of the requests enqueued, each counted [batchCount] times. *)
Theorem submitted_asked es g : submitted (log (run es (start g))) ⊆+ called es.
Proof.
  destruct (run_within es g) as (Hsub & _).
  etrans; [|exact Hsub]. by apply submseteq_inserts_r.
Qed.

End DrainFacts.

(** * The callbacks of the extensions *)

Section InvokeFacts.
Import Extensions Invoke.

Variables World Args Result : Type.
Variable has_method : ComfyExtension → string → bool.
Variable call_method :
  ComfyExtension → string → Args → App World → Completion Result * App World.

Local Abbreviation invoke_one := (invoke_one World Args Result has_method call_method).
Local Abbreviation invoke_from := (invoke_from World Args Result has_method call_method).
Local Abbreviation invoke_all := (invoke_all World Args Result has_method call_method).
Local Abbreviation invokeExtensions :=
  (invokeExtensions World Args Result has_method call_method).

Hypothesis stable : keeps_extensions World Args Result call_method.

Lemma invoke_one_extensions method args p ext :
  extensions (app (invoke_one method args p ext)) = extensions (app p).
Proof.
  unfold Invoke.invoke_one. destruct (has_method ext method); [|done].
  pose proof (stable ext method args (app p)) as H.
  by destruct (call_method ext method args (app p)) as [[r|m] a'].
Qed.

Lemma invoke_from_drop method args fuel : ∀ k p,
  (length (extensions (app p)) - k < fuel)%nat →
  invoke_from fuel method args k p
  = Some (invoke_all method args (drop k (extensions (app p))) p).
Proof.
  induction fuel as [|fuel IH]; intros k p Hfuel; [lia|].
  simpl. destruct (extensions (app p) !! k) as [ext|] eqn:Hk.
  - rewrite (drop_S _ _ _ Hk). simpl.
    rewrite IH; rewrite invoke_one_extensions; [done|].
    apply lookup_lt_Some in Hk. lia.
  - apply lookup_ge_None in Hk. by rewrite drop_ge.
Qed.

(** X12: when no callback registers or removes an extension, a round of
    [#invokeExtensions] ends and is the round over the extensions
    registered when it starts, each visited once, in registration order. *)
Theorem invokeExtensions_round fuel method args a :
  (length (extensions a) < fuel)%nat →
  invokeExtensions fuel method args a
  = Some (invoke_all method args (extensions a) {| results := []; errors := []; app := a |}).
Proof.
  intros Hfuel. unfold Invoke.invokeExtensions.
  rewrite invoke_from_drop; [done|]. simpl. lia.
Qed.



End InvokeFacts.

Section RegisterFacts.
Import Extensions Invoke.

Variables World Args Result : Type.
Variable has_method : ComfyExtension → string → bool.
Variable call_method :
  ComfyExtension → string → Args → App World → Completion Result * App World.

(** X14: once [registerExtension] has returned, a round over the
    extensions calls the callback of the new extension last, after those
    of the extensions registered before it. *)
Theorem register_invoked_last extension a a' method args p :
  register World extension a = (Returns tt, a') →
  invoke_all World Args Result has_method call_method method args (extensions a') p
  = invoke_one World Args Result has_method call_method method args
      (invoke_all World Args Result has_method call_method method args (extensions a) p)
      extension.
Proof.
  unfold register, registerExtension.
  destruct (name_falsy (name extension)); [done|].
  destruct (find_named extension (extensions a)); [done|].
  intros [= <-]. simpl. unfold Invoke.invoke_all. by rewrite foldl_app.
Qed.

End RegisterFacts.

Lemma invokeExtensions_round_witness :
  Invoke.invokeExtensions nat unit nat Cases.two_of_three Cases.counting_call 4 "setup" tt
    Cases.three_extensions
  = Some (Invoke.invoke_all nat unit nat Cases.two_of_three Cases.counting_call "setup" tt
            (Invoke.extensions Cases.three_extensions)
            {| Invoke.results := []; Invoke.errors := []; Invoke.app := Cases.three_extensions |}).
Proof.
  apply (invokeExtensions_round nat unit nat Cases.two_of_three Cases.counting_call).
  - intros ext method args a. reflexivity.
  - simpl. lia.
Defined.

(** On the three sample extensions the first call returns, the second
    throws and is reported, the third extension has no such method. *)
Example three_extensions_round :
  (fun p => (Invoke.results p, Invoke.errors p, Invoke.world (Invoke.app p)))
    <$> Invoke.invokeExtensions nat unit nat Cases.two_of_three Cases.counting_call 4 "setup"
          tt Cases.three_extensions
  = Some ([0%nat], [Some "b"], 2%nat).
Proof. vm_compute. reflexivity. Qed.


Lemma register_invoked_last_witness :
  Invoke.invoke_all nat unit nat Cases.two_of_three Cases.counting_call "setup" tt
    (Invoke.extensions
       (Invoke.register nat (Cases.extension "d" 3) Cases.three_extensions).2)
    {| Invoke.results := []; Invoke.errors := []; Invoke.app := Cases.three_extensions |}
  = Invoke.invoke_one nat unit nat Cases.two_of_three Cases.counting_call "setup" tt
      (Invoke.invoke_all nat unit nat Cases.two_of_three Cases.counting_call "setup" tt
         (Invoke.extensions Cases.three_extensions)
         {| Invoke.results := []; Invoke.errors := []; Invoke.app := Cases.three_extensions |})
      (Cases.extension "d" 3).
Proof.
  apply (register_invoked_last nat unit nat Cases.two_of_three Cases.counting_call
           (Cases.extension "d" 3) Cases.three_extensions).
  vm_compute. reflexivity.
Defined.

(** * The patches of a configured node *)

Section ConfiguredFacts.
Import Compiler Extensions Configured.

Lemma patch_sampler_name_spec node_type w :
  match patch_sampler_name node_type w with
  | Returns w' => same_widget w w'
  | Throws _ =>
      is_sampler node_type && String.eqb (name w) "sampler_name"
      && negb (is_string (value w)) = true
  end
  ∧ (is_sampler node_type && String.eqb (name w) "sampler_name"
     && negb (is_string (value w)) = true → throws (patch_sampler_name node_type w)).
Proof.
  unfold patch_sampler_name, same_widget.
  destruct (is_sampler node_type && String.eqb (name w) "sampler_name"); simpl.
  - destruct (value w) as [[s|z|b]|]; simpl; [|done..].
    split; [|done]. by destruct (String.prefix "sample_" s).
  - done.
Qed.

Lemma patch_control_same node_type w : same_widget w (patch_control node_type w).
Proof.
  unfold patch_control, same_widget.
  destruct (is_controlled node_type && String.eqb (name w) "control_after_generate");
    [|done].
  by destruct (value w) as [[s|z|[|]]|].
Qed.

Lemma reset_invalid_spec reset w :
  match reset_invalid reset w with
  | Returns w' => same_widget w w' ∧ (reset = true → valid_combo w' = true)
                  ∧ (reset = false → w' = w)
  | Throws _ => reset && String.eqb (type w) "combo"
                && bool_decide (options_values w = None) = true
  end
  ∧ (reset && String.eqb (type w) "combo" && bool_decide (options_values w = None) = true
     → throws (reset_invalid reset w)).
Proof.
  unfold reset_invalid, same_widget, valid_combo.
  destruct reset; simpl; [|done].
  destruct (String.eqb (type w) "combo") eqn:Ht; simpl; [|by rewrite Ht].
  destruct (options_values w) as [values|] eqn:Ho; simpl; [|done].
  split; [|done].
  destruct (includes values (value w)) eqn:Hin; simpl.
  - split_and!; [done..| |done]. intros _. rewrite Ho.
    destruct values; [|rewrite Hin]; apply orb_true_r.
  - destruct values as [|x values]; simpl.
    + split_and!; [done..| |done]. intros _. rewrite Ho. apply orb_true_r.
    + split_and!; [done..| |done]. intros _. rewrite Ho.
      rewrite bool_decide_eq_true_2 by apply list_elem_of_here. apply orb_true_r.
Qed.

Lemma breaks_same node_type reset w w' :
  same_widget w w' → value w' = value w →
  breaks node_type reset w' = breaks node_type reset w.
Proof. intros (Hn & Ht & Ho) Hv. unfold breaks. by rewrite Hn, Ht, Ho, Hv. Qed.

Lemma patch_widget_throws node_type reset w :
  throws (patch_widget node_type reset w).2 ↔ breaks node_type reset w = true.
Proof.
  unfold patch_widget, breaks.
  destruct (patch_sampler_name_spec node_type w) as [Hs Hs'].
  destruct (patch_sampler_name node_type w) as [w1|m]; simpl.
  - pose proof (patch_control_same node_type w1) as Hc.
    destruct (reset_invalid_spec reset (patch_control node_type w1)) as [Hr Hr'].
    assert (is_sampler node_type && String.eqb (name w) "sampler_name"
            && negb (is_string (value w)) = false) as ->.
    { apply not_true_is_false. intros E. by apply Hs' in E. }
    simpl. destruct Hs as (Hn1 & Ht1 & Ho1). destruct Hc as (Hn2 & Ht2 & Ho2).
    rewrite Ht2, Ho2, Ht1, Ho1 in Hr, Hr'.
    destruct (reset_invalid reset (patch_control node_type w1)) as [w3|m]; simpl.
    + split; [done|]. intros E. by apply Hr' in E.
    + done.
  - by rewrite Hs.
Qed.

Lemma patch_widgets_throws node_type reset ws :
  throws (patch_widgets node_type reset ws).2 ↔ existsb (breaks node_type reset) ws = true.
Proof.
  induction ws as [|w ws IH]; simpl; [done|].
  pose proof (patch_widget_throws node_type reset w) as Hw.
  destruct (patch_widget node_type reset w) as [w' [[]|m]]; simpl in *.
  - destruct (patch_widgets node_type reset ws) as [rest c]. simpl in *.
    rewrite IH. destruct (breaks node_type reset w); [|done].
    exfalso. by apply Hw.
  - split; [|done]. intros _. by rewrite (proj1 Hw I).
Qed.

(** X15: patching a node throws exactly when one of its widgets cannot be
    patched: a [sampler_name] widget of a sampler node whose value is not
    a string, or, when the default graph is loaded, a combo widget without
    a list of choices. *)
Theorem patch_node_throws reset n :
  throws (patch_node reset n).2 ↔
  existsb (breaks (node_type n) reset) (widgets_of n) = true.
Proof.
  unfold patch_node, widgets_of. destruct (widgets n) as [ws|]; simpl; [|done].
  rewrite <- patch_widgets_throws.
  by destruct (patch_widgets (node_type n) reset ws).
Qed.

Lemma patch_widget_valid node_type w w' :
  patch_widget node_type true w = (w', Returns tt) → valid_combo w' = true.
Proof.
  unfold patch_widget.
  destruct (patch_sampler_name node_type w) as [w1|m]; [|done].
  destruct (reset_invalid_spec true (patch_control node_type w1)) as [Hr _].
  destruct (reset_invalid true (patch_control node_type w1)) as [w3|m]; [|done].
  intros [= <-]. by apply Hr.
Qed.

Lemma patch_widgets_valid node_type ws : ∀ ws',
  patch_widgets node_type true ws = (ws', Returns tt) → forallb valid_combo ws' = true.
Proof.
  induction ws as [|w ws IH]; intros ws'; simpl; [by intros [= <-]|].
  destruct (patch_widget node_type true w) as [w' [[]|m]] eqn:Hw; [|done].
  destruct (patch_widgets node_type true ws) as [rest c]. intros [= <- ->].
  simpl. by rewrite (patch_widget_valid _ _ _ Hw), IH.
Qed.

(** X16: when the default graph is loaded and the patches go through,
    every combo widget of the node holds one of its choices, unless it has
    none to choose from. *)
Theorem patch_node_combos n n' :
  patch_node true n = (n', Returns tt) →
  forallb valid_combo (widgets_of n') = true.
Proof.
  unfold patch_node, widgets_of. destruct (widgets n) as [ws|]; [|by intros [= <-]].
  destruct (patch_widgets (node_type n) true ws) as [ws' c] eqn:Hws.
  intros [= <- ->]. simpl. by eapply patch_widgets_valid.
Qed.

Lemma patch_widget_control node_type w w' :
  is_controlled node_type = true →
  patch_widget node_type false w = (w', Returns tt) → control_named w' = true.
Proof.
  intros Hc. unfold patch_widget, control_named.
  destruct (patch_sampler_name_spec node_type w) as [Hs _].
  unfold patch_sampler_name in *.
  destruct (is_sampler node_type && String.eqb (name w) "sampler_name") eqn:Hsn.
  - destruct (value w) as [[s|z|b]|] eqn:Hv; [|done..].
    simpl. intros [= <-].
    set (w1 := if String.prefix "sample_" s then _ else _) in *.
    destruct Hs as (Hn & _).
    apply andb_true_iff in Hsn as [_ Hsn%String.eqb_eq].
    unfold patch_control. rewrite Hn, Hsn. simpl. rewrite andb_false_r.
    by rewrite Hn, Hsn.
  - simpl. intros [= <-]. unfold patch_control. rewrite Hc. simpl.
    destruct (String.eqb (name w) "control_after_generate") eqn:Hn; [|by rewrite Hn].
    destruct (value w) as [[s|z|[|]]|] eqn:Hv; simpl; rewrite ?Hv; simpl;
      apply orb_true_r.
Qed.

Lemma patch_widgets_control node_type ws : ∀ ws',
  is_controlled node_type = true →
  patch_widgets node_type false ws = (ws', Returns tt) →
  forallb control_named ws' = true.
Proof.
  induction ws as [|w ws IH]; intros ws' Hc; simpl; [by intros [= <-]|].
  destruct (patch_widget node_type false w) as [w' [[]|m]] eqn:Hw; [|done].
  destruct (patch_widgets node_type false ws) as [rest c]. intros [= <- ->].
  simpl. by rewrite (patch_widget_control _ _ _ Hc Hw), IH.
Qed.

(** X17: when a saved workflow is loaded and the patches go through, no
    [control_after_generate] widget of a sampler or primitive node is left
    with a boolean value. *)
Theorem patch_node_control n n' :
  is_controlled (node_type n) = true →
  patch_node false n = (n', Returns tt) →
  forallb control_named (widgets_of n') = true.
Proof.
  intros Hc. unfold patch_node, widgets_of.
  destruct (widgets n) as [ws|]; [|by intros [= <-]].
  destruct (patch_widgets (node_type n) false ws) as [ws' c] eqn:Hws.
  intros [= <- ->]. simpl. by eapply patch_widgets_control.
Qed.

End ConfiguredFacts.

(** The three widgets of the sample sampler after the patches of a
    default load: the prefix is gone, the boolean is spelled out, and the
    choice that no longer exists is replaced by the first one. *)
Example old_sampler_patched :
  Configured.value <$> Configured.widgets_of (Configured.patch_node true Cases.old_sampler).1
  = [ Some (Compiler.WString "euler"); Some (Compiler.WString "randomize");
      Some (Compiler.WString "normal") ].
Proof. vm_compute. reflexivity. Qed.

Lemma patch_node_combos_witness :
  forallb Configured.valid_combo
    (Configured.widgets_of (Configured.patch_node true Cases.old_sampler).1) = true.
Proof.
  apply (patch_node_combos Cases.old_sampler (Configured.patch_node true Cases.old_sampler).1).
  vm_compute. reflexivity.
Defined.

Lemma patch_node_control_witness :
  forallb Configured.control_named
    (Configured.widgets_of (Configured.patch_node false Cases.old_sampler).1) = true.
Proof.
  apply (patch_node_control Cases.old_sampler
           (Configured.patch_node false Cases.old_sampler).1);
    vm_compute; reflexivity.
Defined.

(** * The dialog of the missing node types *)

Section MissingFacts.
Import Missing.

Lemma shown_children t : shown (children t) = type_of t.
Proof. by destruct t. Qed.

Lemma list_items_spec l : ∀ seenTypes,
  let types := shown <$> list_items l seenTypes in
  NoDup types ∧
  ∀ s, s ∈ types ↔ (s ∉ seenTypes) ∧ s ∈ type_of <$> l.
Proof.
  induction l as [|t l IH]; intros seen; cbv zeta; cbn [list_items].
  - rewrite !fmap_nil. split; [constructor|]. intros s. rewrite elem_of_nil. tauto.
  - destruct (bool_decide (type_of t ∈ seen)) eqn:Ht.
    + apply bool_decide_eq_true in Ht.
      destruct (IH seen) as [Hnd Hin]. split; [done|].
      intros s. rewrite Hin, fmap_cons, elem_of_cons.
      split; [tauto|]. intros [Hs [->|Hl]]; tauto.
    + apply bool_decide_eq_false in Ht.
      destruct (IH (seen ++ [type_of t])) as [Hnd Hin].
      rewrite !fmap_cons, shown_children. split.
      * constructor; [|done]. rewrite Hin, elem_of_app, list_elem_of_singleton. tauto.
      * intros s. rewrite !elem_of_cons, Hin, elem_of_app, list_elem_of_singleton.
        destruct (decide (s = type_of t)) as [->|Hne]; tauto.
Qed.

Lemma from_set_sub l : ∀ seen t, t ∈ from_set l seen → t ∈ l.
Proof.
  induction l as [|a l IH]; intros seen t; simpl; [done|].
  destruct (existsb (same_value a) seen).
  - intros H. apply elem_of_cons. right. by eapply IH.
  - intros [->|H]%elem_of_cons; apply elem_of_cons; [by left|right; by eapply IH].
Qed.

(** Under [Set] every entry is kept or has an equal in the set. *)
Lemma from_set_covers l : ∀ seen a,
  a ∈ l →
  (∃ b, b ∈ seen ∧ same_value a b = true)
  ∨ (∃ b, b ∈ from_set l seen ∧ same_value a b = true ∧ b ∈ l).
Proof.
  induction l as [|c l IH]; intros seen a Ha; [by apply elem_of_nil in Ha|].
  assert (∀ x, same_value x x = true) as Hrefl.
  { intros [s|r ty h ac]; simpl; [apply String.eqb_refl|apply Nat.eqb_refl]. }
  simpl. destruct (existsb (same_value c) seen) eqn:Hc.
  - apply elem_of_cons in Ha as [->|Ha].
    + left. apply existsb_exists in Hc as (b & Hb & Hsame).
      exists b. split; [by apply list_elem_of_In|done].
    + destruct (IH seen a Ha) as [?|(b & Hb & Hsame & Hl)]; [by left|].
      right. exists b. split_and!; [done|done|by apply list_elem_of_further].
  - apply elem_of_cons in Ha as [->|Ha].
    + right. exists c. split_and!; [apply list_elem_of_here|done|apply list_elem_of_here].
    + destruct (IH (seen ++ [c]) a Ha) as [(b & Hb & Hsame)|(b & Hb & Hsame & Hl)].
      * apply elem_of_app in Hb as [Hb|Hb%list_elem_of_singleton].
        -- left. eauto.
        -- subst b. right. exists c.
           split_and!; [apply list_elem_of_here|done|apply list_elem_of_here].
      * right. exists b.
        split_and!; [by apply list_elem_of_further|done|by apply list_elem_of_further].
Qed.

Lemma listed_spec missingNodeTypes hasAddedNodes :
  let types := listed (showMissingNodesError missingNodeTypes hasAddedNodes) in
  NoDup types ∧
  (∀ s, s ∈ types → s ∈ type_of <$> missingNodeTypes) ∧
  (coherent missingNodeTypes → ∀ s, s ∈ type_of <$> missingNodeTypes → s ∈ types).
Proof.
  cbv zeta. unfold listed, showMissingNodesError. simpl.
  destruct (list_items_spec (from_set missingNodeTypes []) []) as [Hnd Hin].
  simpl in Hin. split_and!; [done| |].
  - intros s Hs. apply Hin in Hs as [_ Hs].
    apply list_elem_of_fmap in Hs as (t & -> & Ht).
    apply list_elem_of_fmap. exists t. split; [done|]. by eapply from_set_sub.
  - intros Hco s Hs. apply Hin. split; [apply not_elem_of_nil|].
    apply list_elem_of_fmap in Hs as (a & -> & Ha).
    destruct (from_set_covers missingNodeTypes [] a Ha)
      as [(b & Hb & _)|(b & Hb & Hsame & Hl)]; [by apply elem_of_nil in Hb|].
    apply list_elem_of_fmap. exists b. split; [|done].
    by rewrite (Hco a b Ha Hl Hsame).
Qed.

(** X18: the dialog lists no type twice, lists only types that are
    missing, and, the entries of one identity being one object, lists
    every missing type. *)
Theorem showMissingNodesError_lists missingNodeTypes hasAddedNodes :
  let types := listed (showMissingNodesError missingNodeTypes hasAddedNodes) in
  NoDup types ∧
  (∀ s, s ∈ types → s ∈ type_of <$> missingNodeTypes) ∧
  (coherent missingNodeTypes → ∀ s, s ∈ type_of <$> missingNodeTypes → s ∈ types).
Proof. apply listed_spec. Qed.

Lemma load_nodes_pushed registered_node_types ns : ∀ missingNodeTypes,
  (load_nodes registered_node_types ns missingNodeTypes).2
  = missingNodeTypes
    ++ (TypeName <$> filter (fun t => registered_node_types t = false)
                       (Names.patched_type <$> ns)).
Proof.
  induction ns as [|n ns IH]; intros m; simpl; [by rewrite app_nil_r|].
  unfold Load.load_node at 1. unfold Names.patched_type at 1.
  destruct (registered_node_types (Load.type (Load.patch_type n))) eqn:Hr.
  - specialize (IH (m ++ (TypeName <$> []))).
    destruct (load_nodes registered_node_types ns _) as [rest' m'].
    simpl in *. rewrite IH, app_nil_r.
    rewrite filter_cons_False; [done|]. by rewrite Hr.
  - specialize (IH (m ++ (TypeName <$> [Load.type (Load.patch_type n)]))).
    destruct (load_nodes registered_node_types ns _) as [rest' m'].
    simpl in *. rewrite IH, <- app_assoc. simpl.
    by rewrite filter_cons_True.
Qed.

(** The nodes are patched as by the loop of [Load]. *)
Lemma load_nodes_document registered_node_types ns : ∀ m m',
  (load_nodes registered_node_types ns m).1
  = (Load.load_nodes registered_node_types ns m').1.
Proof.
  induction ns as [|n ns IH]; intros m m'; [done|].
  simpl. destruct (Load.load_node registered_node_types n) as [n' p'].
  specialize (IH (m ++ (TypeName <$> p')) (m' ++ p')).
  destruct (load_nodes registered_node_types ns _) as [r1 m1].
  destruct (Load.load_nodes registered_node_types ns _) as [r2 m2].
  simpl in *. by rewrite IH.
Qed.

(** Names pushed after coherent entries keep the list coherent. *)
Lemma coherent_names pushed (names : list string) :
  coherent pushed → coherent (pushed ++ (TypeName <$> names)).
Proof.
  intros Hco a b Ha Hb Hsame.
  apply elem_of_app in Ha as [Ha|Ha]; apply elem_of_app in Hb as [Hb|Hb].
  - by apply Hco.
  - apply list_elem_of_fmap in Hb as (y & -> & _). destruct a; simpl in Hsame; [|done].
    by apply String.eqb_eq in Hsame as ->.
  - apply list_elem_of_fmap in Ha as (x & -> & _). destruct b; simpl in Hsame; [|done].
    by apply String.eqb_eq in Hsame as ->.
  - apply list_elem_of_fmap in Ha as (x & -> & _).
    apply list_elem_of_fmap in Hb as (y & -> & _).
    simpl in Hsame. by apply String.eqb_eq in Hsame as ->.
Qed.

(** X19: when [loadGraphData] ends with the dialog of the missing node
    types, the dialog carries the closing remark and lists, each once, the
    types of the entries the extensions pushed in [beforeConfigureGraph]
    (entries of one identity being one object) and the types of the nodes of
    the document, as the extensions left it and as spelled after the three
    patches, that are not registered; and this dialog is shown exactly when
    [configure] and the loop over the configured nodes return and there is
    such an entry or such a node. *)
Theorem load_dialog_lists registered_node_types Graph configure beforeConfigureGraph
    after_configure graphData :
  let document := (beforeConfigureGraph graphData).1 in
  let pushed := (beforeConfigureGraph graphData).2 in
  let unregistered s :=
    ∃ n, n ∈ Load.nodes document ∧ Names.patched_type n = s ∧
         registered_node_types s = false in
  coherent pushed →
  match load_dialog registered_node_types Graph configure beforeConfigureGraph
          after_configure graphData with
  | Some d =>
      (∃ g, configure (Load.normalize registered_node_types document).1 = Returns g ∧
            after_configure g = Returns tt) ∧
      remark d = true ∧
      NoDup (listed d) ∧
      listed d ≠ [] ∧
      ∀ s, s ∈ listed d ↔ (∃ t, t ∈ pushed ∧ type_of t = s) ∨ unregistered s
  | None =>
      (pushed = [] ∧ ∀ s, ¬ unregistered s)
      ∨ (∀ g, configure (Load.normalize registered_node_types document).1 = Returns g →
              after_configure g ≠ Returns tt)
  end.
Proof.
  cbv zeta. intros Hco. unfold load_dialog, Load.normalize.
  destruct (beforeConfigureGraph graphData) as [document pushed]. cbn [fst snd] in *.
  pose proof (load_nodes_pushed registered_node_types (Load.nodes document) pushed) as Hloop.
  pose proof (load_nodes_document registered_node_types (Load.nodes document) pushed [])
    as Hdoc.
  destruct (load_nodes registered_node_types (Load.nodes document) pushed) as [ns missing].
  destruct (Load.load_nodes registered_node_types (Load.nodes document) []) as [ns' missing'].
  cbn [fst snd] in *. subst ns' missing.
  set (names := filter (fun t => registered_node_types t = false)
                  (Names.patched_type <$> Load.nodes document)).
  assert (∀ s, s ∈ names ↔
               ∃ n, n ∈ Load.nodes document ∧ Names.patched_type n = s ∧
                    registered_node_types s = false) as Hnames.
  { intros s. unfold names. rewrite list_elem_of_filter, list_elem_of_fmap. split.
    - intros [Hr (n & -> & Hn)]. eauto.
    - intros (n & Hn & <- & Hr). eauto. }
  destruct (configure {| Load.nodes := ns |}) as [g|msg] eqn:Hconf;
    [|by right; intros g [=]].
  destruct (after_configure g) as [[]|msg] eqn:Hafter;
    [|right; intros g' [= <-]; by rewrite Hafter].
  destruct (listed_spec (pushed ++ (TypeName <$> names)) true) as (Hnd & Hsub & Hsup).
  specialize (Hsup (coherent_names pushed names Hco)).
  assert (∀ s, s ∈ type_of <$> pushed ++ (TypeName <$> names) ↔
               (∃ t, t ∈ pushed ∧ type_of t = s) ∨ s ∈ names) as Htypes.
  { intros s. rewrite fmap_app, elem_of_app, <- list_fmap_compose, list_elem_of_fmap.
    assert (type_of ∘ TypeName <$> names = names) as -> by apply list_fmap_id.
    split; (intros [(t & ? & ?)|?]; [left; eauto|by right]). }
  destruct (pushed ++ (TypeName <$> names)) as [|t missing] eqn:Hmissing.
  - left. apply app_eq_nil in Hmissing as [-> Hn]. split; [done|].
    intros s Hs. apply Hnames in Hs. apply fmap_nil_inv in Hn. rewrite Hn in Hs.
    by apply elem_of_nil in Hs.
  - split_and!; [by eauto|done|done| |].
    + intros Hnil.
      assert (type_of t ∈ listed (showMissingNodesError (t :: missing) true)) as Hin.
      { apply Hsup. rewrite fmap_cons. apply list_elem_of_here. }
      rewrite Hnil in Hin. by apply elem_of_nil in Hin.
    + intros s. rewrite <- Hnames, <- Htypes. split; [apply Hsub|apply Hsup].
Qed.

(** X27: [loadApiJson] refuses to load exactly when some step names a
    class that is not registered: when it refuses there is such a step, and
    the dialog has no closing remark and lists, each once, the classes that
    are not registered, at least one; when it does not refuse every step
    names a registered class. *)
Theorem loadApiJson_refuses registered_node_types apiData :
  match loadApiJson_refusal registered_node_types apiData with
  | Some d =>
      (∃ k step, (k, step) ∈ apiData ∧
                 registered_node_types (Compiler.class_type step) = false) ∧
      remark d = false ∧
      NoDup (listed d) ∧
      listed d ≠ [] ∧
      ∀ s, s ∈ listed d ↔
           ∃ k step, (k, step) ∈ apiData ∧ Compiler.class_type step = s ∧
                     registered_node_types s = false
  | None =>
      ∀ k step, (k, step) ∈ apiData →
                registered_node_types (Compiler.class_type step) = true
  end.
Proof.
  unfold loadApiJson_refusal.
  assert (∀ step, step ∈ filter (fun n => registered_node_types (Compiler.class_type n) = false)
                            apiData.*2 ↔
                  registered_node_types (Compiler.class_type step) = false ∧
                  ∃ k, (k, step) ∈ apiData) as Hmissing.
  { intros step. rewrite list_elem_of_filter, list_elem_of_fmap. split.
    - intros [Hr ([k st] & -> & Hin)]. eauto.
    - intros [Hr (k & Hin)]. split; [done|]. by exists (k, step). }
  destruct (filter _ _) as [|t missing].
  - intros k step Hin. apply not_false_iff_true. intros Hr.
    assert (step ∈ []) as Hnil by (apply Hmissing; eauto).
    by apply elem_of_nil in Hnil.
  - set (types := (fun t => TypeName (Compiler.class_type t)) <$> t :: missing).
    destruct (listed_spec types false) as (Hnd & Hsub & Hsup).
    assert (type_of <$> types = Compiler.class_type <$> t :: missing) as Htypes.
    { unfold types. rewrite <- list_fmap_compose. done. }
    rewrite Htypes in Hsub, Hsup.
    assert (coherent types) as Hco.
    { intros a b Ha Hb Hsame.
      apply list_elem_of_fmap in Ha as (x & -> & _).
      apply list_elem_of_fmap in Hb as (y & -> & _).
      simpl in Hsame. by apply String.eqb_eq in Hsame as ->. }
    specialize (Hsup Hco).
    destruct (proj1 (Hmissing t) (list_elem_of_here _ _)) as [Hr [k Hin]].
    split_and!; [by eauto|done|done| |].
    + intros Hnil.
      assert (Compiler.class_type t ∈ listed (showMissingNodesError types false)) as Hl.
      { apply Hsup. rewrite fmap_cons. apply list_elem_of_here. }
      rewrite Hnil in Hl. by apply elem_of_nil in Hl.
    + intros s. split.
      * intros Hs. apply Hsub, list_elem_of_fmap in Hs as (step & -> & Hs).
        apply Hmissing in Hs as [Hr' [k' Hin']]. eauto.
      * intros (k' & step & Hin' & <- & Hr'). apply Hsup.
        apply list_elem_of_fmap. exists step. split; [done|]. apply Hmissing. eauto.
Qed.

End MissingFacts.

Lemma load_dialog_lists_witness :
  Missing.coherent [Cases.missing_group] ∧
  Missing.listed Cases.group_dialog = ["workflow/upscale"] ∧
  ∀ s, s ∈ Missing.listed Cases.group_dialog ↔
       (∃ t, t ∈ [Cases.missing_group] ∧ Missing.type_of t = s)
       ∨ ∃ n, n ∈ Load.nodes Cases.settled_document ∧ Names.patched_type n = s ∧
              Cases.all_registered s = false.
Proof.
  assert (Missing.coherent [Cases.missing_group]) as Hco.
  { intros a b Ha%list_elem_of_singleton Hb%list_elem_of_singleton _. by subst. }
  split; [exact Hco|]. split; [reflexivity|].
  apply (load_dialog_lists Cases.all_registered Load.GraphData Returns Cases.report_group
           (fun _ => Returns tt) Cases.settled_document Hco).
Defined.

(** * The updates from the backend *)

Section UpdatesFacts.
Import Compiler Updates.

Lemma merge_fold d ks : ∀ out,
  NoDup ks →
  ∀ k, foldl (merge_key d) out ks !! k
       = if decide (k ∈ ks) then merged d out k else out !! k.
Proof.
  induction ks as [|j ks IH]; intros out Hnd k; cbn [foldl].
  - by rewrite decide_False by apply not_elem_of_nil.
  - apply NoDup_cons in Hnd as [Hj Hnd]. rewrite IH by done.
    assert (∀ k', k' ≠ j → merge_key d out j !! k' = out !! k') as Hother.
    { intros k' Hne. unfold merge_key.
      destruct (d !! j); [|done].
      destruct (out !! j) as [[v|s]|]; by rewrite lookup_insert_ne. }
    destruct (decide (k = j)) as [->|Hne].
    + rewrite decide_False by done. rewrite decide_True by apply list_elem_of_here.
      unfold merge_key, merged.
      destruct (d !! j) as [x|]; [|done].
      destruct (out !! j) as [[v|s]|]; by rewrite lookup_insert_eq.
    + rewrite Hother by done.
      destruct (decide (k ∈ ks)) as [Hin|Hin].
      * rewrite decide_True by (by apply list_elem_of_further).
        unfold merged. by rewrite Hother.
      * rewrite decide_False; [done|]. intros [?|?]%elem_of_cons; done.
Qed.

Lemma merge_output_lookup d out k : merge_output d out !! k = merged d out k.
Proof.
  unfold merge_output. rewrite merge_fold by apply NoDup_fst_map_to_list.
  destruct (decide (k ∈ keys d)) as [Hin|Hin]; [done|].
  unfold merged. destruct (d !! k) eqn:Hk; [|done].
  exfalso. apply Hin, elem_of_keys. eauto.
Qed.

(** X20: an [executed] event that asks for a merge, for a node with a
    stored output, changes the keys of the event only: an array stored
    under such a key is extended by what the event brings, anything else
    is replaced; the outputs of the other nodes are untouched. *)
Theorem executed_merges detail a stored :
  merge detail = true →
  nodeOutputs a !! node detail = Some (Some stored) →
  ∃ stored',
    nodeOutputs (executed detail a) !! node detail = Some (Some stored') ∧
    (∀ k, stored' !! k = merged (default ∅ (output detail)) stored k) ∧
    (∀ n, n ≠ node detail → nodeOutputs (executed detail a) !! n = nodeOutputs a !! n).
Proof.
  intros Hm Hs. unfold executed. rewrite Hs, Hm. simpl.
  eexists. split_and!.
  - by rewrite lookup_insert_eq.
  - intros k. apply merge_output_lookup.
  - intros n Hn. by rewrite lookup_insert_ne.
Qed.

(** X21: merging never loses an item, and items come in the order of the
    events: after two merged events the array under a key is the stored
    one followed by the items of the first, then those of the second. *)
Theorem merge_output_accumulates d1 d2 out k v x1 x2 :
  out !! k = Some (Items v) → d1 !! k = Some x1 → d2 !! k = Some x2 →
  merge_output d2 (merge_output d1 out) !! k = Some (Items (concat (concat v x1) x2)).
Proof.
  intros Hv H1 H2. rewrite merge_output_lookup. unfold merged.
  by rewrite H2, merge_output_lookup; unfold merged; rewrite H1, Hv.
Qed.

Lemma announced_snoc us u :
  announced (us ++ [u])
  = announced us ++ match u with Executing (Some i) => [i] | _ => [] end.
Proof. unfold announced. rewrite bind_app. simpl. by rewrite app_nil_r. Qed.

Lemma single_preview_snoc us u k urls :
  single_preview us k urls → single_preview (us ++ [u]) k urls.
Proof.
  intros (Hlen & i & Hi & ->). split; [done|]. exists i. split; [|done].
  rewrite announced_snoc. apply elem_of_app. by left.
Qed.

Lemma handle_previews_ok us a u :
  previews_ok us a → previews_ok (us ++ [u]) (handle a u).
Proof.
  intros [Hrun Hprev].
  assert (map_Forall (single_preview (us ++ [u])) (nodePreviewImages a)) as Hprev'.
  { intros k urls Hk. by apply single_preview_snoc, Hprev. }
  assert (∀ i, runningNodeId a = Some i → i ∈ announced (us ++ [u])) as Hrun'.
  { intros i Hi. rewrite announced_snoc. apply elem_of_app. left. by apply Hrun. }
  destruct u as [[i|]|detail| |url|]; simpl.
  - split.
    + intros j [= <-]. rewrite announced_snoc. apply elem_of_app. right.
      apply list_elem_of_here.
    + simpl. destruct (i =? 0); [done|]. by apply map_Forall_delete.
  - by split.
  - by split.
  - by split.
  - unfold b_preview.
    destruct (runningNodeId a) as [i|] eqn:Hi; [|split; [by rewrite Hi|done]].
    split; [simpl; by rewrite Hi|]. simpl.
    apply map_Forall_insert_2; [|done].
    split; [done|]. exists i. split; [|done]. by apply Hrun'.
  - split; [done|]. simpl. apply map_Forall_empty.
Qed.

(** X22: whatever updates arrive, every preview stored is a single image
    and is filed under a node that an [executing] event announced. *)
Theorem previews_single us :
  map_Forall (single_preview us) (nodePreviewImages (foldl handle initial us)).
Proof.
  assert (previews_ok us (foldl handle initial us)) as [_ H]; [|exact H].
  induction us as [|u us IH] using rev_ind.
  - split; [done|]. simpl. apply map_Forall_empty.
  - rewrite foldl_app. simpl. by apply handle_previews_ok.
Qed.

End UpdatesFacts.

Lemma executed_merges_witness :
  ∃ stored',
    Updates.nodeOutputs (Updates.executed (Cases.another_image "b.png") Cases.one_image)
      !! "9" = Some (Some stored') ∧
    (∀ k, stored' !! k
          = Updates.merged (default ∅ (Updates.output (Cases.another_image "b.png")))
              {[ "images" := Updates.Items ["a.png"] ]} k) ∧
    (∀ n, n ≠ "9" →
          Updates.nodeOutputs (Updates.executed (Cases.another_image "b.png") Cases.one_image)
            !! n = Updates.nodeOutputs Cases.one_image !! n).
Proof.
  apply (executed_merges (Cases.another_image "b.png") Cases.one_image
           {[ "images" := Updates.Items ["a.png"] ]}).
  - reflexivity.
  - vm_compute. reflexivity.
Defined.

Lemma merge_output_accumulates_witness :
  Updates.merge_output {[ "images" := Updates.Items ["c.png"] ]}
    (Updates.merge_output {[ "images" := Updates.Items ["b.png"] ]}
       {[ "images" := Updates.Items ["a.png"] ]}) !! "images"
  = Some (Updates.Items (Updates.concat (Updates.concat ["a.png"] (Updates.Items ["b.png"]))
                           (Updates.Items ["c.png"]))).
Proof.
  apply (merge_output_accumulates {[ "images" := Updates.Items ["b.png"] ]}
           {[ "images" := Updates.Items ["c.png"] ]}
           {[ "images" := Updates.Items ["a.png"] ]} "images" ["a.png"]
           (Updates.Items ["b.png"]) (Updates.Items ["c.png"]));
    vm_compute; reflexivity.
Defined.

(** * The menu stays in the window *)

Section MenuFacts.
Import Menu.

Lemma positionElement_inside geo d :
  0 ≤ newPosX d ≤ body_clientWidth geo - clientWidth geo →
  0 ≤ newPosY d ≤ body_clientHeight geo - clientHeight geo →
  inside geo (positionElement geo d).
Proof.
  intros Hx Hy. unfold positionElement, inside, left_edge.
  destruct (body_clientWidth geo <? 2 * newPosX d + clientWidth geo); simpl.
  - split; [|lia]. eexists. split; [done|]. lia.
  - split; [|lia]. eexists. split; [done|]. lia.
Qed.

(** X23: when the menu fits in the body, dragging it, wherever the
    pointer goes, leaves it entirely inside the body, and so does the
    check of the bounds made after a resize once the menu has been moved
    by hand; the menu is anchored to the right edge exactly when its
    centre lies in the right half of the body. *)
Theorem menu_stays_inside geo d clientX clientY :
  fits geo →
  let dragged := elementDrag clientX clientY geo d in
  inside geo dragged.2 ∧
  manual_pos dragged.1 = true ∧
  (is_Some (right dragged.2) ↔
   body_clientWidth geo < 2 * newPosX dragged.1 + clientWidth geo) ∧
  match (ensureInBounds geo d).2 with
  | Some style => inside geo style
  | None => manual_pos d = false
  end.
Proof.
  intros [Hw Hh]. cbv zeta. split_and!.
  - apply positionElement_inside; simpl; lia.
  - done.
  - unfold elementDrag. cbn [fst snd]. unfold positionElement.
    match goal with |- context [?a <? ?b] => destruct (Z.ltb_spec a b) as [Hlt|Hge] end;
      simpl in *.
    + split; [done|eauto].
    + split; [by intros [? [=]]|lia].
  - unfold ensureInBounds. destruct (manual_pos d); [|done]. simpl.
    apply positionElement_inside; simpl; lia.
Qed.

End MenuFacts.

Lemma menu_stays_inside_witness :
  let dragged := Menu.elementDrag 150 (-20) Cases.window Cases.at_rest in
  Menu.inside Cases.window dragged.2 ∧
  Menu.manual_pos dragged.1 = true ∧
  (is_Some (Menu.right dragged.2) ↔
   Menu.body_clientWidth Cases.window
   < 2 * Menu.newPosX dragged.1 + Menu.clientWidth Cases.window) ∧
  match (Menu.ensureInBounds Cases.window Cases.at_rest).2 with
  | Some style => Menu.inside Cases.window style
  | None => Menu.manual_pos Cases.at_rest = false
  end.
Proof.
  apply (menu_stays_inside Cases.window Cases.at_rest 150 (-20)).
  unfold Menu.fits. simpl. lia.
Defined.

(** The sample menu, dragged beyond the right edge, ends against it,
    anchored to the right. *)
Example menu_dragged_right :
  (Menu.elementDrag 150 (-20) Cases.window Cases.at_rest).2
  = {| Menu.left := None; Menu.right := Some 0; Menu.top := 400 |}.
Proof. vm_compute. reflexivity. Qed.

(** * Pasting templates one below the other *)

Section TemplatesFacts.
Import Templates.

Variable pasteFromClipboard : string → Canvas → Canvas.

Lemma lower_max nodes : ∀ maxY,
  match foldl lower maxY nodes with
  | Some m =>
      (∀ node, node ∈ nodes → bottom node ≤ m) ∧
      (∀ m0, maxY = Some m0 → m0 ≤ m) ∧
      (maxY = Some m ∨ ∃ node, node ∈ nodes ∧ bottom node = m)
  | None => maxY = None ∧ nodes = []
  end.
Proof.
  induction nodes as [|n nodes IH]; intros maxY; simpl.
  - destruct maxY as [m|]; [|done]. split_and!; [|by intros ? [= ->]|by left].
    intros node Hn. by apply elem_of_nil in Hn.
  - specialize (IH (lower maxY n)).
    destruct (foldl lower (lower maxY n) nodes) as [m|].
    2:{ destruct IH as [H _]. unfold lower in H.
        destruct maxY; [destruct (_ <? _)|]; discriminate. }
    destruct IH as (Hall & Hge & Hfrom). unfold lower in Hge, Hfrom. fold (bottom n) in *.
    destruct maxY as [m0|].
    + destruct (Z.ltb_spec m0 (bottom n)) as [Hlt|Hle].
      * specialize (Hge _ eq_refl). split_and!.
        -- intros node [->|Hin]%elem_of_cons; [done|by apply Hall].
        -- intros ? [= <-]. lia.
        -- right. destruct Hfrom as [[= <-]|(node & Hin & Hb)].
           ++ exists n. split; [apply list_elem_of_here|done].
           ++ exists node. split; [by apply list_elem_of_further|done].
      * specialize (Hge _ eq_refl). split_and!.
        -- intros node [->|Hin]%elem_of_cons; [lia|by apply Hall].
        -- by intros ? [= <-].
        -- destruct Hfrom as [?|(node & Hin & Hb)]; [by left|].
           right. exists node. split; [by apply list_elem_of_further|done].
    + specialize (Hge _ eq_refl). split_and!.
      * intros node [->|Hin]%elem_of_cons; [done|by apply Hall].
      * done.
      * right. destruct Hfrom as [[= <-]|(node & Hin & Hb)].
        -- exists n. split; [apply list_elem_of_here|done].
        -- exists node. split; [by apply list_elem_of_further|done].
Qed.

Lemma paste_template_below data p c :
  canvas p = Some c →
  let pasted := pasteFromClipboard data c in
  ∃ c', canvas (paste_template pasteFromClipboard data p) = Some c' ∧
        selected_nodes c' = selected_nodes pasted ∧
        (∀ node, node ∈ selected_nodes c' → bottom node + 50 ≤ graph_mouse_y c') ∧
        match selected_nodes pasted with
        | [] => graph_mouse_y c' = graph_mouse_y pasted
        | _ => ∃ node, node ∈ selected_nodes c' ∧ graph_mouse_y c' = bottom node + 50
        end.
Proof.
  intros Hc. cbv zeta. unfold paste_template. rewrite Hc. simpl.
  pose proof (lower_max (selected_nodes (pasteFromClipboard data c)) None) as Hmax.
  destruct (foldl lower None (selected_nodes (pasteFromClipboard data c))) as [m|].
  - destruct Hmax as (Hall & _ & Hfrom). eexists. split; [done|]. simpl.
    split_and!; [done| |].
    + intros node Hn. specialize (Hall node Hn). lia.
    + destruct Hfrom as [?|(node & Hin & Hb)]; [done|].
      destruct (selected_nodes (pasteFromClipboard data c)) as [|n0 ns] eqn:Hsel;
        [by apply elem_of_nil in Hin|].
      exists node. split; [done|lia].
  - destruct Hmax as [_ Hnil]. eexists. split; [done|]. rewrite Hnil.
    split_and!; [done| |done]. intros node Hn. by apply elem_of_nil in Hn.
Qed.

(** X26: when [loadTemplateData] is given templates the last of which has
    data, the pointer of the canvas ends 50 below the lowest bottom of the
    nodes that the paste of that template selected (or where that paste
    left it, when it selected none), so that what is pasted next lands
    below them; and the clipboard item holds the text of what it held
    before, which is the four letters [null] when there was no item. *)
Theorem loadTemplateData_below ts template data p c :
  data_of template = Some data →
  canvas (paste_templates pasteFromClipboard ts p) = Some c →
  let pasted := pasteFromClipboard data c in
  let p' := loadTemplateData pasteFromClipboard
              (Some {| templates := Some (ts ++ [template]) |}) p in
  clipboard p' = Some (String_of (clipboard p)) ∧
  ∃ c', canvas p' = Some c' ∧
        selected_nodes c' = selected_nodes pasted ∧
        (∀ node, node ∈ selected_nodes c' → bottom node + 50 ≤ graph_mouse_y c') ∧
        match selected_nodes pasted with
        | [] => graph_mouse_y c' = graph_mouse_y pasted
        | _ => ∃ node, node ∈ selected_nodes c' ∧ graph_mouse_y c' = bottom node + 50
        end.
Proof.
  intros Hd Hc. cbv zeta. unfold loadTemplateData. simpl. split; [done|].
  unfold paste_templates. rewrite foldl_app. simpl. rewrite Hd.
  by apply paste_template_below.
Qed.

End TemplatesFacts.

Lemma loadTemplateData_below_witness :
  let p' := Templates.loadTemplateData Cases.paste_at_pointer
              (Some {| Templates.templates := Some (Cases.two_templates ++ [Cases.template "B"]) |})
              Cases.empty_page in
  Templates.clipboard p' = Some (Templates.String_of (Templates.clipboard Cases.empty_page)) ∧
  ∃ c', Templates.canvas p' = Some c' ∧
        Templates.selected_nodes c'
        = Templates.selected_nodes (Cases.paste_at_pointer "B" Cases.after_first) ∧
        (∀ node, node ∈ Templates.selected_nodes c' →
                 Templates.bottom node + 50 ≤ Templates.graph_mouse_y c') ∧
        match Templates.selected_nodes (Cases.paste_at_pointer "B" Cases.after_first) with
        | [] => Templates.graph_mouse_y c'
                = Templates.graph_mouse_y (Cases.paste_at_pointer "B" Cases.after_first)
        | _ => ∃ node, node ∈ Templates.selected_nodes c' ∧
                       Templates.graph_mouse_y c' = Templates.bottom node + 50
        end.
Proof.
  apply (loadTemplateData_below Cases.paste_at_pointer Cases.two_templates
           (Cases.template "B") "B" Cases.empty_page Cases.after_first);
    vm_compute; reflexivity.
Defined.

(** Two templates pasted on an empty page: the second lands 150 below the
    first, and the clipboard item that did not exist holds [null]. *)
Example two_templates_pasted :
  Templates.loadTemplateData Cases.paste_at_pointer
    (Some {| Templates.templates := Some (Cases.two_templates ++ [Cases.template "B"]) |})
    Cases.empty_page
  = {| Templates.clipboard := Some "null";
       Templates.canvas :=
         Some {| Templates.selected_nodes :=
                   [{| Templates.pos_y := 150; Templates.size_y := 100 |}];
                 Templates.graph_mouse_y := 300 |} |}.
Proof. vm_compute. reflexivity. Qed.
